(** * Dronne Rural Navigation: routing engine and live navigation loop

    A shallow embedding of
      - [services/navigationService.ts]    (geodesic primitives, signal),
      - [services/offlineRoutingEngine.ts] (topology graph, A* pathfinder),
      - [services/routingService.ts]       (route request, offline fallback),
      - [services/offlineMapService.ts]    (tiles of a region, download),
      - [App.tsx]                          (animation tick, maneuver scan,
                                            track recording, calibrated
                                            sensors, time of arrival),
      - [components/MapView.tsx]           (rotation of the user marker),
      - [components/Speedometer.tsx]       (needle of the dial),
      - [components/SensorCalibrationModal.tsx] (calibration handlers),
    together with the properties the specification states about them and
    further properties of the code.

    Numbers.  A JavaScript [number] is modelled by [number] below: the three
    IEEE special values the code depends on ([Infinity], [-Infinity], [NaN])
    and finite values, which are kept as exact rationals.  Rounding of finite
    results and the sign of zero are abstracted; everything the code does
    with [Infinity], [NaN], falsy zero and comparisons is kept.  Where a
    property turns on one comparison of computed values or on a rounding to
    a whole number, its hypotheses keep the values clear of the boundary (or
    its bounds are not strict), so that it does not rest on the absence of
    rounding.

    Transcendental functions ([Math.sin] and friends) have no rational
    model; they are a parameter [MathLib] of the development, and every
    statement about the pathfinder and the loop holds for all of them.

    Loops.  A loop whose end is not evident from its shape takes a step
    budget ([fuel]) and yields an [outcome]; the statements say that a
    stated budget is enough. *)

From Stdlib Require Import QArith Qabs Qminmax Qround Lqa ZArith Lia Psatz.
From stdpp Require Import gmap strings list.

Set Default Proof Using "Type".

(* ===================================================================== *)
(** ** JavaScript numbers *)
(* ===================================================================== *)

Module JS.

Inductive number : Type :=
  | Fin (q : Q)
  | PosInf
  | NegInf
  | NaN.

Definition Infinity : number := PosInf.

Definition Qltb (a b : Q) : bool := if Qlt_le_dec a b then true else false.
Definition isPos (q : Q) : bool := Qltb 0 q.
Definition isNeg (q : Q) : bool := Qltb q 0.
Definition isZero (q : Q) : bool := Qeq_bool q 0.

(** Unary minus. *)
Definition neg (x : number) : number :=
  match x with
  | Fin q => Fin (- q)
  | PosInf => NegInf
  | NegInf => PosInf
  | NaN => NaN
  end.

(** [x + y]. *)
Definition add (x y : number) : number :=
  match x, y with
  | NaN, _ | _, NaN => NaN
  | Fin a, Fin b => Fin (a + b)
  | PosInf, NegInf | NegInf, PosInf => NaN
  | PosInf, _ | _, PosInf => PosInf
  | NegInf, _ | _, NegInf => NegInf
  end.

(** [x - y]. *)
Definition sub (x y : number) : number := add x (neg y).

(** The sign of an infinite product, [NaN] for [0 * Infinity]. *)
Definition infTimes (positive : bool) (q : Q) : number :=
  if isZero q then NaN
  else if isPos q then (if positive then PosInf else NegInf)
  else (if positive then NegInf else PosInf).

(** [x * y]. *)
Definition mul (x y : number) : number :=
  match x, y with
  | NaN, _ | _, NaN => NaN
  | Fin a, Fin b => Fin (a * b)
  | Fin a, PosInf | PosInf, Fin a => infTimes true a
  | Fin a, NegInf | NegInf, Fin a => infTimes false a
  | PosInf, PosInf | NegInf, NegInf => PosInf
  | PosInf, NegInf | NegInf, PosInf => NegInf
  end.

(** [x / y]; a zero divisor is taken as [+0]. *)
Definition div (x y : number) : number :=
  match x, y with
  | NaN, _ | _, NaN => NaN
  | Fin a, Fin b =>
      if isZero b then
        (if isZero a then NaN else if isPos a then PosInf else NegInf)
      else Fin (a / b)
  | Fin _, (PosInf | NegInf) => Fin 0
  | (PosInf | NegInf), (PosInf | NegInf) => NaN
  | PosInf, Fin b => if isNeg b then NegInf else PosInf
  | NegInf, Fin b => if isNeg b then PosInf else NegInf
  end.

(** [x % y]: the remainder of the truncated division, sign of [x]. *)
Definition truncQ (q : Q) : Z := Z.quot (Qnum q) (Zpos (Qden q)).

Definition rem (x y : number) : number :=
  match x, y with
  | NaN, _ | _, NaN => NaN
  | (PosInf | NegInf), _ => NaN
  | Fin a, (PosInf | NegInf) => Fin a
  | Fin a, Fin b =>
      if isZero b then NaN
      else Fin (a - b * inject_Z (truncQ (a / b)))
  end.

(** [x < y], [x <= y], [x > y], [x >= y]: all false on [NaN]. *)
Definition lt (x y : number) : bool :=
  match x, y with
  | NaN, _ | _, NaN => false
  | Fin a, Fin b => Qltb a b
  | NegInf, (Fin _ | PosInf) => true
  | Fin _, PosInf => true
  | _, _ => false
  end.

Definition le (x y : number) : bool :=
  match x, y with
  | NaN, _ | _, NaN => false
  | Fin a, Fin b => Qle_bool a b
  | NegInf, _ => true
  | _, PosInf => true
  | _, _ => false
  end.

Definition gt (x y : number) : bool := lt y x.
Definition ge (x y : number) : bool := le y x.

(** [ToBoolean]: [0] and [NaN] are falsy. *)
Definition truthy (x : number) : bool :=
  match x with
  | Fin q => negb (isZero q)
  | PosInf | NegInf => true
  | NaN => false
  end.

(** [v || d] where [v] may be [undefined]. *)
Definition orElse (v : option number) (d : number) : number :=
  match v with
  | Some x => if truthy x then x else d
  | None => d
  end.

(** [Math.abs], [Math.sign], [Math.max], [Math.min] (two arguments). *)
Definition abs (x : number) : number :=
  match x with
  | Fin q => Fin (Qabs q)
  | PosInf | NegInf => PosInf
  | NaN => NaN
  end.

Definition sign (x : number) : number :=
  match x with
  | Fin q => if isPos q then Fin 1 else if isNeg q then Fin (-1) else Fin 0
  | PosInf => Fin 1
  | NegInf => Fin (-1)
  | NaN => NaN
  end.

Definition max (x y : number) : number :=
  match x, y with
  | NaN, _ | _, NaN => NaN
  | _, _ => if lt x y then y else x
  end.

Definition min (x y : number) : number :=
  match x, y with
  | NaN, _ | _, NaN => NaN
  | _, _ => if lt y x then y else x
  end.

(** Equality of numbers up to the representation of a rational. *)
Definition eqv (x y : number) : Prop :=
  match x, y with
  | Fin a, Fin b => a == b
  | PosInf, PosInf | NegInf, NegInf | NaN, NaN => True
  | _, _ => False
  end.

End JS.

Export JS.

Declare Scope js_scope.
Delimit Scope js_scope with js.
Bind Scope js_scope with number.
Infix "+" := JS.add : js_scope.
Infix "-" := JS.sub : js_scope.
Infix "*" := JS.mul : js_scope.
Infix "/" := JS.div : js_scope.
Infix "%%" := JS.rem (at level 40, left associativity) : js_scope.
Infix "<?" := JS.lt : js_scope.
Infix "<=?" := JS.le : js_scope.
Infix ">?" := JS.gt : js_scope.
Infix ">=?" := JS.ge : js_scope.
Infix "|||" := JS.orElse (at level 50, left associativity) : js_scope.
Infix "≈" := JS.eqv (at level 70) : js_scope.

Coercion Fin : Q >-> number.

(** The functions of [Math] that have no rational model. *)
Record MathLib : Type := {
  Math_sin : number -> number;
  Math_cos : number -> number;
  Math_asin : number -> number;
  Math_atan2 : number -> number -> number;
  Math_sqrt : number -> number
}.

(** [Math.PI], the binary64 value nearest to pi. *)
Definition Math_PI : number := Fin (884279719003555 # 281474976710656).

(* ===================================================================== *)
(** ** Outcome of a computation with loops *)
(* ===================================================================== *)

(** A call either returns, throws a [TypeError] (property read on
    [undefined]), or is still running when the step budget is spent. *)
Inductive outcome (A : Type) : Type :=
  | Done (a : A)
  | TypeError
  | OutOfFuel.
Arguments Done {A} a.
Arguments TypeError {A}.
Arguments OutOfFuel {A}.

Definition bind {A B} (m : outcome A) (k : A -> outcome B) : outcome B :=
  match m with
  | Done a => k a
  | TypeError => TypeError
  | OutOfFuel => OutOfFuel
  end.

Notation "'let!' x ':=' m 'in' k" := (bind m (fun x => k))
  (at level 10, x pattern, m at level 100, k at level 200).

(** [obj!] / property access on a possibly [undefined] object. *)
Definition defined {A} (o : option A) : outcome A :=
  match o with
  | Some a => Done a
  | None => TypeError
  end.

(* ===================================================================== *)
(** ** types.ts *)
(* ===================================================================== *)

Record Coordinates : Type := { lat : number; lng : number }.

Record RoutingOptions : Type := {
  preferPaved : bool;
  avoidHills : bool;
  allowHighways : bool
}.

Inductive TransportMode : Type := WALK | BIKE | CAR.

Inductive NavigationMode : Type := IDLE | NAVIGATING | OFFLINE_CACHING.

(* ===================================================================== *)
(** ** services/navigationService.ts *)
(* ===================================================================== *)

Section Geodesy.

Variable M : MathLib.

Local Open Scope js_scope.

(** Earth radius in meters. *)
Definition R : number := Fin 6378137.

Definition toRad (deg : number) : number := (deg * Math_PI) / Fin 180.
Definition toDeg (rad : number) : number := (rad * Fin 180) / Math_PI.

Definition calculateNewPosition
    (start : Coordinates) (distanceMeters bearingDegrees : number) : Coordinates :=
  let lat1 := toRad (lat start) in
  let lon1 := toRad (lng start) in
  let angularDistance := distanceMeters / R in
  let bearingRad := toRad bearingDegrees in
  let lat2 :=
    Math_asin M
      (Math_sin M lat1 * Math_cos M angularDistance +
       Math_cos M lat1 * Math_sin M angularDistance * Math_cos M bearingRad) in
  let lon2 :=
    lon1 + Math_atan2 M
      (Math_sin M bearingRad * Math_sin M angularDistance * Math_cos M lat1)
      (Math_cos M angularDistance - Math_sin M lat1 * Math_sin M lat2) in
  {| lat := toDeg lat2; lng := toDeg lon2 |}.

Definition calculateDistance (p1 p2 : Coordinates) : number :=
  let dLat := toRad (lat p2 - lat p1) in
  let dLon := toRad (lng p2 - lng p1) in
  let lat1 := toRad (lat p1) in
  let lat2 := toRad (lat p2) in
  let a :=
    Math_sin M (dLat / Fin 2) * Math_sin M (dLat / Fin 2) +
    Math_sin M (dLon / Fin 2) * Math_sin M (dLon / Fin 2)
      * Math_cos M lat1 * Math_cos M lat2 in
  let c := Fin 2 * Math_atan2 M (Math_sqrt M a) (Math_sqrt M (Fin 1 - a)) in
  R * c.

Definition calculateBearing (start end_ : Coordinates) : number :=
  let lat1 := toRad (lat start) in
  let lat2 := toRad (lat end_) in
  let dLon := toRad (lng end_ - lng start) in
  let y := Math_sin M dLon * Math_cos M lat2 in
  let x := Math_cos M lat1 * Math_sin M lat2 -
           Math_sin M lat1 * Math_cos M lat2 * Math_cos M dLon in
  (toDeg (Math_atan2 M y x) + Fin 360) %% Fin 360.

End Geodesy.

(* ===================================================================== *)
(** ** services/offlineRoutingEngine.ts *)
(* ===================================================================== *)

Inductive Surface : Type := paved | unpaved.

Definition Surface_eqb (a b : Surface) : bool :=
  match a, b with
  | paved, paved | unpaved, unpaved => true
  | _, _ => false
  end.

Record GraphEdge : Type := {
  nodeId : string;
  weight : number;          (* physical distance in meters *)
  surface : Surface;
  isHilly : bool
}.

(** A node carries its own [lat]/[lng]; [coords] is the node seen as a
    [Coordinates] (the code passes nodes where coordinates are expected). *)
Record GraphNode : Type := {
  id : string;
  coords : Coordinates;
  neighbors : list GraphEdge
}.

(** [Map<string, GraphNode>]: the entries in insertion order, which is the
    order [forEach] visits them in. *)
Definition Graph : Type := list GraphNode.

Definition graph_get (g : Graph) (k : string) : option GraphNode :=
  find (fun n => String.eqb (id n) k) g.

Definition graph_has (g : Graph) (k : string) : bool :=
  existsb (fun n => String.eqb (id n) k) g.

(** [graph.set(k, v)]: replaces in place when the key exists, else appends. *)
Definition graph_set (g : Graph) (v : GraphNode) : Graph :=
  if graph_has g (id v)
  then map (fun n => if String.eqb (id n) (id v) then v else n) g
  else g ++ [v].

(** [graph.get(k).neighbors.push(e)]. *)
Definition push_neighbor (g : Graph) (k : string) (e : GraphEdge) : Graph :=
  map (fun n =>
         if String.eqb (id n) k
         then {| id := id n; coords := coords n; neighbors := neighbors n ++ [e] |}
         else n) g.

Definition RAW_NODES : list (string * Q * Q) :=
  [ ("n1", 26.9124, 75.7873); ("n2", 26.9124, 75.7923); ("n3", 26.9124, 75.7823);
    ("n4", 26.9169, 75.7873); ("n5", 26.9169, 75.7923); ("n6", 26.9169, 75.7823);
    ("n7", 26.9079, 75.7873); ("n8", 26.9079, 75.7923); ("n9", 26.9079, 75.7823);
    ("n10", 26.9124, 75.7973); ("n11", 26.9169, 75.7973); ("n12", 26.9079, 75.7973);
    ("n13", 26.9124, 75.7773); ("n14", 26.9169, 75.7773); ("n15", 26.9079, 75.7773);
    ("n16", 26.9200, 75.7900); ("n17", 26.9050, 75.7850) ]%Q.

(** The [addEdge] calls of the module, in source order; an omitted
    [surface] is ['paved'], an omitted [isHilly] is [false]. *)
Definition EDGES : list (string * string * Surface * bool) :=
  [ ("n3", "n1", paved, false); ("n1", "n2", paved, false); ("n2", "n10", paved, false);
    ("n13", "n3", unpaved, true);
    ("n6", "n4", paved, false); ("n4", "n5", paved, false); ("n5", "n11", paved, false);
    ("n14", "n6", unpaved, false);
    ("n9", "n7", unpaved, false); ("n7", "n8", paved, false); ("n8", "n12", unpaved, true);
    ("n15", "n9", unpaved, true);
    ("n6", "n3", paved, false); ("n3", "n9", unpaved, false); ("n9", "n15", unpaved, false);
    ("n4", "n1", paved, false); ("n1", "n7", paved, false); ("n7", "n17", unpaved, false);
    ("n5", "n2", paved, false); ("n2", "n8", paved, false);
    ("n11", "n10", unpaved, false); ("n10", "n12", unpaved, false);
    ("n14", "n13", unpaved, false); ("n13", "n15", unpaved, false);
    ("n4", "n16", unpaved, true);
    ("n16", "n5", unpaved, false) ].

(** [Array.prototype.sort(cmp)]: stable; [a] moves behind [b] only when
    [cmp a b > 0] (a [NaN] from the comparator counts as [0]). *)
Fixpoint sort_insert {A} (cmp : A -> A -> number) (x : A) (l : list A) : list A :=
  match l with
  | [] => [x]
  | y :: l' => if (cmp x y >? Fin 0)%js then y :: sort_insert cmp x l' else x :: l
  end.

Definition sortBy {A} (cmp : A -> A -> number) (l : list A) : list A :=
  foldr (sort_insert cmp) [] l.

Definition includes (l : list string) (k : string) : bool :=
  existsb (String.eqb k) l.

Section Engine.

Variable M : MathLib.

Local Open Scope js_scope.

(** Helper to add a bi-directional edge with attributes. *)
Definition addEdge (g : Graph) (id1 id2 : string) (surface : Surface) (isHilly : bool) : Graph :=
  match graph_get g id1, graph_get g id2 with
  | Some n1, Some n2 =>
      let dist := calculateDistance M (coords n1) (coords n2) in
      let g1 := push_neighbor g id1
                  {| nodeId := id2; weight := dist; surface := surface; isHilly := isHilly |} in
      push_neighbor g1 id2
        {| nodeId := id1; weight := dist; surface := surface; isHilly := isHilly |}
  | _, _ => g
  end.

(** The module-level [graph] after initialisation. *)
Definition localGraph : Graph :=
  let populated :=
    foldl (fun g '(k, la, ln) =>
             graph_set g {| id := k; coords := {| lat := Fin la; lng := Fin ln |};
                            neighbors := [] |})
          [] RAW_NODES in
  foldl (fun g '(id1, id2, sf, hilly) => addEdge g id1 id2 sf hilly) populated EDGES.

(** The algorithms read the graph only; they are stated for any graph. *)
Variable graph : Graph.

(** Finds the nearest node in the graph to a specific geolocation. *)
Definition findNearestNode (target : Coordinates) : option GraphNode :=
  fst (foldl (fun '(closest, minDist) node =>
                let dist := calculateDistance M target (coords node) in
                if dist <? minDist then (Some node, dist) else (closest, minDist))
             (None, Infinity) graph).

(** The preference-adjusted cost of one edge (the penalties of the
    relaxation step). *)
Definition adjustedCost (options : option RoutingOptions) (neighbor : GraphEdge) : number :=
  let edgeCost := weight neighbor in
  let edgeCost :=
    if from_option preferPaved false options && Surface_eqb (surface neighbor) unpaved
    then edgeCost * Fin 3 else edgeCost in
  let edgeCost :=
    if from_option avoidHills false options && isHilly neighbor
    then edgeCost * Fin 5 else edgeCost in
  let edgeCost :=
    if from_option (fun o => negb (allowHighways o)) false options
       && Surface_eqb (surface neighbor) paved
    then edgeCost * Fin 2 else edgeCost in
  edgeCost.

Record SearchState : Type := {
  openSet : list string;
  cameFrom : gmap string string;
  gScore : gmap string number;
  fScore : gmap string number
}.

(** [reconstructPath]: walks the back-pointers from [currentId]. *)
Fixpoint reconstructLoop (fuel : nat) (cameFrom : gmap string string)
    (curr : option string) (path : list Coordinates) : outcome (list Coordinates) :=
  match curr with
  | None => Done path
  | Some c =>
      if String.eqb c "" then Done path
      else match fuel with
           | O => OutOfFuel
           | S fuel' =>
               let! node := defined (graph_get graph c) in
               reconstructLoop fuel' cameFrom (cameFrom !! c)
                 ({| lat := lat (coords node); lng := lng (coords node) |} :: path)
           end
  end.

Definition reconstructPath (fuel : nat) (cameFrom : gmap string string)
    (currentId : string) (originalStart originalEnd : Coordinates)
    : outcome (list Coordinates) :=
  let! path := reconstructLoop fuel cameFrom (Some currentId) [] in
  Done (originalStart :: path ++ [originalEnd]).

(** One pass of the [for (const neighbor of current.neighbors)] body. *)
Definition relax (options : option RoutingOptions) (endNode : GraphNode)
    (currentId : string) (st : SearchState) (neighbor : GraphEdge) : outcome SearchState :=
  let edgeCost := adjustedCost options neighbor in
  let tentativeG := (gScore st !! currentId ||| Infinity) + edgeCost in
  if tentativeG <? (gScore st !! nodeId neighbor ||| Infinity) then
    let cameFrom' := <[nodeId neighbor := currentId]> (cameFrom st) in
    let gScore' := <[nodeId neighbor := tentativeG]> (gScore st) in
    let! neighborNode := defined (graph_get graph (nodeId neighbor)) in
    let fScore' :=
      <[nodeId neighbor :=
          tentativeG + calculateDistance M (coords neighborNode) (coords endNode)]>
        (fScore st) in
    let openSet' :=
      if includes (openSet st) (nodeId neighbor) then openSet st
      else openSet st ++ [nodeId neighbor] in
    Done {| openSet := openSet'; cameFrom := cameFrom';
            gScore := gScore'; fScore := fScore' |}
  else Done st.

Fixpoint relaxAll (options : option RoutingOptions) (endNode : GraphNode)
    (currentId : string) (st : SearchState) (ns : list GraphEdge) : outcome SearchState :=
  match ns with
  | [] => Done st
  | neighbor :: ns' =>
      let! st' := relax options endNode currentId st neighbor in
      relaxAll options endNode currentId st' ns'
  end.

(** The [while (openSet.length > 0)] loop; [fuel] bounds its iterations and
    the steps of [reconstructPath]. *)
Fixpoint searchLoop (fuel : nat) (options : option RoutingOptions)
    (start end_ : Coordinates) (endNode : GraphNode) (st : SearchState)
    : outcome (list Coordinates) :=
  match openSet st with
  | [] => Done [start; end_]
  | _ :: _ =>
      match fuel with
      | O => OutOfFuel
      | S fuel' =>
          let sorted :=
            sortBy (fun a b => (fScore st !! a ||| Infinity) - (fScore st !! b ||| Infinity))
                   (openSet st) in
          let! currentId := defined (head sorted) in
          let st := {| openSet := tail sorted; cameFrom := cameFrom st;
                       gScore := gScore st; fScore := fScore st |} in
          if String.eqb currentId (id endNode)
          then reconstructPath fuel' (cameFrom st) currentId start end_
          else
            let! current := defined (graph_get graph currentId) in
            let! st' := relaxAll options endNode currentId st (neighbors current) in
            searchLoop fuel' options start end_ endNode st'
      end
  end.

(** A* pathfinding with preferences. *)
Definition calculateOfflineRoute (fuel : nat)
    (start end_ : Coordinates) (options : option RoutingOptions)
    : outcome (list Coordinates) :=
  match findNearestNode start, findNearestNode end_ with
  | Some startNode, Some endNode =>
      if String.eqb (id startNode) (id endNode) then Done [start; end_]
      else
        let openSet := [id startNode] in
        let cameFrom : gmap string string := ∅ in
        let gScore : gmap string number :=
          foldl (fun m n => <[id n := Infinity]> m) ∅ graph in
        let gScore := <[id startNode := Fin 0]> gScore in
        let fScore : gmap string number :=
          foldl (fun m n => <[id n := Infinity]> m) ∅ graph in
        let fScore :=
          <[id startNode := calculateDistance M (coords startNode) (coords endNode)]> fScore in
        searchLoop fuel options start end_ endNode
          {| openSet := openSet; cameFrom := cameFrom; gScore := gScore; fScore := fScore |}
  | _, _ => Done [start; end_]
  end.

End Engine.

(** [BackPointerPath graph cameFrom c nodes]: [nodes] are the graph nodes
    met when the back-pointers are followed from [c] to a node without one,
    listed from that node to [c]. *)
Inductive BackPointerPath (graph : Graph) (cameFrom : gmap string string)
    : string -> list GraphNode -> Prop :=
  | bpp_root c node :
      c <> "" ->
      graph_get graph c = Some node ->
      cameFrom !! c = None ->
      BackPointerPath graph cameFrom c [node]
  | bpp_step c prev node nodes :
      c <> "" ->
      graph_get graph c = Some node ->
      cameFrom !! c = Some prev ->
      BackPointerPath graph cameFrom prev nodes ->
      BackPointerPath graph cameFrom c (nodes ++ [node]).

(** The multiplier the specification assigns to an edge. *)
Definition penalty (options : option RoutingOptions) (e : GraphEdge) : Q :=
  (if from_option preferPaved false options && Surface_eqb (surface e) unpaved then 3 else 1)
  * (if from_option avoidHills false options && isHilly e then 5 else 1)
  * (if from_option (fun o => negb (allowHighways o)) false options
        && Surface_eqb (surface e) paved then 2 else 1).

(* ===================================================================== *)
(** ** services/routingService.ts (offline fallback) *)
(* ===================================================================== *)

Section Chaining.

(** The pathfinder called for each segment. *)
Variable pathfinder :
  Coordinates -> Coordinates -> option RoutingOptions -> outcome (list Coordinates).

(** [for (let i = 0; i < allPoints.length - 1; i++)]: [n] iterations are
    left, the next one has index [i]. *)
Fixpoint chainLoop (allPoints : list Coordinates) (options : option RoutingOptions)
    (n i : nat) (fullRoute : list Coordinates) : outcome (list Coordinates) :=
  match n with
  | O => Done fullRoute
  | S n' =>
      let! segmentStart := defined (allPoints !! i) in
      let! segmentEnd := defined (allPoints !! (i + 1)%nat) in
      let! segmentRoute := pathfinder segmentStart segmentEnd options in
      (* avoid duplicating the connection point *)
      let fullRoute :=
        if (0 <? i)%nat then fullRoute ++ drop 1 segmentRoute
        else fullRoute ++ segmentRoute in
      chainLoop allPoints options n' (S i) fullRoute
  end.

Definition chainSegments (start end_ : Coordinates) (waypoints : list Coordinates)
    (options : option RoutingOptions) : outcome (list Coordinates) :=
  let allPoints := start :: waypoints ++ [end_] in
  chainLoop allPoints options (length allPoints - 1) 0 [].

End Chaining.

(** Helper to chain offline routing requests for multiple segments. *)
Definition calculateOfflineRouteWithWaypoints (M : MathLib) (graph : Graph) (fuel : nat)
    (start end_ : Coordinates) (waypoints : list Coordinates)
    (options : option RoutingOptions) : outcome (list Coordinates) :=
  chainSegments (calculateOfflineRoute M graph fuel) start end_ waypoints options.

(** The consecutive pairs of a list of points. *)
Fixpoint legs (points : list Coordinates) : list (Coordinates * Coordinates) :=
  match points with
  | a :: ((b :: _) as rest) => (a, b) :: legs rest
  | _ => []
  end.

(** The concatenation the fallback performs on the per-segment routes: the
    first one whole, every later one without its first point. *)
Definition joinSegments (segs : list (list Coordinates)) : list Coordinates :=
  concat (take 1 segs) ++ concat (map (drop 1) (drop 1 segs)).

(* ===================================================================== *)
(** ** constants.ts *)
(* ===================================================================== *)

Definition WALKING_SPEED_MPS : number := Fin 1.4.
Definition BIKE_SPEED_MPS : number := Fin 5.5.
Definition CAR_SPEED_MPS : number := Fin 11.1.

Record SensorReadings : Type := {
  alpha : option number;      (* compass heading, or null *)
  beta : option number;
  gamma : option number;
  accX : option number;
  accY : option number;
  accZ : option number
}.

Record SensorCalibration : Type := {
  alphaOffset : number;
  accXOffset : number;
  accYOffset : number;
  accZOffset : number
}.

(* ===================================================================== *)
(** ** App.tsx: the navigation loop *)
(* ===================================================================== *)

(** What a tick of [animate] reads and writes.  [nextRoutePointIndexRef] is
    the ref the loop advances; [nextRoutePointIndex] is its copy in React
    state, read by the maneuver detection.  [lastTimeRef] is [None] before
    the first frame. *)
Record NavState : Type := {
  currentLocation : Coordinates;
  currentSpeed : number;
  routeCoordinates : list Coordinates;
  nextRoutePointIndexRef : nat;
  nextRoutePointIndex : nat;
  gpsActive : bool;
  isSimulatingMove : bool;
  mode : TransportMode;
  navState : NavigationMode;
  sensors : SensorReadings;
  calibration : SensorCalibration;
  lastTimeRef : option number
}.

Definition NavigationMode_eqb (a b : NavigationMode) : bool :=
  match a, b with
  | IDLE, IDLE | NAVIGATING, NAVIGATING | OFFLINE_CACHING, OFFLINE_CACHING => true
  | _, _ => false
  end.

(** [while (x < -180) x += 360; while (x > 180) x -= 360]. *)
Fixpoint wrapUp (fuel : nat) (x : number) : outcome number :=
  if (x <? Fin (-180))%js then
    match fuel with
    | O => OutOfFuel
    | S fuel' => wrapUp fuel' (x + Fin 360)%js
    end
  else Done x.

Fixpoint wrapDown (fuel : nat) (x : number) : outcome number :=
  if (x >? Fin 180)%js then
    match fuel with
    | O => OutOfFuel
    | S fuel' => wrapDown fuel' (x - Fin 360)%js
    end
  else Done x.

Definition normalizeAngle (fuel : nat) (x : number) : outcome number :=
  let! y := wrapUp fuel x in wrapDown fuel y.

(** The heading of a tick before steering: the calibrated compass reading,
    wrapped. *)
Definition sensorHeading (s : SensorReadings) (c : SensorCalibration) : number :=
  let calculatedHeading := ((alpha s ||| Fin 0) + alphaOffset c)%js in
  ((calculatedHeading + Fin 360) %% Fin 360)%js.

Definition maxTurnRate (currentSpeed : number) : number :=
  JS.max (Fin 35) (Fin 120 - currentSpeed * Fin 2.5)%js.

(** Heading / steering: limit the turn rate based on speed. *)
Definition steerHeading
    (calculatedHeading bearingToSteer headingError currentSpeed deltaTime : number)
    : number :=
  let turnStep := (maxTurnRate currentSpeed * deltaTime)%js in
  let calculatedHeading :=
    if (JS.abs headingError <=? turnStep)%js then bearingToSteer
    else (calculatedHeading + JS.sign headingError * turnStep)%js in
  ((calculatedHeading + Fin 360) %% Fin 360)%js.

(** Determine waypoint progress: the next value of the index ref. *)
Definition advanceIndex (distToNext currentSpeed : number) (len idx : nat) : nat :=
  if (distToNext <? JS.max (Fin 5) currentSpeed)%js then
    if (idx <? len - 1)%nat then (idx + 1)%nat else idx
  else idx.

Definition baseMaxSpeedOf (m : TransportMode) : number :=
  match m with
  | WALK => WALKING_SPEED_MPS
  | BIKE => BIKE_SPEED_MPS
  | CAR => CAR_SPEED_MPS
  end.

(** The index of the route point a tick steers for: the index ref, clamped
    to the last point (of a route that has one). *)
Definition targetIndex (st : NavState) : nat :=
  let targetIdx := nextRoutePointIndexRef st in
  if (length (routeCoordinates st) <=? targetIdx)%nat
  then (length (routeCoordinates st) - 1)%nat
  else targetIdx.

Section Loop.

Variable M : MathLib.

Local Open Scope js_scope.

Definition interpolate (p1 p2 : Coordinates) (ratio : number) : Coordinates :=
  {| lat := lat p1 + (lat p2 - lat p1) * ratio;
     lng := lng p1 + (lng p2 - lng p1) * ratio |}.

(** Subsequent segments of [getPointAtDist]: [n] bounds the iterations
    that are left ([routeCoordinates.length - 1 - i]). *)
Fixpoint pointAlong (route : list Coordinates) (n i : nat) (remaining : number)
    : outcome Coordinates :=
  match n with
  | O => defined (route !! (length route - 1)%nat)
  | S n' =>
      let! p1 := defined (route !! i) in
      let! p2 := defined (route !! (i + 1)%nat) in
      let segLen := calculateDistance M p1 p2 in
      if remaining <=? segLen then Done (interpolate p1 p2 (remaining / segLen))
      else pointAlong route n' (i + 1)%nat (remaining - segLen)
  end.

(** Helper to find the point [dist] meters along the path from the current
    position. *)
Definition getPointAtDist (currentLocation : Coordinates) (route : list Coordinates)
    (nextIdx : nat) (dist : number) : outcome Coordinates :=
  let remaining := dist in
  let p1 := currentLocation in
  let! p2 := defined (route !! nextIdx) in
  let segLen := calculateDistance M p1 p2 in
  if remaining <=? segLen then Done (interpolate p1 p2 (remaining / segLen))
  else pointAlong route (length route - 1 - nextIdx) nextIdx (remaining - segLen).

(** What the route-following branch computes in one tick. *)
Record FollowResult : Type := {
  fr_index : nat;                 (* nextRoutePointIndexRef.current *)
  fr_bearingToSteer : number;
  fr_headingError : number;
  fr_speed : number;              (* calculatedSpeed *)
  fr_heading : number;            (* calculatedHeading *)
  fr_location : Coordinates
}.

(** Simulation logic: follow road. *)
Definition followRoad (fuel : nat) (st : NavState) (deltaTime calculatedHeading : number)
    : outcome FollowResult :=
  let route := routeCoordinates st in
  let targetIdx := targetIndex st in
  let steerDist := JS.max (Fin 10) (currentSpeed st * Fin 1.5) in
  let brakeDist := JS.max (Fin 40) (currentSpeed st * Fin 4.0) in
  let! target := defined (route !! targetIdx) in
  let distToNext := calculateDistance M (currentLocation st) target in
  let index' :=
    advanceIndex distToNext (currentSpeed st) (length route) (nextRoutePointIndexRef st) in
  let! steerTarget := getPointAtDist (currentLocation st) route targetIdx steerDist in
  let! brakeTarget := getPointAtDist (currentLocation st) route targetIdx brakeDist in
  let bearingToSteer := calculateBearing M (currentLocation st) steerTarget in
  let bearingToBrake := calculateBearing M (currentLocation st) brakeTarget in
  let curveAngle := JS.abs (bearingToSteer - bearingToBrake) in
  let curveAngle := if curveAngle >? Fin 180 then Fin 360 - curveAngle else curveAngle in
  let! headingError := normalizeAngle fuel (bearingToSteer - calculatedHeading) in
  let baseMaxSpeed := baseMaxSpeedOf (mode st) in
  let curvatureSeverity := curveAngle * Fin 1.8 + JS.abs headingError * Fin 0.5 in
  let speedFactor := JS.max (Fin 0.3) (Fin 1.0 - curvatureSeverity / Fin 70) in
  let targetSpeed := baseMaxSpeed * speedFactor in
  let calculatedSpeed :=
    if currentSpeed st <? targetSpeed then currentSpeed st + Fin 2.5 * deltaTime
    else currentSpeed st - Fin 5.0 * deltaTime in
  let calculatedSpeed := JS.max (Fin 0.5) (JS.min calculatedSpeed baseMaxSpeed) in
  let calculatedHeading :=
    steerHeading calculatedHeading bearingToSteer headingError (currentSpeed st) deltaTime in
  let moveDist := calculatedSpeed * deltaTime in
  Done {| fr_index := index';
          fr_bearingToSteer := bearingToSteer;
          fr_headingError := headingError;
          fr_speed := calculatedSpeed;
          fr_heading := calculatedHeading;
          fr_location := calculateNewPosition M (currentLocation st) moveDist calculatedHeading |}.

(** Dead reckoning / free movement: the speed of the tick. *)
Definition freeSpeed (st : NavState) : number :=
  if isSimulatingMove st then baseMaxSpeedOf (mode st)
  else if negb (gpsActive st) then
    let accX := (accX (sensors st) ||| Fin 0) - accXOffset (calibration st) in
    let accY := (accY (sensors st) ||| Fin 0) - accYOffset (calibration st) in
    let accMagnitude := Math_sqrt M (accX * accX + accY * accY) in
    if accMagnitude >? Fin 1.2
    then JS.min (WALKING_SPEED_MPS * Fin 1.5) (accMagnitude * Fin 0.5)
    else Fin 0
  else Fin 0.

(** The state after a frame: [setCurrentLocation], the throttled
    [setCurrentSpeed], the index ref (copied to React state when it moved)
    and [lastTimeRef]. *)
Definition withMotion (st : NavState) (time : number) (index : nat)
    (location : Coordinates) (calculatedSpeed : number) : NavState :=
  {| currentLocation := location;
     currentSpeed :=
       if JS.abs (currentSpeed st - calculatedSpeed) >? Fin 0.1
       then calculatedSpeed else currentSpeed st;
     routeCoordinates := routeCoordinates st;
     nextRoutePointIndexRef := index;
     nextRoutePointIndex :=
       if (nextRoutePointIndexRef st <? index)%nat then index
       else nextRoutePointIndex st;
     gpsActive := gpsActive st;
     isSimulatingMove := isSimulatingMove st;
     mode := mode st;
     navState := navState st;
     sensors := sensors st;
     calibration := calibration st;
     lastTimeRef := Some time |}.

Definition withLastTime (st : NavState) (time : number) : NavState :=
  {| currentLocation := currentLocation st;
     currentSpeed := currentSpeed st;
     routeCoordinates := routeCoordinates st;
     nextRoutePointIndexRef := nextRoutePointIndexRef st;
     nextRoutePointIndex := nextRoutePointIndex st;
     gpsActive := gpsActive st;
     isSimulatingMove := isSimulatingMove st;
     mode := mode st;
     navState := navState st;
     sensors := sensors st;
     calibration := calibration st;
     lastTimeRef := Some time |}.

(** One frame of the navigation and dead-reckoning loop.  The signal and
    altitude noise and the track recording do not touch the state kept
    here; a state update is taken to be visible to the next frame. *)
Definition animate (fuel : nat) (st : NavState) (time : number) : outcome NavState :=
  match lastTimeRef st with
  | None => Done (withLastTime st time)
  | Some last =>
      let deltaTime := (time - last) / Fin 1000 in
      let calculatedHeading := sensorHeading (sensors st) (calibration st) in
      if isSimulatingMove st && NavigationMode_eqb (navState st) NAVIGATING
         && (1 <? length (routeCoordinates st))%nat
      then
        let! r := followRoad fuel st deltaTime calculatedHeading in
        Done (withMotion st time (fr_index r) (fr_location r) (fr_speed r))
      else if negb (gpsActive st) || (gpsActive st && isSimulatingMove st) then
        let calculatedSpeed := freeSpeed st in
        let location :=
          if calculatedSpeed >? Fin 0
          then calculateNewPosition M (currentLocation st)
                 (calculatedSpeed * deltaTime) calculatedHeading
          else currentLocation st in
        Done (withMotion st time (nextRoutePointIndexRef st) location calculatedSpeed)
      else
        Done (withMotion st time (nextRoutePointIndexRef st) (currentLocation st) (Fin 0))
  end.

(** Reset of the navigation state when the route changes. *)
Definition installRoute (st : NavState) (route : list Coordinates) : NavState :=
  {| currentLocation := currentLocation st;
     currentSpeed := currentSpeed st;
     routeCoordinates := route;
     nextRoutePointIndexRef := 1;
     nextRoutePointIndex := 1;
     gpsActive := gpsActive st;
     isSimulatingMove := isSimulatingMove st;
     mode := mode st;
     navState := navState st;
     sensors := sensors st;
     calibration := calibration st;
     lastTimeRef := lastTimeRef st |}.

End Loop.

(** *** Maneuver detection *)

Record Maneuver : Type := {
  m_type : string;
  m_distance : number;
  m_text : string
}.

(** Scan 1.5 km ahead. *)
Definition MAX_LOOKAHEAD : number := Fin 1500.

Definition classifyTurn (diff : number) : string * string :=
  if (JS.abs diff >? Fin 100)%js then
    (if (diff <? Fin 0)%js then ("sharp-left", "Sharp left turn")
     else ("sharp-right", "Sharp right turn"))
  else if (JS.abs diff >? Fin 45)%js then
    (if (diff <? Fin 0)%js then ("left", "Turn left") else ("right", "Turn right"))
  else
    (if (diff <? Fin 0)%js then ("slight-left", "Keep left")
     else ("slight-right", "Keep right")).

(** What the look-ahead loop leaves behind: the locals it assigns, and the
    values [i] took (the loop reads [routeCoordinates] at [i], [i+1] and
    [i+2] for each of them). *)
Record ScanResult : Type := {
  sr_maneuverFound : bool;
  sr_mType : string;
  sr_mText : string;
  sr_distToTurn : number;
  sr_lookAheadDist : number;
  sr_visited : list nat
}.

Section Maneuvers.

Variable M : MathLib.

Local Open Scope js_scope.

(** [for (let i = idx; i < Math.min(length - 2, idx + 30); i++)]: [n]
    iterations are left, the next one has index [i]. *)
Fixpoint scanLoop (fuel : nat) (route : list Coordinates) (n i : nat)
    (distToTurn lookAheadDist : number) (visited : list nat) : outcome ScanResult :=
  let notFound :=
    {| sr_maneuverFound := false; sr_mType := "straight"; sr_mText := "Continue straight";
       sr_distToTurn := distToTurn; sr_lookAheadDist := lookAheadDist;
       sr_visited := visited |} in
  match n with
  | O => Done notFound
  | S n' =>
      if lookAheadDist >? MAX_LOOKAHEAD then Done notFound
      else
        let visited := visited ++ [i] in
        let! pCurrent := defined (route !! i) in
        let! pNext := defined (route !! (i + 1)%nat) in
        let! pAfter := defined (route !! (i + 2)%nat) in
        let segDist := calculateDistance M pCurrent pNext in
        let b1 := calculateBearing M pCurrent pNext in
        let b2 := calculateBearing M pNext pAfter in
        let! diff := normalizeAngle fuel (b2 - b1) in
        if JS.abs diff >? Fin 30 then
          let '(mType, mText) := classifyTurn diff in
          Done {| sr_maneuverFound := true; sr_mType := mType; sr_mText := mText;
                  sr_distToTurn := distToTurn + lookAheadDist;
                  sr_lookAheadDist := lookAheadDist;
                  sr_visited := visited |}
        else scanLoop fuel route n' (i + 1)%nat distToTurn (lookAheadDist + segDist) visited
  end.

(** The look-ahead of the maneuver detection, entered once the effect has
    ruled out "not navigating", a route of at most one point, and arrival. *)
Definition scanAhead (fuel : nat) (currentLocation : Coordinates)
    (route : list Coordinates) (idx : nat) : outcome ScanResult :=
  let! first := defined (route !! idx) in
  let distToTurn := calculateDistance M currentLocation first in
  scanLoop fuel route (Nat.min (length route - 2) (idx + 30) - idx) idx
           distToTurn (Fin 0) [].

(** The maneuver detection effect: the new value of [nextManeuver] and the
    indices the scan visited. *)
Definition detectManeuver (fuel : nat) (st : NavState)
    (targetLocation : option Coordinates) (nextManeuver : option Maneuver)
    : outcome (option Maneuver * list nat) :=
  let route := routeCoordinates st in
  if negb (NavigationMode_eqb (navState st) NAVIGATING) || (length route <=? 1)%nat then
    Done (if negb (NavigationMode_eqb (navState st) NAVIGATING) then None else nextManeuver,
          [])
  else
    let idx := nextRoutePointIndex st in
    let distToEnd :=
      match targetLocation with
      | Some t => calculateDistance M (currentLocation st) t
      | None => Fin 0
      end in
    if (length route - 1 <=? idx)%nat || (distToEnd <? Fin 20) then
      Done (Some {| m_type := "arrive"; m_distance := distToEnd;
                    m_text := "Arriving at destination" |}, [])
    else
      let! r := scanAhead fuel (currentLocation st) route idx in
      let distToTurn :=
        if sr_maneuverFound r then sr_distToTurn r
        else if sr_lookAheadDist r >? Fin 0 then sr_lookAheadDist r else distToEnd in
      Done (Some {| m_type := sr_mType r; m_distance := distToTurn; m_text := sr_mText r |},
            sr_visited r).

End Maneuvers.

(** A run of frames at the given times. *)
Fixpoint frames (M : MathLib) (fuel : nat) (st : NavState) (times : list number)
    : outcome NavState :=
  match times with
  | [] => Done st
  | time :: times' =>
      let! st' := animate M fuel st time in
      frames M fuel st' times'
  end.

(* ===================================================================== *)
(** ** components/MapView.tsx: rotation of the user marker *)
(* ===================================================================== *)

(** Smart rotation wrapping (shortest path): the next value of
    [visualHeadingRef.current], the accumulated rotation of the marker,
    given the heading prop. *)
Definition updateVisualHeading (visualHeading heading : number) : number :=
  let diff := (heading - (visualHeading %% Fin 360))%js in
  let diff := if (diff >? Fin 180)%js then (diff - Fin 360)%js else diff in
  let diff := if (diff <? Fin (-180))%js then (diff + Fin 360)%js else diff in
  (visualHeading + diff)%js.

(* ===================================================================== *)
(** ** More of [Math] *)
(* ===================================================================== *)

(** [Math.floor] and [Math.ceil]. *)
Definition Math_floor (x : number) : number :=
  match x with
  | Fin q => Fin (inject_Z (Qfloor q))
  | _ => x
  end.

Definition Math_ceil (x : number) : number :=
  match x with
  | Fin q => Fin (inject_Z (Qceiling q))
  | _ => x
  end.

(* ===================================================================== *)
(** ** services/navigationService.ts: simulated signal strength *)
(* ===================================================================== *)

(** Random walk of the signal strength; [coin] is the outcome of
    [Math.random() > 0.5]. *)
Definition getSimulatedSignalStrength (coin : bool) (current : number) : number :=
  let change := if coin then Fin 1 else Fin (-1) in
  let next := (current + change)%js in
  JS.max (Fin 0) (JS.min (Fin 4) next).

(* ===================================================================== *)
(** ** services/routingService.ts: [getRoute] *)
(* ===================================================================== *)

(** The request sent to the OSRM API: the profile and the points of the
    URL [/route/v1/<profile>/<lng,lat;...>?overview=full&geometries=geojson]. *)
Record OsrmRequest : Type := {
  profile : string;
  points : list Coordinates
}.

(** What comes back: [Rejected] when [fetch] or [response.json()] throws,
    or the reading of the geometry does; otherwise [response.ok] and
    [data.routes] ([None] when absent), each route given by the [lng, lat]
    pairs of [geometry.coordinates]. *)
Inductive OsrmReply : Type :=
  | Rejected
  | Replied (ok : bool) (routes : option (list (list (number * number)))).

Section GetRoute.

Variable M : MathLib.
Variable graph : Graph.
Variable fuel : nat.

(** [navigator.onLine] and the network. *)
Variable onLine : bool.
Variable fetch : OsrmRequest -> OsrmReply.

(** Calculates a route between two points, optionally visiting waypoints
    in order. *)
Definition getRoute (start end_ : Coordinates) (mode : TransportMode)
    (options : option RoutingOptions) (waypoints : list Coordinates)
    : outcome (list Coordinates) :=
  if negb onLine then
    calculateOfflineRouteWithWaypoints M graph fuel start end_ waypoints options
  else
    let profile := "driving" in
    let profile := match mode with WALK => "foot" | _ => profile end in
    let profile := match mode with BIKE => "bike" | _ => profile end in
    let points := start :: waypoints ++ [end_] in
    match fetch {| profile := profile; points := points |} with
    | Replied true (Some (route :: _)) =>
        Done (map (fun coord : number * number => {| lat := coord.2; lng := coord.1 |}) route)
    | _ =>
        (* robust offline fallback *)
        calculateOfflineRouteWithWaypoints M graph fuel start end_ waypoints options
    end.

End GetRoute.

(* ===================================================================== *)
(** ** services/offlineMapService.ts *)
(* ===================================================================== *)

Definition TILE_LAYER_URL : string := "https://{s}.tile.openstreetmap.org/{z}/{x}/{y}.png".
Definition MAX_TILES_PER_DOWNLOAD : nat := 500.

Record MapBounds : Type := {
  north : number;
  south : number;
  east : number;
  west : number;
  zoom : number
}.

(** The fields [x], [y], [z] and [url] of a tile. *)
Record TileInfo : Type := {
  tile_x : number;
  tile_y : number;
  tile_z : number;
  tile_url : string
}.

(** [s.replace(pattern, replacement)] for a string pattern: the first
    occurrence is replaced (the replacements the code passes hold no [$]
    pattern). *)
Fixpoint String_replace (pattern replacement s : string) : string :=
  if String.prefix pattern s
  then (replacement
        ++ String.substring (String.length pattern)
             (String.length s - String.length pattern) s)%string
  else match s with
       | EmptyString => EmptyString
       | String c s' => String c (String_replace pattern replacement s')
       end.

(** [['a', 'b', 'c'][k]], as a string in a replacement. *)
Definition subdomain (k : number) : string :=
  match k with
  | Fin q =>
      if Qeq_bool q 0 then "a"
      else if Qeq_bool q 1 then "b"
      else if Qeq_bool q 2 then "c"
      else "undefined"
  | _ => "undefined"
  end.

(** [for (let v = first; v <= last; v++) body]: the body threads a state;
    [fuel] bounds the iterations. *)
Fixpoint forRange {State : Type} (fuel : nat) (v last : number)
    (body : number -> State -> outcome State) (s : State) : outcome State :=
  if (v <=? last)%js then
    match fuel with
    | O => OutOfFuel
    | S fuel' =>
        let! s' := body v s in
        forRange fuel' (v + Fin 1)%js last body s'
    end
  else Done s.

Section Tiles.

Variable M : MathLib.

(** [Math.pow], [Math.log], [Math.tan] and the conversion of a number to a
    string. *)
Variable Math_pow : number -> number -> number.
Variable Math_log : number -> number.
Variable Math_tan : number -> number.
Variable Number_toString : number -> string.

Local Open Scope js_scope.

(** Helpers to convert Lat/Lon to tile coordinates.  (The sum, the quotient
    and the product are exact here and rounded in the code; the rounding is
    monotone, so it keeps the order of the columns, and it matters to
    [Math.floor] only within rounding of a column boundary.) *)
Definition long2tile (lon zoom : number) : number :=
  Math_floor ((lon + Fin 180) / Fin 360 * Math_pow (Fin 2) zoom).

Definition lat2tile (lat zoom : number) : number :=
  Math_floor
    ((Fin 1 - Math_log (Math_tan (lat * Math_PI / Fin 180)
                        + Fin 1 / Math_cos M (lat * Math_PI / Fin 180)) / Math_PI)
     / Fin 2 * Math_pow (Fin 2) zoom).

Definition tileAt (x y z : number) : TileInfo :=
  let s := subdomain ((x + y) %% Fin 3) in
  let url :=
    String_replace "{y}" (Number_toString y)
      (String_replace "{x}" (Number_toString x)
         (String_replace "{z}" (Number_toString z)
            (String_replace "{s}" s TILE_LAYER_URL))) in
  {| tile_x := x; tile_y := y; tile_z := z; tile_url := url |}.

Definition calculateTilesInBounds (fuel : nat) (bounds : MapBounds) (depth : number)
    : outcome (list TileInfo) :=
  forRange fuel (zoom bounds) (zoom bounds + depth)
    (fun z tiles =>
       let left := long2tile (west bounds) z in
       let right := long2tile (east bounds) z in
       let top := lat2tile (north bounds) z in
       let bottom := lat2tile (south bounds) z in
       forRange fuel left right
         (fun x tiles =>
            forRange fuel top bottom
              (fun y tiles => Done (tiles ++ [tileAt x y z]))
              tiles)
         tiles)
    [].

End Tiles.

(** What [fetch] does for a tile: it throws, or responds with
    [response.ok] false or true. *)
Inductive FetchResult : Type := FetchThrows | FetchNotOk | FetchOk.

Global Instance FetchResult_eq_dec : EqDecision FetchResult.
Proof. solve_decision. Defined.

(** [downloadTiles] either throws "Too many tiles", or completes with a
    cache and after a sequence of [onProgress(completed, total)] calls. *)
Inductive DownloadOutcome : Type :=
  | TooManyTiles (count : nat)
  | Downloaded (cache : gset string) (progress : list (nat * nat)).

Section Download.

Variable fetch : string -> FetchResult.

(** What one tile does to the state of a download: the cache (the URLs it
    holds), [completed], and the calls of [onProgress] so far.  The cache
    is taken to open; a rejected [cache.match] or [cache.put] is caught like
    a rejected [fetch]. *)
Definition cacheTile (total : nat) (st : gset string * nat * list (nat * nat))
    (tile : TileInfo) : gset string * nat * list (nat * nat) :=
  let '(cache, completed, progress) := st in
  let cache :=
    if decide (tile_url tile ∈ cache) then cache
    else match fetch (tile_url tile) with
         | FetchOk => cache ∪ {[ tile_url tile ]}
         | _ => cache          (* not ok, or caught *)
         end in
  let completed := S completed in
  (cache, completed, progress ++ [(completed, total)]).

(** [for (let i = 0; i < tiles.length; i += CHUNK_SIZE)]; [n] bounds the
    iterations.  The tiles of a chunk run under [Promise.all]; they are
    taken here in their order, each [finally] block running in one piece. *)
Fixpoint chunkLoop (n i : nat) (tiles : list TileInfo)
    (st : gset string * nat * list (nat * nat)) : gset string * nat * list (nat * nat) :=
  match n with
  | O => st
  | S n' =>
      if (i <? length tiles)%nat then
        let chunk := take 5 (drop i tiles) in
        chunkLoop n' (i + 5) tiles (foldl (cacheTile (length tiles)) st chunk)
      else st
  end.

Definition downloadTiles (tiles : list TileInfo) (cache : gset string) : DownloadOutcome :=
  if (MAX_TILES_PER_DOWNLOAD <? length tiles)%nat then TooManyTiles (length tiles)
  else
    let '(cache, _, progress) := chunkLoop (length tiles) 0 tiles (cache, 0%nat, []) in
    Downloaded cache progress.

End Download.

(* ===================================================================== *)
(** ** App.tsx: track recording *)
(* ===================================================================== *)

Record Recorder : Type := {
  isRecording : bool;
  recordedTrack : list Coordinates;
  lastRecordPos : option Coordinates
}.

(** The recorder of a fresh [App]. *)
Definition initialRecorder : Recorder :=
  {| isRecording := false; recordedTrack := []; lastRecordPos := None |}.

Definition handleToggleRecording (currentLocation : Coordinates) (r : Recorder) : Recorder :=
  if isRecording r then
    {| isRecording := false;
       recordedTrack := recordedTrack r;
       lastRecordPos := lastRecordPos r |}
  else
    (* start with the current point *)
    {| isRecording := true;
       recordedTrack := [currentLocation];
       lastRecordPos := Some currentLocation |}.

(** The track recording of a frame of [animate]: only add a point if moved
    significantly (more than 5 meters). *)
Definition recordTrack (M : MathLib) (currentLocation : Coordinates) (r : Recorder)
    : Recorder :=
  if isRecording r then
    let dist :=
      match lastRecordPos r with
      | Some p => calculateDistance M currentLocation p
      | None => Fin 100
      end in
    if (dist >? Fin 5)%js then
      {| isRecording := isRecording r;
         recordedTrack := recordedTrack r ++ [currentLocation];
         lastRecordPos := Some currentLocation |}
    else r
  else r.

(** What happens to the recorder: the record button is pressed, or a frame
    runs, each at the current location. *)
Inductive RecorderEvent : Type :=
  | TogglePressed (currentLocation : Coordinates)
  | FrameRun (currentLocation : Coordinates).

Definition recorderStep (M : MathLib) (r : Recorder) (ev : RecorderEvent) : Recorder :=
  match ev with
  | TogglePressed loc => handleToggleRecording loc r
  | FrameRun loc => recordTrack M loc r
  end.

(* ===================================================================== *)
(** ** App.tsx: estimated time of arrival *)
(* ===================================================================== *)

(** What [etaDetails] computes: the text of the duration, and the offset
    from [Date.now()] (in milliseconds) whose clock time is shown as the
    arrival time.  (The two divisions are exact here and rounded in the
    code; the rounding matters to [Math.ceil] when the minutes are a whole
    number, or within rounding of one.) *)
Record EtaDetails : Type := {
  durationText : string;
  arrivalOffset : number
}.

Section Eta.

(** The conversion of a number to a string in a template literal. *)
Variable Number_toString : number -> string.

Definition etaDetails (distToTarget currentSpeed : number) (mode : TransportMode)
    : EtaDetails :=
  let effectiveSpeed := currentSpeed in
  (* if stopped or very slow, use the default mode speed *)
  let effectiveSpeed :=
    if (effectiveSpeed <? Fin 0.5)%js then
      match mode with
      | WALK => WALKING_SPEED_MPS
      | BIKE => BIKE_SPEED_MPS
      | CAR => CAR_SPEED_MPS
      end
    else effectiveSpeed in
  let seconds := (distToTarget / effectiveSpeed)%js in
  let minutes := Math_ceil (seconds / Fin 60)%js in
  let hours := Math_floor (minutes / Fin 60)%js in
  let remainingMins := (minutes %% Fin 60)%js in
  let durationText := (Number_toString minutes ++ " min")%string in
  let durationText :=
    if (hours >? Fin 0)%js
    then (Number_toString hours ++ "h " ++ Number_toString remainingMins ++ "m")%string
    else durationText in
  {| durationText := durationText; arrivalOffset := (seconds * Fin 1000)%js |}.

End Eta.

(* ===================================================================== *)
(** ** Sensor calibration (App.tsx, components/SensorCalibrationModal.tsx) *)
(* ===================================================================== *)

(** [calibratedSensors] of [App.tsx]: the readings the map and the sensor
    panel are given. *)
Definition calibratedSensors (s : SensorReadings) (c : SensorCalibration) : SensorReadings :=
  {| alpha :=
       match alpha s with
       | Some a => Some (((a + alphaOffset c + Fin 360) %% Fin 360)%js)
       | None => None
       end;
     beta := beta s;
     gamma := gamma s;
     accX := match accX s with Some a => Some (a - accXOffset c)%js | None => None end;
     accY := match accY s with Some a => Some (a - accYOffset c)%js | None => None end;
     accZ := match accZ s with Some a => Some (a - accZOffset c)%js | None => None end |}.

(** The heading prop of [MapView]: [calibratedSensors.alpha || 0]. *)
Definition mapHeading (s : SensorReadings) (c : SensorCalibration) : number :=
  (alpha (calibratedSensors s c) ||| Fin 0)%js.

(** The preview of the calibration modal: the calibrated heading and
    accelerations for the offsets being edited. *)
Definition calAlpha (rawSensors : SensorReadings) (tempCal : SensorCalibration) : number :=
  let rawAlpha := (alpha rawSensors ||| Fin 0)%js in
  ((rawAlpha + alphaOffset tempCal + Fin 360) %% Fin 360)%js.

Definition calAccX (rawSensors : SensorReadings) (tempCal : SensorCalibration) : number :=
  ((accX rawSensors ||| Fin 0) - accXOffset tempCal)%js.
Definition calAccY (rawSensors : SensorReadings) (tempCal : SensorCalibration) : number :=
  ((accY rawSensors ||| Fin 0) - accYOffset tempCal)%js.
Definition calAccZ (rawSensors : SensorReadings) (tempCal : SensorCalibration) : number :=
  ((accZ rawSensors ||| Fin 0) - accZOffset tempCal)%js.

(** Set the current raw heading as North. *)
Definition handleSetNorth (rawSensors : SensorReadings) (prev : SensorCalibration)
    : SensorCalibration :=
  let rawAlpha := (alpha rawSensors ||| Fin 0)%js in
  {| alphaOffset := JS.neg rawAlpha;
     accXOffset := accXOffset prev;
     accYOffset := accYOffset prev;
     accZOffset := accZOffset prev |}.

(** Take the current accelerations as the bias of a device at rest. *)
Definition handleZeroAccel (rawSensors : SensorReadings) (prev : SensorCalibration)
    : SensorCalibration :=
  {| alphaOffset := alphaOffset prev;
     accXOffset := (accX rawSensors ||| Fin 0)%js;
     accYOffset := (accY rawSensors ||| Fin 0)%js;
     accZOffset := (accZ rawSensors ||| Fin 0)%js |}.

(** [onSave] of the calibration modal: [setCalibration(newCal)]. *)
Definition saveCalibration (st : NavState) (newCal : SensorCalibration) : NavState :=
  {| currentLocation := currentLocation st;
     currentSpeed := currentSpeed st;
     routeCoordinates := routeCoordinates st;
     nextRoutePointIndexRef := nextRoutePointIndexRef st;
     nextRoutePointIndex := nextRoutePointIndex st;
     gpsActive := gpsActive st;
     isSimulatingMove := isSimulatingMove st;
     mode := mode st;
     navState := navState st;
     sensors := sensors st;
     calibration := newCal;
     lastTimeRef := lastTimeRef st |}.

(* ===================================================================== *)
(** ** components/Speedometer.tsx: the needle *)
(* ===================================================================== *)

(** The speed shown on the dial (km/h, clamped) and the angle of the
    needle: -90 at rest, 90 at [maxSpeed]. *)
Definition speedometerDisplaySpeed (currentSpeed : number) : number :=
  let speedKmh := (currentSpeed * Fin 3.6)%js in
  let maxSpeed := Fin 60 in
  JS.min (JS.max (Fin 0) speedKmh) maxSpeed.

Definition speedometerAngle (currentSpeed : number) : number :=
  let maxSpeed := Fin 60 in
  let displaySpeed := speedometerDisplaySpeed currentSpeed in
  let percent := (displaySpeed / maxSpeed)%js in
  (Fin (-90) + percent * Fin 180)%js.

(* ===================================================================== *)
(** ** Notions used in the statements *)
(* ===================================================================== *)

(** The nominal speeds as rationals. *)
Definition nominalSpeed (m : TransportMode) : Q :=
  match m with
  | WALK => 1.4
  | BIKE => 5.5
  | CAR => 11.1
  end.

(** A number that is not negative: [NaN], [Infinity], or a finite number
    from 0 on. *)
Definition notNegative (v : number) : Prop :=
  match v with
  | Fin q => (0 <= q)%Q
  | NegInf => False
  | PosInf | NaN => True
  end.

(** The speed [etaDetails] divides by: the current speed, or the nominal
    speed of the mode when the current speed is below 0.5 m/s. *)
Definition effectiveSpeedOf (v : Q) (m : TransportMode) : Q :=
  if Qlt_le_dec v 0.5 then nominalSpeed m else v.

(** Frame times (in milliseconds) that follow [last] at intervals of at
    most [gap]. *)
Fixpoint framesWithin (gap last : Q) (times : list Q) : Prop :=
  match times with
  | [] => True
  | t :: times' => (last <= t)%Q /\ (t <= last + gap)%Q /\ framesWithin gap t times'
  end.

(** A sensor reading: a finite number, [NaN], or [null]. *)
Definition reading (a : option (option Q)) : option number :=
  match a with
  | Some (Some q) => Some (Fin q)
  | Some None => Some NaN
  | None => None
  end.

(** The length of the route segment that starts at index [k], and the
    length of the [n] segments from index [idx] on, summed in the order the
    look-ahead loop adds them. *)
Definition segmentLength (M : MathLib) (route : list Coordinates) (k : nat) : number :=
  match route !! k, route !! (k + 1)%nat with
  | Some a, Some b => calculateDistance M a b
  | _, _ => NaN
  end.

Definition pathLength (M : MathLib) (route : list Coordinates) (idx n : nat) : number :=
  foldl (fun acc k => (acc + segmentLength M route k)%js) (Fin 0) (seq idx n).

(** The change of bearing at route point [i + 1], between the segment from
    point [i] and the segment to point [i + 2], as the look-ahead loop
    computes it. *)
Definition bearingChange (M : MathLib) (fuel : nat) (route : list Coordinates) (i : nat)
    : outcome number :=
  let! pCurrent := defined (route !! i) in
  let! pNext := defined (route !! (i + 1)%nat) in
  let! pAfter := defined (route !! (i + 2)%nat) in
  normalizeAngle fuel (calculateBearing M pNext pAfter - calculateBearing M pCurrent pNext)%js.

(** Consecutive points of a track are more than 5 meters apart, the later
    one measured from the earlier one. *)
Fixpoint spaced (M : MathLib) (track : list Coordinates) : Prop :=
  match track with
  | p :: ((q :: _) as rest) =>
      (calculateDistance M q p >? Fin 5)%js = true /\ spaced M rest
  | _ => True
  end.

(** What the scan of [findNearestNode] holds after the nodes of [pre]: the
    pair [acc] of [closest] and [minDist]. *)
Definition scanned (M : MathLib) (target : Coordinates)
    (pre : list GraphNode) (acc : option GraphNode * number) : Prop :=
  Forall (fun m => (calculateDistance M target (coords m) <? acc.2)%js = false) pre
  /\ match acc.1 with
     | Some n =>
         acc.2 = calculateDistance M target (coords n)
         /\ (calculateDistance M target (coords n) <? Infinity)%js = true
         /\ exists pre1 pre2,
              pre = pre1 ++ n :: pre2
              /\ Forall (fun m => (calculateDistance M target (coords m)
                                     <=? calculateDistance M target (coords n))%js = false) pre1
              /\ Forall (fun m => (calculateDistance M target (coords m)
                                     <? calculateDistance M target (coords n))%js = false) pre2
     | None => acc.2 = Infinity
     end.

(** [reverseEdge g n e]: the node the edge [e] of [n] leads to is in the
    graph and has an edge back to [n] with the same weight and attributes. *)
Definition reverseEdge (g : Graph) (n : GraphNode) (e : GraphEdge) : Prop :=
  exists (m : GraphNode) (e' : GraphEdge),
    graph_get g (nodeId e) = Some m
    /\ e' ∈ neighbors m
    /\ nodeId e' = id n
    /\ weight e' = weight e
    /\ surface e' = surface e
    /\ isHilly e' = isHilly e.

Definition edgesPaired (g : Graph) : Prop :=
  Forall (fun n => Forall (reverseEdge g n) (neighbors n)) g.

(** A run of [addEdge] calls. *)
Definition addEdges (M : MathLib) (g : Graph) (edges : list (string * string * Surface * bool))
    : Graph :=
  foldl (fun g '(id1, id2, sf, hilly) => addEdge M g id1 id2 sf hilly) g edges.

(** The graph after the nodes are populated, before any edge is added. *)
Definition populatedNodes : Graph :=
  foldl (fun g '(k, la, ln) =>
           graph_set g {| id := k; coords := {| lat := Fin la; lng := Fin ln |};
                          neighbors := [] |})
        [] RAW_NODES.

(** The value of a loop variable after [j] increments. *)
Fixpoint stepsFrom (first : number) (j : nat) : number :=
  match j with
  | O => first
  | S j' => (stepsFrom first j' + Fin 1)%js
  end.

(** The number of tiles of [levels] zoom levels whose columns run from
    [L i] to [R i] and whose rows run from [T i] to [B i]. *)
Definition tileCount (L R T B : nat -> Z) (levels : nat) : nat :=
  sum_list_with (fun i => (Z.to_nat (R i - L i + 1) * Z.to_nat (B i - T i + 1))%nat)
                (seq 0 levels).

(** The tiles of [levels] zoom levels from [z0] on, as (level, column,
    row): level by level, within a level column by column from [L i] to
    [R i], within a column row by row from [T i] to [B i]. *)
Definition tileGrid (z0 : Z) (L R T B : nat -> Z) (levels : nat) : list (Z * Z * Z) :=
  i ← seq 0 levels;
  x ← seqZ (L i) (R i - L i + 1);
  y ← seqZ (T i) (B i - T i + 1);
  [((z0 + Z.of_nat i)%Z, x, y)].

(** [tile] is the tile of the level, column and row [k], with the URL that
    [tileAt] gives it. *)
Definition isTile (Number_toString : number -> string) (tile : TileInfo) (k : Z * Z * Z)
    : Prop :=
  exists zq xq yq : Q,
    (zq == inject_Z k.1.1)%Q /\ (xq == inject_Z k.1.2)%Q /\ (yq == inject_Z k.2)%Q
    /\ tile = tileAt Number_toString (Fin xq) (Fin yq) (Fin zq).

(** Whole numbers small enough for [x++] and [x + y] to be exact on them in
    the arithmetic of JavaScript. *)
Definition safeIndex (k : Z) : Prop := (Z.abs k <= 2 ^ 52)%Z.

(* ===================================================================== *)
(** ** Sample inputs *)
(* ===================================================================== *)

(** A degenerate [MathLib]; it closes statements that hold for every one. *)
Definition flatMath : MathLib :=
  {| Math_sin := fun _ => Fin 0;
     Math_cos := fun _ => Fin 1;
     Math_asin := fun _ => Fin 0;
     Math_atan2 := fun _ _ => Fin 0;
     Math_sqrt := fun _ => Fin 0 |}.

(** A rational stand-in for [Math].

    Truncated series and Newton steps, rounded to 48 binary digits.  It is
    accurate enough at the scale of the local graph to run the definitions
    on sample inputs; no statement about every [MathLib] depends on it. *)
Module Approx.

Local Open Scope Q_scope.

Definition piQ : Q := 884279719003555 # 281474976710656.

Definition qround (q : Q) : Q :=
  Qfloor (q * (281474976710656 # 1)) # 281474976710656.

Definition sqrtQ (q : Q) : Q :=
  if Qle_bool q 0 then 0
  else Nat.iter 30 (fun x => qround ((x + q / x) / 2)) (if Qle_bool q 1 then 1 else q).

Definition sinQ (x : Q) : Q :=
  let x2 := qround (x * x) in
  qround (x * (1 - x2 / 6 * (1 - x2 / 20 * (1 - x2 / 42 * (1 - x2 / 72 * (1 - x2 / 110)))))).

Definition cosQ (x : Q) : Q :=
  let x2 := qround (x * x) in
  qround (1 - x2 / 2 * (1 - x2 / 12 * (1 - x2 / 30 * (1 - x2 / 56 * (1 - x2 / 90))))).

Definition asinQ (y : Q) : Q :=
  Nat.iter 6 (fun t => qround (t - (sinQ t - y) / cosQ t)) y.

Definition atanUnit (t : Q) : Q := qround (t / (1 + 0.28125 * t * t)).

Definition atanQ (t : Q) : Q :=
  if Qle_bool (Qabs t) 1 then atanUnit t
  else if Qle_bool 0 t then piQ / 2 - atanUnit (/ t)
  else - (piQ / 2) - atanUnit (/ t).

Definition atan2Q (y x : Q) : Q :=
  if Qltb 0 x then atanQ (y / x)
  else if Qltb x 0 then
    (if Qle_bool 0 y then atanQ (y / x) + piQ else atanQ (y / x) - piQ)
  else if Qltb 0 y then piQ / 2
  else if Qltb y 0 then - (piQ / 2)
  else 0.

Definition lift (f : Q -> Q) (x : number) : number :=
  match x with
  | Fin q => Fin (f q)
  | _ => NaN
  end.

End Approx.

Definition approxMath : MathLib :=
  {| Math_sin := Approx.lift Approx.sinQ;
     Math_cos := Approx.lift Approx.cosQ;
     Math_asin := Approx.lift Approx.asinQ;
     Math_atan2 := fun y x =>
       match y, x with
       | Fin a, Fin b => Fin (Approx.atan2Q a b)
       | _, _ => NaN
       end;
     Math_sqrt := fun x =>
       match x with
       | Fin q => if Qltb q 0 then NaN else Fin (Approx.sqrtQ q)
       | PosInf => PosInf
       | _ => NaN
       end |}.

(** A number in thousandths, rounded down, for reading off sample values. *)
Definition milli (x : number) : option Z :=
  match x with
  | Fin q => Some (Qfloor (q * 1000))
  | _ => None
  end.

(** Sample inputs: a request from just north-east of [n1] to just
    north-east of [n2], and the two nodes as the graph holds them before
    the edges are added. *)
Definition sampleStart : Coordinates := {| lat := Fin 26.9125; lng := Fin 75.7874 |}.
Definition sampleEnd : Coordinates := {| lat := Fin 26.9125; lng := Fin 75.7924 |}.
Definition sampleNodes : list GraphNode :=
  [ {| id := "n1"; coords := {| lat := Fin 26.9124; lng := Fin 75.7873 |}; neighbors := [] |};
    {| id := "n2"; coords := {| lat := Fin 26.9124; lng := Fin 75.7923 |}; neighbors := [] |} ].

(** A sample state: navigating by car from [n1] along [n2], [n5], [n11] to
    [n10], standing at [n1] just after the route was installed. *)
Definition sampleRoute : list Coordinates :=
  [ {| lat := Fin 26.9124; lng := Fin 75.7873 |};
    {| lat := Fin 26.9124; lng := Fin 75.7923 |};
    {| lat := Fin 26.9169; lng := Fin 75.7923 |};
    {| lat := Fin 26.9169; lng := Fin 75.7973 |};
    {| lat := Fin 26.9124; lng := Fin 75.7973 |} ].

Definition sampleState : NavState :=
  {| currentLocation := {| lat := Fin 26.9124; lng := Fin 75.7873 |};
     currentSpeed := Fin 0;
     routeCoordinates := sampleRoute;
     nextRoutePointIndexRef := 1;
     nextRoutePointIndex := 1;
     gpsActive := true;
     isSimulatingMove := true;
     mode := CAR;
     navState := NAVIGATING;
     sensors := {| alpha := Some (Fin 359); beta := None; gamma := None;
                   accX := None; accY := None; accZ := None |};
     calibration := {| alphaOffset := Fin 0; accXOffset := Fin 0;
                       accYOffset := Fin 0; accZOffset := Fin 0 |};
     lastTimeRef := Some (Fin 0) |}.

(** The sample state under way at the floor speed. *)
Definition creepingState : NavState :=
  {| currentLocation := currentLocation sampleState;
     currentSpeed := Fin 0.5;
     routeCoordinates := routeCoordinates sampleState;
     nextRoutePointIndexRef := nextRoutePointIndexRef sampleState;
     nextRoutePointIndex := nextRoutePointIndex sampleState;
     gpsActive := gpsActive sampleState;
     isSimulatingMove := isSimulatingMove sampleState;
     mode := mode sampleState;
     navState := navState sampleState;
     sensors := sensors sampleState;
     calibration := calibration sampleState;
     lastTimeRef := lastTimeRef sampleState |}.

(* ===================================================================== *)
(** * Properties *)
(* ===================================================================== *)

Lemma Done_inj {A} (a b : A) : Done a = Done b -> a = b.
Proof. congruence. Qed.

(** ** Facts about numbers *)

Lemma Qltb_spec (a b : Q) : Qltb a b = true <-> (a < b)%Q.
Proof.
  unfold Qltb. destruct (Qlt_le_dec a b) as [H|H]; split; intros; try easy.
  exfalso. apply (Qle_not_lt _ _ H). assumption.
Qed.

Lemma Qltb_false (a b : Q) : Qltb a b = false <-> (b <= a)%Q.
Proof.
  unfold Qltb. destruct (Qlt_le_dec a b) as [H|H]; split; intros; try easy.
  exfalso. apply (Qle_not_lt _ _ H0). assumption.
Qed.

(** [0 ||| Infinity] is [Infinity]: zero is falsy. *)
Lemma orElse_zero (d : number) : (Some (Fin 0) ||| d)%js = d.
Proof. reflexivity. Qed.

(** Nothing is below [Infinity + c], whatever [c] is. *)
Lemma not_lt_Infinity_plus (c y : number) : (Infinity + c <? y)%js = false.
Proof. destruct c, y; reflexivity. Qed.

(* ===================================================================== *)
(** ** The pathfinder *)
(* ===================================================================== *)

Section EngineFacts.

Variable M : MathLib.
Variable graph : Graph.

Lemma graph_get_elem (n : GraphNode) :
  n ∈ graph -> exists n', graph_get graph (id n) = Some n'.
Proof.
  intros Hin. unfold graph_get.
  destruct (find (fun n0 => String.eqb (id n0) (id n)) graph) as [n'|] eqn:E.
  - eauto.
  - exfalso. apply list_elem_of_In in Hin.
    pose proof (find_none _ _ E n Hin) as Hn. simpl in Hn.
    rewrite String.eqb_refl in Hn. discriminate.
Qed.

Lemma findNearestNode_elem (target : Coordinates) (n : GraphNode) :
  findNearestNode M graph target = Some n -> n ∈ graph.
Proof.
  unfold findNearestNode.
  assert (Hgen : forall l acc,
             (forall m, fst acc = Some m -> m ∈ graph) ->
             (forall m, m ∈ l -> m ∈ graph) ->
             fst (foldl (fun '(closest, minDist) node =>
                let dist := calculateDistance M target (coords node) in
                if (dist <? minDist)%js then (Some node, dist) else (closest, minDist))
                acc l) = Some n -> n ∈ graph).
  { induction l as [|x l IH]; intros [c d] Hacc Hl; simpl.
    - intros H. apply Hacc. exact H.
    - apply IH.
      + destruct (_ <? _)%js; simpl; intros m Hm.
        * injection Hm as <-. apply Hl. left.
        * apply Hacc. exact Hm.
      + intros m Hm. apply Hl. right. exact Hm. }
  apply Hgen; [discriminate | auto].
Qed.

(** While the current node's g-score reads as [Infinity] (it is [0], hence
    falsy, or absent), relaxing an edge changes nothing. *)
Lemma relax_blocked options endNode currentId st neighbor :
  (gScore st !! currentId ||| Infinity)%js = Infinity ->
  relax M graph options endNode currentId st neighbor = Done st.
Proof.
  intros Hg. unfold relax. rewrite Hg, not_lt_Infinity_plus. reflexivity.
Qed.

Lemma relaxAll_blocked options endNode currentId st ns :
  (gScore st !! currentId ||| Infinity)%js = Infinity ->
  relaxAll M graph options endNode currentId st ns = Done st.
Proof.
  intros Hg. induction ns as [|e ns IH]; simpl; [reflexivity|].
  rewrite relax_blocked by exact Hg. simpl. exact IH.
Qed.

Lemma searchLoop_exhausted fuel options start end_ endNode st :
  openSet st = [] ->
  searchLoop M graph fuel options start end_ endNode st = Done [start; end_].
Proof. intros H. destruct fuel; simpl; rewrite H; reflexivity. Qed.

(** The first iteration pops the start node, relaxes nothing and leaves the
    open set empty. *)
Lemma searchLoop_from_start fuel options start end_ startNode endNode cf fs :
  startNode ∈ graph ->
  String.eqb (id startNode) (id endNode) = false ->
  forall gs, gs !! id startNode = Some (Fin 0) ->
  searchLoop M graph (S fuel) options start end_ endNode
    {| openSet := [id startNode]; cameFrom := cf; gScore := gs; fScore := fs |}
  = Done [start; end_].
Proof.
  intros Hin Hne gs Hgs. simpl. rewrite Hne.
  destruct (graph_get_elem _ Hin) as [cur Hcur]. rewrite Hcur. simpl.
  rewrite relaxAll_blocked by (simpl; rewrite Hgs; reflexivity).
  simpl. apply searchLoop_exhausted. reflexivity.
Qed.

Lemma calculateOfflineRoute_direct fuel start end_ options :
  calculateOfflineRoute M graph (S fuel) start end_ options = Done [start; end_].
Proof.
  unfold calculateOfflineRoute.
  destruct (findNearestNode M graph start) as [startNode|] eqn:Es; [|reflexivity].
  destruct (findNearestNode M graph end_) as [endNode|] eqn:Ee; [|reflexivity].
  destruct (String.eqb (id startNode) (id endNode)) eqn:Hne; [reflexivity|].
  apply searchLoop_from_start.
  - eapply findNearestNode_elem; eauto.
  - exact Hne.
  - apply lookup_insert_eq.
Qed.

End EngineFacts.

(** *** The returned route *)

(** C1.  For every start, end and options the pathfinder returns a
    non-empty route that begins with the caller's start and ends with the
    caller's end.  When the start or the end resolves to no node, when both
    resolve to the same node, and when the search runs out of open nodes,
    the route is exactly the direct segment [[start; end]]. *)
Theorem calculateOfflineRoute_never_fails
    (M : MathLib) (graph : Graph) (fuel : nat)
    (start end_ : Coordinates) (options : option RoutingOptions) :
  exists route,
    calculateOfflineRoute M graph (S fuel) start end_ options = Done route
    /\ route <> []
    /\ head route = Some start
    /\ last route = Some end_
    /\ ((findNearestNode M graph start = None \/ findNearestNode M graph end_ = None) ->
        route = [start; end_])
    /\ (forall startNode endNode,
          findNearestNode M graph start = Some startNode ->
          findNearestNode M graph end_ = Some endNode ->
          id startNode = id endNode -> route = [start; end_])
    /\ (forall fuel' endNode st,
          openSet st = [] ->
          searchLoop M graph fuel' options start end_ endNode st = Done route).
Proof.
  exists [start; end_]. split; [apply calculateOfflineRoute_direct|].
  repeat split; try done.
  intros fuel' endNode st Hst. by apply searchLoop_exhausted.
Qed.

(** C9.  The pathfinder terminates on every input: a budget of a single
    loop iteration is enough for it to return, and a larger budget does not
    change the result. *)
Theorem calculateOfflineRoute_terminates
    (M : MathLib) (graph : Graph)
    (start end_ : Coordinates) (options : option RoutingOptions) :
  exists route,
    forall fuel, calculateOfflineRoute M graph (S fuel) start end_ options = Done route.
Proof.
  exists [start; end_]. intros fuel. apply calculateOfflineRoute_direct.
Qed.

(** *** Edge costs *)

Lemma mul_one (x : number) : (x * Fin 1)%js = x.
Proof.
  destruct x as [[n d]| | |]; try reflexivity.
  simpl. unfold Qmult. simpl. by rewrite Z.mul_1_r, Pos.mul_1_r.
Qed.

Lemma infTimes_pos (positive : bool) (q : Q) :
  (0 < q)%Q -> infTimes positive q = if positive then PosInf else NegInf.
Proof.
  intros Hq. unfold infTimes, isZero, isPos.
  rewrite (proj2 (Qltb_spec 0 q) Hq).
  destruct (Qeq_bool q 0) eqn:E; [|reflexivity].
  apply Qeq_bool_eq in E. rewrite E in Hq. by apply Qlt_irrefl in Hq.
Qed.

Lemma eqv_refl (x : number) : (x ≈ x)%js.
Proof. destruct x; simpl; try done. Qed.

Lemma eqv_trans (x y z : number) : (x ≈ y)%js -> (y ≈ z)%js -> (x ≈ z)%js.
Proof.
  destruct x, y, z; simpl; try done. intros H1 H2. by rewrite H1.
Qed.

Lemma mul_fin_assoc (x : number) (a b : Q) :
  (0 < a)%Q -> (0 < b)%Q -> (x * Fin a * Fin b ≈ x * Fin (a * b))%js.
Proof.
  intros Ha Hb.
  assert (Hab : (0 < a * b)%Q) by (by apply Qmult_lt_0_compat).
  destruct x as [q| | |]; simpl; try done.
  - ring.
  - rewrite !infTimes_pos by done. simpl. by rewrite infTimes_pos.
  - rewrite !infTimes_pos by done. simpl. by rewrite infTimes_pos.
Qed.

Lemma mul_eqv_r (x : number) (a b : Q) :
  (0 < a)%Q -> a == b -> (x * Fin a ≈ x * Fin b)%js.
Proof.
  intros Ha Hab. assert (Hb : (0 < b)%Q) by (by rewrite <- Hab).
  destruct x as [q| | |]; simpl; try done.
  - by rewrite Hab.
  - by rewrite !infTimes_pos.
  - by rewrite !infTimes_pos.
Qed.

Lemma mul_fin3 (x : number) (a b c : Q) :
  (0 < a)%Q -> (0 < b)%Q -> (0 < c)%Q ->
  (x * Fin a * Fin b * Fin c ≈ x * Fin (a * b * c))%js.
Proof.
  intros Ha Hb Hc.
  assert (Hab : (0 < a * b)%Q) by (by apply Qmult_lt_0_compat).
  eapply eqv_trans; [by apply mul_fin_assoc|].
  eapply eqv_trans; [apply mul_fin_assoc; [exact Ha|]; by apply Qmult_lt_0_compat|].
  apply mul_eqv_r; [|ring].
  apply Qmult_lt_0_compat; [exact Ha|]. by apply Qmult_lt_0_compat.
Qed.

(** C3.  The adjusted cost of an edge is its physical weight multiplied,
    independently, by 3 when the edge is unpaved and [preferPaved] is set,
    by 5 when it is hilly and [avoidHills] is set, and by 2 when it is paved
    and [allowHighways] is explicitly false; the factors multiply, so an
    unpaved hilly edge under [preferPaved] and [avoidHills] costs 15 times
    its weight. *)
Theorem adjustedCost_penalties (options : option RoutingOptions) (e : GraphEdge) :
  adjustedCost options e =
    (weight e
     * Fin (if from_option preferPaved false options && Surface_eqb (surface e) unpaved
            then 3 else 1)
     * Fin (if from_option avoidHills false options && isHilly e then 5 else 1)
     * Fin (if from_option (fun o => negb (allowHighways o)) false options
               && Surface_eqb (surface e) paved
            then 2 else 1))%js
  /\ (adjustedCost options e ≈ weight e * Fin (penalty options e))%js
  /\ (forall nid w highways,
        adjustedCost
          (Some {| preferPaved := true; avoidHills := true; allowHighways := highways |})
          {| nodeId := nid; weight := w; surface := unpaved; isHilly := true |}
        ≈ w * Fin 15)%js.
Proof.
  assert (Hshape :
    adjustedCost options e =
      (weight e
       * Fin (if from_option preferPaved false options && Surface_eqb (surface e) unpaved
              then 3 else 1)
       * Fin (if from_option avoidHills false options && isHilly e then 5 else 1)
       * Fin (if from_option (fun o => negb (allowHighways o)) false options
                 && Surface_eqb (surface e) paved
              then 2 else 1))%js).
  { unfold adjustedCost.
    destruct (from_option preferPaved false options && Surface_eqb (surface e) unpaved),
             (from_option avoidHills false options && isHilly e),
             (from_option (fun o => negb (allowHighways o)) false options
                && Surface_eqb (surface e) paved);
      by rewrite ?mul_one. }
  split; [exact Hshape|]. split.
  - rewrite Hshape. unfold penalty.
    destruct (from_option preferPaved false options && Surface_eqb (surface e) unpaved),
             (from_option avoidHills false options && isHilly e),
             (from_option (fun o => negb (allowHighways o)) false options
                && Surface_eqb (surface e) paved);
      by apply mul_fin3.
  - intros nid w highways. unfold adjustedCost. simpl.
    rewrite andb_false_r. apply mul_fin_assoc; done.
Qed.

(** *** Path reconstruction *)

Section ReconstructFacts.

Variable graph : Graph.

Lemma coords_eta (c : Coordinates) : {| lat := lat c; lng := lng c |} = c.
Proof. by destruct c. Qed.

Lemma reconstructLoop_acc fuel cameFrom curr path :
  reconstructLoop graph fuel cameFrom curr path =
  (let! p := reconstructLoop graph fuel cameFrom curr [] in Done (p ++ path)).
Proof.
  revert curr path. induction fuel as [|fuel IH]; intros [c|] path; simpl; try done.
  - by destruct (String.eqb c "").
  - destruct (String.eqb c ""); [done|].
    destruct (graph_get graph c) as [node|]; simpl; [|done].
    rewrite IH. rewrite (IH _ [_]).
    destruct (reconstructLoop graph fuel cameFrom (cameFrom !! c) []); simpl; try done.
    by rewrite <- app_assoc.
Qed.

Lemma reconstructLoop_path cameFrom c nodes :
  BackPointerPath graph cameFrom c nodes ->
  forall fuel, length nodes <= fuel ->
  reconstructLoop graph fuel cameFrom (Some c) [] = Done (map coords nodes).
Proof.
  induction 1 as [c node Hc Hget Hcf | c prev node nodes Hc Hget Hcf Hprev IH];
    intros fuel Hfuel.
  - destruct fuel as [|fuel]; [simpl in Hfuel; lia|]. simpl.
    apply String.eqb_neq in Hc. rewrite Hc, Hget. simpl. rewrite Hcf.
    destruct fuel; simpl; by rewrite coords_eta.
  - rewrite length_app in Hfuel. simpl in Hfuel.
    destruct fuel as [|fuel]; [lia|]. simpl.
    apply String.eqb_neq in Hc. rewrite Hc, Hget. simpl. rewrite Hcf.
    rewrite reconstructLoop_acc.
    assert (Hfuel' : length nodes <= fuel) by lia.
    rewrite (IH fuel Hfuel'). simpl. by rewrite map_app, coords_eta.
Qed.

End ReconstructFacts.

(** What [reconstructPath] does when it is called.  When the back-pointers
    lead from the end node to the start node, it returns the caller's start,
    then the coordinate of every node of that path from the snapped start
    node to the snapped end node, then the caller's end: the two exact
    endpoints are added around the node path and no node of the path is
    replaced. *)
Lemma reconstructPath_wraps_node_path
    (graph : Graph) (cameFrom : gmap string string) (currentId : string)
    (nodes : list GraphNode) (originalStart originalEnd : Coordinates) (fuel : nat) :
  BackPointerPath graph cameFrom currentId nodes ->
  length nodes <= fuel ->
  reconstructPath graph fuel cameFrom currentId originalStart originalEnd
  = Done (originalStart :: map coords nodes ++ [originalEnd]).
Proof.
  intros Hpath Hfuel. unfold reconstructPath.
  by rewrite (reconstructLoop_path graph cameFrom currentId nodes Hpath fuel Hfuel).
Qed.

(** C5.  No route is ever reconstructed.  For every graph, [Math] library
    and request, and for every node path of two or more nodes (as a
    successful search between two different nodes would leave in its
    back-pointers), [calculateOfflineRoute] returns the direct segment.
    That is neither the node path with its first point replaced by the
    caller's start and the caller's end appended, nor the route
    [reconstructPath] builds from the path (the caller's start, the
    coordinates of all the nodes, the caller's end). *)
Theorem calculateOfflineRoute_never_reconstructs
    (M : MathLib) (graph : Graph) (fuel : nat) (start end_ : Coordinates)
    (options : option RoutingOptions) (path : list GraphNode) :
  2 <= length path ->
  calculateOfflineRoute M graph (S fuel) start end_ options = Done [start; end_]
  /\ calculateOfflineRoute M graph (S fuel) start end_ options
     <> Done (start :: drop 1 (map coords path) ++ [end_])
  /\ calculateOfflineRoute M graph (S fuel) start end_ options
     <> Done (start :: map coords path ++ [end_]).
Proof.
  intros Hpath.
  rewrite calculateOfflineRoute_direct.
  destruct path as [|n1 [|n2 path]]; cbn [length] in Hpath; [lia | lia |].
  split; [reflexivity|].
  split; intros H; apply Done_inj in H; apply (f_equal length) in H;
    cbn [map drop app length] in H; rewrite ?length_app in H; cbn [length] in H; lia.
Qed.

(** The sample request: the start lies beside [n1], the end beside [n2],
    and the two nodes share a paved edge; the route is the direct segment,
    without [n2]. *)
Lemma calculateOfflineRoute_never_reconstructs_witness :
  calculateOfflineRoute approxMath (localGraph approxMath) 17 sampleStart sampleEnd None
  = Done [sampleStart; sampleEnd]
  /\ calculateOfflineRoute approxMath (localGraph approxMath) 17 sampleStart sampleEnd None
     <> Done (sampleStart :: drop 1 (map coords sampleNodes) ++ [sampleEnd])
  /\ calculateOfflineRoute approxMath (localGraph approxMath) 17 sampleStart sampleEnd None
     <> Done (sampleStart :: map coords sampleNodes ++ [sampleEnd]).
Proof.
  apply (calculateOfflineRoute_never_reconstructs
           approxMath (localGraph approxMath) 16 sampleStart sampleEnd None sampleNodes).
  cbn. lia.
Defined.

(** *** Multi-waypoint fallback *)

Section ChainingFacts.

Variable pathfinder :
  Coordinates -> Coordinates -> option RoutingOptions -> outcome (list Coordinates).
Variable options : option RoutingOptions.

Lemma legs_length (points : list Coordinates) :
  length (legs points) = (length points - 1)%nat.
Proof.
  induction points as [|a [|b rest] IH]; simpl in *; try reflexivity.
  rewrite IH. lia.
Qed.

(** The loop, read off the list of legs that are still to be routed. *)
Lemma chainLoop_legs (pre rest : list Coordinates) (segs : list (list Coordinates))
    (fullRoute : list Coordinates) :
  Forall2 (fun leg seg => pathfinder leg.1 leg.2 options = Done seg) (legs rest) segs ->
  chainLoop pathfinder (pre ++ rest) options (length (legs rest)) (length pre) fullRoute
  = Done (fullRoute ++
          (if (0 <? length pre)%nat then concat (map (drop 1) segs)
           else joinSegments segs)).
Proof.
  revert pre segs fullRoute.
  induction rest as [|a [|b rest] IH]; intros pre segs fullRoute Hsegs.
  - simpl in *. inversion Hsegs; subst. unfold joinSegments. simpl.
    destruct (0 <? length pre)%nat; by rewrite app_nil_r.
  - simpl in *. inversion Hsegs; subst. unfold joinSegments. simpl.
    destruct (0 <? length pre)%nat; by rewrite app_nil_r.
  - change (legs (a :: b :: rest)) with ((a, b) :: legs (b :: rest)) in *.
    inversion Hsegs as [|leg seg ls segs' Hseg Hrest]; subst. simpl in Hseg.
    cbn [length chainLoop].
    assert (Ha : (pre ++ a :: b :: rest) !! length pre = Some a).
    { rewrite lookup_app_r by lia. by rewrite Nat.sub_diag. }
    assert (Hb : (pre ++ a :: b :: rest) !! (length pre + 1)%nat = Some b).
    { rewrite lookup_app_r by lia.
      by replace (length pre + 1 - length pre)%nat with 1%nat by lia. }
    rewrite Ha, Hb. cbn [defined bind]. rewrite Hseg. cbn [bind].
    specialize (IH (pre ++ [a]) segs').
    rewrite <- app_assoc in IH. cbn [app] in IH.
    rewrite length_app in IH. cbn [length] in IH.
    replace (S (length pre)) with (length pre + 1)%nat by lia.
    rewrite IH by exact Hrest.
    replace (0 <? length pre + 1)%nat with true
      by (symmetry; apply Nat.ltb_lt; lia).
    f_equal. destruct (0 <? length pre)%nat.
    + rewrite <- app_assoc. reflexivity.
    + rewrite <- app_assoc. unfold joinSegments. simpl. by rewrite app_nil_r.
Qed.

Lemma chainSegments_join start end_ waypoints segs :
  Forall2 (fun leg seg => pathfinder leg.1 leg.2 options = Done seg)
          (legs (start :: waypoints ++ [end_])) segs ->
  chainSegments pathfinder start end_ waypoints options = Done (joinSegments segs).
Proof.
  intros Hsegs. unfold chainSegments.
  rewrite <- legs_length.
  apply (chainLoop_legs [] (start :: waypoints ++ [end_]) segs [] Hsegs).
Qed.

End ChainingFacts.

(** Joining the direct segments of a chain gives back the chain. *)
Lemma joinSegments_direct (points : list Coordinates) :
  (2 <= length points)%nat ->
  joinSegments (map (fun leg => [leg.1; leg.2]) (legs points)) = points.
Proof.
  destruct points as [|a [|b rest]]; simpl; try lia. intros _.
  unfold joinSegments.
  change (legs (a :: b :: rest)) with ((a, b) :: legs (b :: rest)).
  simpl. do 2 f_equal.
  revert b. induction rest as [|c rest IH]; intros b; [reflexivity|].
  change (legs (b :: c :: rest)) with ((b, c) :: legs (c :: rest)).
  simpl. f_equal. apply IH.
Qed.

(** Whatever the points between their ends, joining segments that run from
    each chain point to the next gives the start, then for every leg its
    inner points and its end: each junction occurs once. *)
Lemma joinSegments_through (a b : Coordinates) (rest : list Coordinates)
    (mids : list (list Coordinates)) :
  length mids = length (legs (a :: b :: rest)) ->
  joinSegments (zip_with (fun leg mid => leg.1 :: mid ++ [leg.2])
                         (legs (a :: b :: rest)) mids)
  = a :: concat (zip_with (fun leg mid => mid ++ [leg.2]) (legs (a :: b :: rest)) mids).
Proof.
  change (legs (a :: b :: rest)) with ((a, b) :: legs (b :: rest)).
  destruct mids as [|mid mids]; [discriminate|].
  cbn [length]. intros [= Hlen]. unfold joinSegments.
  cbn [zip_with take drop concat map app fst snd]. rewrite app_nil_r.
  f_equal. f_equal.
  revert b mids Hlen. induction rest as [|c rest IH]; intros b mids Hlen.
  - destruct mids; [reflexivity|discriminate].
  - change (legs (b :: c :: rest)) with ((b, c) :: legs (c :: rest)) in *.
    destruct mids as [|mid' mids]; [discriminate|].
    cbn [length] in Hlen. injection Hlen as Hlen.
    cbn [zip_with map drop concat fst snd]. f_equal. by apply IH.
Qed.

(** C4.  The offline fallback routes every consecutive leg of
    [start, wp1, ..., wpN, end] with the same options and joins the results:
    the first segment whole, each later one without its first point.  The
    result is non-empty and is the waypoint chain itself, each junction
    appearing once. *)
Theorem calculateOfflineRouteWithWaypoints_joins
    (M : MathLib) (graph : Graph) (fuel : nat)
    (start end_ : Coordinates) (waypoints : list Coordinates)
    (options : option RoutingOptions) :
  exists segs route,
    Forall2 (fun leg seg =>
               calculateOfflineRoute M graph (S fuel) leg.1 leg.2 options = Done seg)
            (legs (start :: waypoints ++ [end_])) segs
    /\ calculateOfflineRouteWithWaypoints M graph (S fuel) start end_ waypoints options
       = Done route
    /\ route = concat (take 1 segs) ++ concat (map (drop 1) (drop 1 segs))
    /\ route <> []
    /\ route = start :: waypoints ++ [end_]
    /\ length route = (length waypoints + 2)%nat.
Proof.
  set (points := start :: waypoints ++ [end_]).
  exists (map (fun leg => [leg.1; leg.2]) (legs points)), points.
  assert (Hsegs :
    Forall2 (fun leg seg =>
               calculateOfflineRoute M graph (S fuel) leg.1 leg.2 options = Done seg)
            (legs points) (map (fun leg => [leg.1; leg.2]) (legs points))).
  { induction (legs points) as [|leg ls IH]; simpl; constructor; [|exact IH].
    apply calculateOfflineRoute_direct. }
  assert (Hlen : (2 <= length points)%nat).
  { unfold points. simpl. rewrite length_app. simpl. lia. }
  split; [exact Hsegs|]. split; [|split; [|split; [|split]]].
  - unfold calculateOfflineRouteWithWaypoints.
    rewrite (chainSegments_join _ _ _ _ _ _ Hsegs).
    by rewrite joinSegments_direct.
  - symmetry. by apply joinSegments_direct.
  - discriminate.
  - reflexivity.
  - unfold points. simpl. rewrite length_app. simpl. lia.
Qed.

(* ===================================================================== *)
(** ** The navigation loop *)
(* ===================================================================== *)

(** *** Remainders and angles *)

Section AngleFacts.

Local Open Scope Q_scope.

Lemma lt_Fin (a b : Q) : (Fin a <? Fin b)%js = true <-> (a < b)%Q.
Proof. apply Qltb_spec. Qed.

Lemma lt_Fin_false (a b : Q) : (Fin a <? Fin b)%js = false <-> (b <= a)%Q.
Proof. apply Qltb_false. Qed.

Lemma le_Fin (a b : Q) : (Fin a <=? Fin b)%js = true <-> (a <= b)%Q.
Proof. apply Qle_bool_iff. Qed.

Lemma le_Fin_false (a b : Q) : (Fin a <=? Fin b)%js = false <-> (b < a)%Q.
Proof.
  simpl. split; intros H.
  - apply Qnot_le_lt. intros Hle. apply Qle_bool_iff in Hle. congruence.
  - destruct (Qle_bool a b) eqn:E; [|reflexivity].
    apply Qle_bool_iff in E. exfalso. apply (Qlt_not_le _ _ H E).
Qed.

(** Truncation leaves a fractional part of the sign of the argument. *)
Lemma truncQ_spec (q : Q) :
  exists f : Q, q == inject_Z (truncQ q) + f /\ -1 < f /\ f < 1
                /\ (0 <= q -> 0 <= f) /\ (q <= 0 -> f <= 0).
Proof.
  destruct q as [n d]. unfold truncQ. simpl.
  assert (Hd : Zpos d <> 0%Z) by lia.
  pose proof (Z.quot_rem' n (Zpos d)) as Hqr.
  pose proof (Z.rem_bound_abs n (Zpos d) Hd) as Habs.
  pose proof (Z.rem_nonneg n (Zpos d) Hd) as Hnn.
  pose proof (Z.rem_nonpos n (Zpos d) Hd) as Hnp.
  set (t := Z.quot n (Zpos d)) in *. set (r := Z.rem n (Zpos d)) in *.
  exists (r # d).
  repeat split.
  - unfold Qeq, Qplus, inject_Z. simpl. f_equal. lia.
  - unfold Qlt. simpl. lia.
  - unfold Qlt. simpl. lia.
  - unfold Qle. simpl. intros Hn. lia.
  - unfold Qle. simpl. intros Hn. lia.
Qed.

(** [x % 360] lies within a turn of zero, on the side of [x], and differs
    from [x] by whole turns. *)
Lemma rem360_spec (a : Q) :
  exists (r : Q) (k : Z),
    (Fin a %% Fin 360)%js = Fin r
    /\ r == a - 360 * inject_Z k
    /\ -360 < r /\ r < 360
    /\ (0 <= a -> 0 <= r).
Proof.
  destruct (truncQ_spec (a / 360)) as (f & Hf & Hlo & Hhi & Hpos & _).
  exists (a - 360 * inject_Z (truncQ (a / 360))), (truncQ (a / 360)).
  assert (Ha : a == 360 * (a / 360)) by field.
  assert (Hpos' : 0 <= a -> 0 <= f).
  { intros H0. apply Hpos. apply Qle_shift_div_l; [reflexivity | lra]. }
  set (x := a / 360) in *. set (t := inject_Z (truncQ x)) in *.
  split; [reflexivity|]. split; [reflexivity|].
  split; [lra|]. split; [lra|].
  intros H0. specialize (Hpos' H0). lra.
Qed.

(** On [0 <= b < 360] the wrap [(b + 360) % 360] gives [b] back. *)
Lemma wrap360_id (b : Q) :
  0 <= b -> b < 360 -> ((Fin b + Fin 360) %% Fin 360 ≈ Fin b)%js.
Proof.
  intros Hlo Hhi.
  destruct (rem360_spec (b + 360)) as (r & k & Hr & Hk & _ & Hr360 & Hr0).
  change (Fin b + Fin 360)%js with (Fin (b + 360)). rewrite Hr. simpl.
  assert (H0 : 0 <= r) by (apply Hr0; lra).
  assert (Hk1 : (k = 1)%Z).
  { assert (Hlt : inject_Z k < 2) by lra.
    assert (Hgt : 0 < inject_Z k) by lra.
    change 2 with (inject_Z 2) in Hlt. change 0 with (inject_Z 0) in Hgt.
    rewrite <- Zlt_Qlt in Hlt, Hgt. lia. }
  subst k. rewrite Hk. change (inject_Z 1) with 1. lra.
Qed.

(** Closes the case of a loop that does not run. *)
Ltac zero_turns :=
  split; [reflexivity|]; change (inject_Z 0) with 0;
  split; [lra|]; split; [lra | intros; lra].

Lemma wrapUp_spec (fuel : nat) (x : Q) (y : number) :
  wrapUp fuel (Fin x) = Done y ->
  exists (q : Q) (k : Z),
    y = Fin q /\ q == x + 360 * inject_Z k /\ -180 <= q /\ (x <= 180 -> q <= 180).
Proof.
  revert x. induction fuel as [|fuel IH]; intros x; simpl.
  - unfold Qltb. destruct (Qlt_le_dec x (-180)) as [Hlt|Hge]; [discriminate|].
    intros [= <-]. exists x, 0%Z. zero_turns.
  - unfold Qltb. destruct (Qlt_le_dec x (-180)) as [Hlt|Hge].
    + intros H. destruct (IH _ H) as (q & k & -> & Hq & Hlo & Hhi).
      exists q, (k + 1)%Z. split; [reflexivity|].
      rewrite inject_Z_plus. change (inject_Z 1) with 1.
      split; [lra|]. split; [lra|]. intros _. apply Hhi. lra.
    + intros [= <-]. exists x, 0%Z. zero_turns.
Qed.

Lemma wrapDown_spec (fuel : nat) (x : Q) (y : number) :
  wrapDown fuel (Fin x) = Done y ->
  exists (q : Q) (k : Z),
    y = Fin q /\ q == x - 360 * inject_Z k /\ q <= 180 /\ (-180 <= x -> -180 <= q).
Proof.
  revert x. induction fuel as [|fuel IH]; intros x; simpl.
  - unfold gt, lt, Qltb. destruct (Qlt_le_dec 180 x) as [Hlt|Hge]; [discriminate|].
    intros [= <-]. exists x, 0%Z. zero_turns.
  - unfold gt, lt, Qltb. destruct (Qlt_le_dec 180 x) as [Hlt|Hge].
    + intros H. destruct (IH _ H) as (q & k & -> & Hq & Hhi & Hlo).
      exists q, (k + 1)%Z. split; [reflexivity|].
      rewrite inject_Z_plus. change (inject_Z 1) with 1.
      split; [lra|]. split; [lra|]. intros _. apply Hlo. lra.
    + intros [= <-]. exists x, 0%Z. zero_turns.
Qed.

(** The normalised angle is the argument moved by whole turns into
    [-180, 180]. *)
Lemma normalizeAngle_spec (fuel : nat) (x : Q) (y : number) :
  normalizeAngle fuel (Fin x) = Done y ->
  exists (q : Q) (k : Z),
    y = Fin q /\ q == x + 360 * inject_Z k /\ -180 <= q /\ q <= 180.
Proof.
  unfold normalizeAngle. intros H.
  destruct (wrapUp fuel (Fin x)) as [u| |] eqn:Eu; simpl in H; try discriminate.
  destruct (wrapUp_spec _ _ _ Eu) as (q1 & k1 & -> & Hq1 & Hlo1 & _).
  destruct (wrapDown_spec _ _ _ H) as (q2 & k2 & -> & Hq2 & Hhi2 & Hlo2).
  exists q2, (k1 - k2)%Z. split; [reflexivity|].
  unfold Z.sub. rewrite inject_Z_plus, inject_Z_opp.
  split; [lra|]. split; [apply Hlo2; lra | lra].
Qed.

Lemma wrapUp_total (fuel : nat) (x : Q) :
  -180 - 360 * inject_Z (Z.of_nat fuel) <= x ->
  exists q, wrapUp fuel (Fin x) = Done (Fin q).
Proof.
  revert x. induction fuel as [|fuel IH]; intros x Hx; simpl.
  - unfold Qltb. destruct (Qlt_le_dec x (-180)) as [Hlt|Hge]; [|eauto].
    change (inject_Z (Z.of_nat 0)) with 0 in Hx. lra.
  - unfold Qltb. destruct (Qlt_le_dec x (-180)) as [Hlt|Hge]; [|eauto].
    apply IH. rewrite Nat2Z.inj_succ in Hx. unfold Z.succ in Hx.
    rewrite inject_Z_plus in Hx. change (inject_Z 1) with 1 in Hx. lra.
Qed.

Lemma wrapDown_total (fuel : nat) (x : Q) :
  x <= 180 + 360 * inject_Z (Z.of_nat fuel) ->
  exists q, wrapDown fuel (Fin x) = Done (Fin q).
Proof.
  revert x. induction fuel as [|fuel IH]; intros x Hx; simpl.
  - unfold gt, lt, Qltb. destruct (Qlt_le_dec 180 x) as [Hlt|Hge]; [|eauto].
    change (inject_Z (Z.of_nat 0)) with 0 in Hx. lra.
  - unfold gt, lt, Qltb. destruct (Qlt_le_dec 180 x) as [Hlt|Hge]; [|eauto].
    apply IH. rewrite Nat2Z.inj_succ in Hx. unfold Z.succ in Hx.
    rewrite inject_Z_plus in Hx. change (inject_Z 1) with 1 in Hx. lra.
Qed.

(** Two rounds of each loop normalise any difference of two wrapped
    angles. *)
Lemma normalizeAngle_total (fuel : nat) (x : Q) :
  -720 < x -> x < 720 ->
  exists q, normalizeAngle (S (S fuel)) (Fin x) = Done (Fin q).
Proof.
  intros Hlo Hhi. unfold normalizeAngle.
  assert (Hf : 2 <= inject_Z (Z.of_nat (S (S fuel)))).
  { change 2 with (inject_Z 2). rewrite <- Zle_Qle. lia. }
  destruct (wrapUp_total (S (S fuel)) x) as [q1 H1]; [lra|].
  rewrite H1. cbn [bind].
  destruct (wrapUp_spec _ _ _ H1) as (q & k & [= <-] & Hq & Hge & Hle).
  destruct (Qlt_le_dec 180 x) as [Hbig|Hsmall].
  - assert (Hk : q1 == x).
    { revert H1. simpl. unfold Qltb.
      destruct (Qlt_le_dec x (-180)) as [Hlt|_]; [lra|]. by intros [= <-]. }
    apply wrapDown_total. lra.
  - apply wrapDown_total. specialize (Hle Hsmall). lra.
Qed.

Lemma normalizeAngle_NaN (fuel : nat) : normalizeAngle fuel NaN = Done NaN.
Proof. destruct fuel; reflexivity. Qed.

(** *** Steering *)

Lemma maxTurnRate_Fin (v : Q) :
  exists m : Q, maxTurnRate (Fin v) = Fin m /\ m == Qmax 35 (120 - v * 2.5).
Proof.
  unfold maxTurnRate. simpl. unfold Qltb.
  destruct (Qlt_le_dec 35 (120 + - (v * 2.5))) as [H|H].
  - eexists. split; [reflexivity|]. rewrite Q.max_r; lra.
  - eexists. split; [reflexivity|]. rewrite Q.max_l; lra.
Qed.

Lemma maxTurnRate_floor (v : Q) : 35 <= Qmax 35 (120 - v * 2.5).
Proof. apply Q.le_max_l. Qed.

Lemma maxTurnRate_antitone (v v' : Q) :
  v <= v' -> Qmax 35 (120 - v' * 2.5) <= Qmax 35 (120 - v * 2.5).
Proof.
  intros H. apply Q.max_lub; [apply Q.le_max_l|].
  eapply Qle_trans; [|apply Q.le_max_r]. lra.
Qed.

Lemma maxTurnRate_fast (v : Q) : 34 <= v -> Qmax 35 (120 - v * 2.5) == 35.
Proof. intros H. apply Q.max_l. lra. Qed.

End AngleFacts.

Section SteeringFacts.

Local Open Scope Q_scope.

Lemma sign_Fin_pos (e : Q) : 0 < e -> JS.sign (Fin e) = Fin 1.
Proof.
  intros H. simpl. unfold isPos. by rewrite (proj2 (Qltb_spec 0 e) H).
Qed.

Lemma sign_Fin_neg (e : Q) : e < 0 -> JS.sign (Fin e) = Fin (-1).
Proof.
  intros H. simpl. unfold isPos, isNeg.
  rewrite (proj2 (Qltb_false 0 e)) by lra.
  by rewrite (proj2 (Qltb_spec e 0) H).
Qed.

(** The steering step in closed form: snap to the bearing when the error
    is within the step, else move by the step in the direction of the
    error; wrap either way. *)
Lemma steerHeading_cases (h0 b err v dt : Q) :
  exists m : Q,
    m == Qmax 35 (120 - v * 2.5)
    /\ (Qabs err <= m * dt ->
        steerHeading (Fin h0) (Fin b) (Fin err) (Fin v) (Fin dt)
        = (Fin (b + 360) %% Fin 360)%js)
    /\ (m * dt < Qabs err -> 0 < err ->
        steerHeading (Fin h0) (Fin b) (Fin err) (Fin v) (Fin dt)
        = (Fin (h0 + 1 * (m * dt) + 360) %% Fin 360)%js)
    /\ (m * dt < Qabs err -> err < 0 ->
        steerHeading (Fin h0) (Fin b) (Fin err) (Fin v) (Fin dt)
        = (Fin (h0 + -1 * (m * dt) + 360) %% Fin 360)%js).
Proof.
  destruct (maxTurnRate_Fin v) as (m & Hm & Hmax).
  exists m. split; [exact Hmax|].
  unfold steerHeading. rewrite Hm.
  change (Fin m * Fin dt)%js with (Fin (m * dt)).
  change (JS.abs (Fin err)) with (Fin (Qabs err)).
  split; [|split].
  - intros Hle. by rewrite (proj2 (le_Fin _ _) Hle).
  - intros Hgt Hpos. rewrite (proj2 (le_Fin_false _ _) Hgt).
    by rewrite (sign_Fin_pos _ Hpos).
  - intros Hgt Hneg. rewrite (proj2 (le_Fin_false _ _) Hgt).
    by rewrite (sign_Fin_neg _ Hneg).
Qed.

(** One steering step on finite inputs, with the heading error the tick
    computes: the new heading is the old one turned by [delta], up to whole
    turns; [delta] is the heading error when that is within the step, else
    one step in the direction of the error. *)
Lemma steerHeading_step (h0 b v dt : Q) (fuel : nat) (headingError : number) :
  0 <= dt ->
  normalizeAngle fuel (Fin b - Fin h0)%js = Done headingError ->
  exists (err r delta : Q) (i j : Z),
    headingError = Fin err
    /\ (-180 <= err /\ err <= 180 /\ err == b - h0 + 360 * inject_Z i)
    /\ steerHeading (Fin h0) (Fin b) headingError (Fin v) (Fin dt) = Fin r
    /\ (-360 < r /\ r < 360 /\ (0 <= h0 -> 0 <= b -> 0 <= r))
    /\ Qabs delta <= Qmax 35 (120 - v * 2.5) * dt
    /\ r == h0 + delta + 360 * inject_Z j
    /\ (Qabs err <= Qmax 35 (120 - v * 2.5) * dt ->
        delta == err
        /\ steerHeading (Fin h0) (Fin b) headingError (Fin v) (Fin dt)
           = (Fin b + Fin 360) %% Fin 360)%js
    /\ (Qmax 35 (120 - v * 2.5) * dt < Qabs err ->
        (0 < err -> delta == Qmax 35 (120 - v * 2.5) * dt)
        /\ (err < 0 -> delta == - (Qmax 35 (120 - v * 2.5) * dt))).
Proof.
  intros Hdt Hnorm.
  change (Fin b - Fin h0)%js with (Fin (b + - h0)) in Hnorm.
  destruct (normalizeAngle_spec _ _ _ Hnorm) as (err & k & -> & Herr & Hlo & Hhi).
  destruct (steerHeading_cases h0 b err v dt) as (m & Hm & Hsnap & Hup & Hdown).
  assert (Hmd : Qmax 35 (120 - v * 2.5) * dt == m * dt) by (by rewrite Hm).
  assert (H35 : 35 <= m) by (rewrite Hm; apply Q.le_max_l).
  assert (Hstep : 0 <= m * dt) by (apply Qmult_le_0_compat; lra).
  assert (Habs : Qabs err <= 180) by (apply Qabs_Qle_condition; split; lra).
  exists err.
  destruct (Qlt_le_dec (m * dt) (Qabs err)) as [Hgt|Hle].
  - destruct (Qlt_le_dec 0 err) as [Hpos|Hnpos].
    + destruct (rem360_spec (h0 + 1 * (m * dt) + 360))
        as (r & i & Hr & Hi & Hr360' & Hr360 & Hr0).
      exists r, (m * dt), k, (1 - i)%Z. rewrite (Hup Hgt Hpos).
      split; [reflexivity|]. split; [split; [exact Hlo | split; [exact Hhi | lra]]|].
      split; [exact Hr|].
      split; [split; [exact Hr360' | split; [exact Hr360 | intros; apply Hr0; lra]]|].
      split; [rewrite Hmd, Qabs_pos; lra|].
      split.
      { unfold Z.sub. rewrite inject_Z_plus, inject_Z_opp.
        change (inject_Z 1) with 1. lra. }
      split; [intros Hle; rewrite Hmd in Hle; lra|].
      intros _. split; [intros _; lra | intros; lra].
    + assert (Hneg : err < 0).
      { apply Qle_lteq in Hnpos. destruct Hnpos as [H|H]; [exact H|].
        rewrite H in Hgt. change (Qabs 0) with 0 in Hgt. lra. }
      destruct (rem360_spec (h0 + -1 * (m * dt) + 360))
        as (r & i & Hr & Hi & Hr360' & Hr360 & Hr0).
      exists r, (- (m * dt)), k, (1 - i)%Z. rewrite (Hdown Hgt Hneg).
      split; [reflexivity|]. split; [split; [exact Hlo | split; [exact Hhi | lra]]|].
      split; [exact Hr|].
      split; [split; [exact Hr360' | split; [exact Hr360 | intros; apply Hr0; lra]]|].
      split; [rewrite Hmd, Qabs_opp, Qabs_pos; lra|].
      split.
      { unfold Z.sub. rewrite inject_Z_plus, inject_Z_opp.
        change (inject_Z 1) with 1. lra. }
      split; [intros Hle; rewrite Hmd in Hle; lra|].
      intros _. split; [intros; lra | intros _; lra].
  - destruct (rem360_spec (b + 360)) as (r & i & Hr & Hi & Hr360' & Hr360 & Hr0).
    exists r, err, k, (1 - i - k)%Z. rewrite (Hsnap Hle).
    split; [reflexivity|]. split; [split; [exact Hlo | split; [exact Hhi | lra]]|].
    split; [exact Hr|].
    split; [split; [exact Hr360' | split; [exact Hr360 | intros; apply Hr0; lra]]|].
    split; [rewrite Hmd; exact Hle|].
    split.
    { unfold Z.sub. rewrite !inject_Z_plus, !inject_Z_opp.
      change (inject_Z 1) with 1. lra. }
    split; [intros _; split; reflexivity|].
    intros Hgt. rewrite Hmd in Hgt. lra.
Qed.

(** C8.  In route-following mode the turn applied in one tick is capped by
    [max(35, 120 - 2.5 * speed) * deltaTime]: the rate is at least 35
    degrees per second, does not grow with speed and is 35 from 34 m/s on.
    The heading is turned towards the steering bearing by the heading error
    when that is within the step, which sets it exactly to the steering
    bearing, and by one step in the direction of the error otherwise (the
    result being wrapped into one turn). *)
Theorem steerHeading_turn_rate_cap
    (h0 b v dt : Q) (fuel : nat) (headingError : number) :
  0 <= dt -> 0 <= b -> b < 360 ->
  normalizeAngle fuel (Fin b - Fin h0)%js = Done headingError ->
  (maxTurnRate (Fin v) ≈ Fin (Qmax 35 (120 - v * 2.5)))%js
  /\ 35 <= Qmax 35 (120 - v * 2.5)
  /\ (forall v', v <= v' -> Qmax 35 (120 - v' * 2.5) <= Qmax 35 (120 - v * 2.5))
  /\ (34 <= v -> Qmax 35 (120 - v * 2.5) == 35)
  /\ exists (err r delta : Q) (j : Z),
       headingError = Fin err
       /\ steerHeading (Fin h0) (Fin b) headingError (Fin v) (Fin dt) = Fin r
       /\ r == h0 + delta + 360 * inject_Z j
       /\ Qabs delta <= Qmax 35 (120 - v * 2.5) * dt
       /\ (Qabs err <= Qmax 35 (120 - v * 2.5) * dt -> delta == err /\ r == b)
       /\ (Qmax 35 (120 - v * 2.5) * dt < Qabs err ->
           (0 < err -> delta == Qmax 35 (120 - v * 2.5) * dt)
           /\ (err < 0 -> delta == - (Qmax 35 (120 - v * 2.5) * dt))).
Proof.
  intros Hdt Hb0 Hb360 Hnorm.
  split; [|split; [|split; [|split]]].
  - destruct (maxTurnRate_Fin v) as (m' & -> & Hm'). exact Hm'.
  - apply maxTurnRate_floor.
  - intros v'. apply maxTurnRate_antitone.
  - apply maxTurnRate_fast.
  - destruct (steerHeading_step h0 b v dt fuel headingError Hdt Hnorm)
      as (err & r & delta & i & j & He & _ & Hr & _ & Hcap & Hmod & Hsnap & Hfar).
    exists err, r, delta, j.
    split; [exact He|]. split; [exact Hr|]. split; [exact Hmod|]. split; [exact Hcap|].
    split; [|exact Hfar].
    intros Hle. destruct (Hsnap Hle) as [Hd Hb]. split; [exact Hd|].
    pose proof (wrap360_id b Hb0 Hb360) as Hw.
    rewrite <- Hb, Hr in Hw. exact Hw.
Qed.

Lemma steerHeading_turn_rate_cap_witness :
  exists (err r delta : Q) (j : Z),
    Fin 1 = Fin err
    /\ steerHeading (Fin 90) (Fin 91) (Fin 1) (Fin 10) (Fin 0.016) = Fin r
    /\ r == 90 + delta + 360 * inject_Z j
    /\ Qabs delta <= Qmax 35 (120 - 10 * 2.5) * 0.016
    /\ (Qabs err <= Qmax 35 (120 - 10 * 2.5) * 0.016 -> delta == err /\ r == 91)
    /\ (Qmax 35 (120 - 10 * 2.5) * 0.016 < Qabs err ->
        (0 < err -> delta == Qmax 35 (120 - 10 * 2.5) * 0.016)
        /\ (err < 0 -> delta == - (Qmax 35 (120 - 10 * 2.5) * 0.016))).
Proof.
  refine (proj2 (proj2 (proj2 (proj2
    (steerHeading_turn_rate_cap 90 91 10 0.016 1 (Fin 1) _ _ _ _)))));
    vm_compute; congruence.
Defined.

(** C2, as stated, fails: the heading of a tick is wrapped with [% 360], so
    its value jumps across the 0/360 boundary.  At heading 359, steering
    bearing 5, standing still, one 16 ms frame: the heading error is 6, the
    cap is 1.92 degrees, and the heading goes from 359 to 0.92. *)
Lemma steerHeading_wraps_at_boundary :
  normalizeAngle 1 (Fin 5 - Fin 359)%js = Done (Fin 6)
  /\ (maxTurnRate (Fin 0) * Fin 0.016 ≈ Fin 1.92)%js
  /\ (steerHeading (Fin 359) (Fin 5) (Fin 6) (Fin 0) (Fin 0.016) ≈ Fin 0.92)%js
  /\ (JS.abs (steerHeading (Fin 359) (Fin 5) (Fin 6) (Fin 0) (Fin 0.016) - Fin 359)
        >? maxTurnRate (Fin 0) * Fin 0.016)%js = true.
Proof. vm_compute. repeat split; reflexivity. Qed.

(** C2 (as the code has it).  The heading of a tick is kept wrapped: after
    the steering step it lies within one turn of zero (in [0, 360) when the
    heading and the bearing are not negative), and it is the heading before
    the step turned by an angle of at most
    [max(35, 120 - 2.5 * speed) * deltaTime], up to a whole number of
    turns.  The heading error used is the difference of bearing and
    heading, normalised into [-180, 180]. *)
Theorem steerHeading_capped_modulo_turn
    (h0 b v dt : Q) (fuel : nat) (headingError : number) :
  0 <= dt ->
  normalizeAngle fuel (Fin b - Fin h0)%js = Done headingError ->
  exists (err r delta : Q) (i j : Z),
    headingError = Fin err
    /\ -180 <= err /\ err <= 180 /\ err == b - h0 + 360 * inject_Z i
    /\ steerHeading (Fin h0) (Fin b) headingError (Fin v) (Fin dt) = Fin r
    /\ -360 < r /\ r < 360
    /\ (0 <= h0 -> 0 <= b -> 0 <= r)
    /\ Qabs delta <= Qmax 35 (120 - v * 2.5) * dt
    /\ r == h0 + delta + 360 * inject_Z j.
Proof.
  intros Hdt Hnorm.
  destruct (steerHeading_step h0 b v dt fuel headingError Hdt Hnorm)
    as (err & r & delta & i & j & He & (Hlo & Hhi & Herr) & Hr
        & (Hr1 & Hr2 & Hr0) & Hcap & Hmod & _).
  exists err, r, delta, i, j. tauto.
Qed.

Lemma steerHeading_capped_modulo_turn_witness :
  exists (err r delta : Q) (i j : Z),
    Fin 6 = Fin err
    /\ -180 <= err /\ err <= 180 /\ err == 5 - 359 + 360 * inject_Z i
    /\ steerHeading (Fin 359) (Fin 5) (Fin 6) (Fin 0) (Fin 0.016) = Fin r
    /\ -360 < r /\ r < 360
    /\ (0 <= 359 -> 0 <= 5 -> 0 <= r)
    /\ Qabs delta <= Qmax 35 (120 - 0 * 2.5) * 0.016
    /\ r == 359 + delta + 360 * inject_Z j.
Proof.
  apply (steerHeading_capped_modulo_turn 359 5 0 0.016 1 (Fin 6));
    vm_compute; congruence.
Defined.

(** The accumulation without wrap that C2 describes is the map view's: its
    marker rotation follows the heading prop by a signed difference, lands
    on the heading modulo 360, and is never reduced modulo 360 itself.  The
    difference is the shortest one (at most 180 either way) whenever the
    accumulated rotation is not negative. *)
Lemma updateVisualHeading_accumulates (visual heading : Q) :
  0 <= heading -> heading < 360 ->
  exists (r diff : Q) (j : Z),
    updateVisualHeading (Fin visual) (Fin heading) = Fin r
    /\ r == visual + diff
    /\ r == heading + 360 * inject_Z j
    /\ -180 <= diff /\ diff < 360
    /\ (0 <= visual -> diff <= 180).
Proof.
  intros Hh0 Hh360. unfold updateVisualHeading.
  destruct (rem360_spec visual) as (m & k & -> & Hm & Hlo & Hhi & Hpos).
  change (Fin heading - Fin m)%js with (Fin (heading + - m)).
  unfold gt, lt, Qltb.
  destruct (Qlt_le_dec 180 (heading + - m)) as [Hbig|Hsmall].
  - change (Fin (heading + - m) - Fin 360)%js with (Fin (heading + - m + - 360)).
    cbn [lt]. unfold Qltb.
    destruct (Qlt_le_dec (heading + - m + - 360) (-180)) as [Hneg|Hok].
    + exists (visual + (heading + - m + - 360 + 360)), (heading + - m + - 360 + 360), k.
      split; [reflexivity|]. split; [reflexivity|]. split; [lra|].
      split; [lra|]. split; [lra|]. intros Hv. specialize (Hpos Hv). lra.
    + exists (visual + (heading + - m + - 360)), (heading + - m + - 360), (k - 1)%Z.
      split; [reflexivity|]. split; [reflexivity|].
      unfold Z.sub. rewrite inject_Z_plus, inject_Z_opp. change (inject_Z 1) with 1.
      split; [lra|]. split; [lra|]. split; [lra|]. intros Hv. specialize (Hpos Hv). lra.
  - cbn [lt]. unfold Qltb.
    destruct (Qlt_le_dec (heading + - m) (-180)) as [Hneg|Hok].
    + exists (visual + (heading + - m + 360)), (heading + - m + 360), (k + 1)%Z.
      split; [reflexivity|]. split; [reflexivity|].
      rewrite inject_Z_plus. change (inject_Z 1) with 1.
      split; [lra|]. split; [lra|]. split; [lra|]. intros Hv. lra.
    + exists (visual + (heading + - m)), (heading + - m), k.
      split; [reflexivity|]. split; [reflexivity|]. split; [lra|].
      split; [lra|]. split; [lra|]. intros Hv. lra.
Qed.

End SteeringFacts.

(** *** The tick never reads outside the route *)

Section LoopFacts.

Variable M : MathLib.

Lemma wrapped_shape (x : number) :
  (x %% Fin 360)%js = NaN
  \/ exists r : Q, (x %% Fin 360)%js = Fin r /\ (-360 < r)%Q /\ (r < 360)%Q.
Proof.
  destruct x as [a| | |]; try (left; reflexivity).
  right. destruct (rem360_spec a) as (r & k & Hr & _ & Hlo & Hhi & _). eauto.
Qed.

Lemma calculateBearing_shape (p q : Coordinates) :
  calculateBearing M p q = NaN
  \/ exists r : Q, calculateBearing M p q = Fin r /\ (-360 < r)%Q /\ (r < 360)%Q.
Proof. unfold calculateBearing. apply wrapped_shape. Qed.

Lemma sensorHeading_shape (s : SensorReadings) (c : SensorCalibration) :
  sensorHeading s c = NaN
  \/ exists r : Q, sensorHeading s c = Fin r /\ (-360 < r)%Q /\ (r < 360)%Q.
Proof. unfold sensorHeading. apply wrapped_shape. Qed.

(** The difference of two wrapped angles is normalised within two rounds. *)
Lemma normalizeAngle_wrapped (fuel : nat) (x y : number) :
  (x = NaN \/ exists r : Q, x = Fin r /\ (-360 < r)%Q /\ (r < 360)%Q) ->
  (y = NaN \/ exists r : Q, y = Fin r /\ (-360 < r)%Q /\ (r < 360)%Q) ->
  exists e, normalizeAngle (S (S fuel)) (x - y)%js = Done e.
Proof.
  intros [->|(a & -> & Ha1 & Ha2)] [->|(b & -> & Hb1 & Hb2)];
    try (exists NaN; reflexivity).
  change (Fin a - Fin b)%js with (Fin (a + - b)).
  destruct (normalizeAngle_total fuel (a + - b)) as [q Hq]; [lra | lra |]. eauto.
Qed.

Lemma pointAlong_defined (route : list Coordinates) (n i : nat) (remaining : number) :
  (i + n = length route - 1)%nat -> (0 < length route)%nat ->
  exists p, pointAlong M route n i remaining = Done p.
Proof.
  revert i remaining. induction n as [|n IH]; intros i remaining Hin Hlen; simpl.
  - destruct (lookup_lt_is_Some_2 route (length route - 1)) as [p Hp]; [lia|].
    rewrite Hp. eauto.
  - destruct (lookup_lt_is_Some_2 route i) as [p1 Hp1]; [lia|].
    destruct (lookup_lt_is_Some_2 route (i + 1)) as [p2 Hp2]; [lia|].
    rewrite Hp1, Hp2. simpl.
    destruct (_ <=? _)%js; [eauto|]. apply IH; lia.
Qed.

Lemma getPointAtDist_defined (loc : Coordinates) (route : list Coordinates)
    (nextIdx : nat) (dist : number) :
  (nextIdx < length route)%nat ->
  exists p, getPointAtDist M loc route nextIdx dist = Done p.
Proof.
  intros Hlt. unfold getPointAtDist.
  destruct (lookup_lt_is_Some_2 route nextIdx Hlt) as [p2 Hp2]. rewrite Hp2. simpl.
  destruct (_ <=? _)%js; [eauto|]. apply pointAlong_defined; lia.
Qed.

Lemma targetIndex_lt (st : NavState) :
  (0 < length (routeCoordinates st))%nat ->
  (targetIndex st < length (routeCoordinates st))%nat.
Proof.
  intros H. unfold targetIndex.
  destruct (Nat.leb_spec (length (routeCoordinates st)) (nextRoutePointIndexRef st)); lia.
Qed.

(** What a route-following tick returns, when it returns. *)
Lemma followRoad_inv (fuel : nat) (st : NavState) (deltaTime heading : number)
    (r : FollowResult) :
  followRoad M fuel st deltaTime heading = Done r ->
  exists target,
    routeCoordinates st !! targetIndex st = Some target
    /\ fr_index r =
         advanceIndex (calculateDistance M (currentLocation st) target) (currentSpeed st)
           (length (routeCoordinates st)) (nextRoutePointIndexRef st)
    /\ normalizeAngle fuel (fr_bearingToSteer r - heading)%js = Done (fr_headingError r)
    /\ fr_heading r =
         steerHeading heading (fr_bearingToSteer r) (fr_headingError r)
           (currentSpeed st) deltaTime.
Proof.
  unfold followRoad.
  destruct (routeCoordinates st !! targetIndex st) as [target|]; [|discriminate].
  cbn [defined bind].
  destruct (getPointAtDist M _ _ _ (JS.max (Fin 10) _)) as [steerTarget| |];
    try discriminate. cbn [bind].
  destruct (getPointAtDist M _ _ _ (JS.max (Fin 40) _)) as [brakeTarget| |];
    try discriminate. cbn [bind].
  destruct (normalizeAngle fuel _) as [headingError| |] eqn:Hnorm; try discriminate.
  cbn [bind]. intros Hr. apply Done_inj in Hr. exists target. rewrite <- Hr.
  cbn [fr_index fr_bearingToSteer fr_headingError fr_heading].
  split; [reflexivity|]. split; [reflexivity|]. split; [exact Hnorm | reflexivity].
Qed.

(** With a route of at least one point and two rounds for the angle loops,
    a route-following tick returns. *)
Lemma followRoad_total (fuel : nat) (st : NavState) (deltaTime : number) :
  (0 < length (routeCoordinates st))%nat ->
  exists r,
    followRoad M (S (S fuel)) st deltaTime (sensorHeading (sensors st) (calibration st))
    = Done r.
Proof.
  intros Hlen. unfold followRoad.
  pose proof (targetIndex_lt st Hlen) as Hlt.
  destruct (lookup_lt_is_Some_2 _ _ Hlt) as [target Htarget]. rewrite Htarget.
  cbn [defined bind].
  destruct (getPointAtDist_defined (currentLocation st) (routeCoordinates st)
              (targetIndex st) (JS.max (Fin 10) (currentSpeed st * Fin 1.5)%js) Hlt)
    as [steerTarget ->].
  destruct (getPointAtDist_defined (currentLocation st) (routeCoordinates st)
              (targetIndex st) (JS.max (Fin 40) (currentSpeed st * Fin 4.0)%js) Hlt)
    as [brakeTarget ->].
  cbn [bind].
  destruct (normalizeAngle_wrapped fuel
              (calculateBearing M (currentLocation st) steerTarget)
              (sensorHeading (sensors st) (calibration st))
              (calculateBearing_shape _ _) (sensorHeading_shape _ _)) as [e ->].
  cbn [bind]. eauto.
Qed.

Lemma animate_total (fuel : nat) (st : NavState) (time : number) :
  exists st', animate M (S (S fuel)) st time = Done st'.
Proof.
  unfold animate. destruct (lastTimeRef st) as [last|]; [|eauto].
  destruct (isSimulatingMove st && NavigationMode_eqb (navState st) NAVIGATING
            && (1 <? length (routeCoordinates st))%nat) eqn:Hmode.
  - apply andb_true_iff in Hmode as [_ Hlen]. apply Nat.ltb_lt in Hlen.
    destruct (followRoad_total fuel st ((time - last) / Fin 1000)%js) as [r ->]; [lia|].
    cbn [bind]. eauto.
  - destruct (negb (gpsActive st) || gpsActive st && isSimulatingMove st); eauto.
Qed.

End LoopFacts.

(** *** Waypoint progress *)

Section ProgressFacts.

Variable M : MathLib.

Lemma advanceIndex_bounds (d v : number) (len idx : nat) :
  (idx <= advanceIndex d v len idx <= idx + 1)%nat
  /\ (advanceIndex d v len idx <> idx ->
      (d <? JS.max (Fin 5) v)%js = true /\ (idx < len - 1)%nat).
Proof.
  unfold advanceIndex.
  destruct (d <? JS.max (Fin 5) v)%js; [|split; [lia | congruence]].
  destruct (Nat.ltb_spec idx (len - 1)); (split; [lia|]); [auto | congruence].
Qed.

(** One frame: the route is kept, the index ref stays or moves up by one,
    and it moves only when the targeted point is closer than
    [max(5, currentSpeed)]. *)
Lemma animate_index (fuel : nat) (st st' : NavState) (time : number) :
  animate M fuel st time = Done st' ->
  routeCoordinates st' = routeCoordinates st
  /\ (nextRoutePointIndexRef st <= nextRoutePointIndexRef st'
      <= nextRoutePointIndexRef st + 1)%nat
  /\ (nextRoutePointIndexRef st' <> nextRoutePointIndexRef st ->
      exists target,
        routeCoordinates st !! targetIndex st = Some target
        /\ (calculateDistance M (currentLocation st) target
              <? JS.max (Fin 5) (currentSpeed st))%js = true).
Proof.
  unfold animate. destruct (lastTimeRef st) as [last|].
  2:{ intros H. apply Done_inj in H. subst st'. cbn. split; [done|]. split; [lia|done]. }
  destruct (isSimulatingMove st && NavigationMode_eqb (navState st) NAVIGATING
            && (1 <? length (routeCoordinates st))%nat).
  - destruct (followRoad M fuel st _ _) as [r| |] eqn:Hr; try discriminate.
    cbn [bind]. intros H. apply Done_inj in H. subst st'. cbn.
    destruct (followRoad_inv M _ _ _ _ _ Hr) as (target & Ht & Hidx & _).
    rewrite Hidx.
    destruct (advanceIndex_bounds (calculateDistance M (currentLocation st) target)
                (currentSpeed st) (length (routeCoordinates st))
                (nextRoutePointIndexRef st)) as [Hb Hadv].
    split; [done|]. split; [exact Hb|].
    intros Hne. exists target. split; [exact Ht|]. by apply Hadv.
  - destruct (negb (gpsActive st) || gpsActive st && isSimulatingMove st);
      intros H; apply Done_inj in H; subst st'; cbn;
      (split; [done|]; split; [lia|done]).
Qed.

Lemma frames_index (fuel : nat) (times : list number) (st st' : NavState) :
  frames M fuel st times = Done st' ->
  routeCoordinates st' = routeCoordinates st
  /\ (nextRoutePointIndexRef st <= nextRoutePointIndexRef st'
      <= nextRoutePointIndexRef st + length times)%nat.
Proof.
  revert st. induction times as [|time times IH]; intros st; simpl.
  - intros H. apply Done_inj in H. subst st'. split; [done|lia].
  - destruct (animate M fuel st time) as [st1| |] eqn:H1; try discriminate.
    cbn [bind]. intros H.
    destruct (animate_index _ _ _ _ H1) as (Hr1 & Hi1 & _).
    destruct (IH _ H) as (Hr & Hi). split; [congruence|lia].
Qed.

Lemma frames_total (fuel : nat) (times : list number) (st : NavState) :
  exists st', frames M (S (S fuel)) st times = Done st'.
Proof.
  revert st. induction times as [|time times IH]; intros st; [by eexists|].
  cbn [frames]. destruct (animate_total M fuel st time) as [st1 ->]. cbn [bind].
  apply IH.
Qed.

End ProgressFacts.

(** C7.  While a route is installed, the next-waypoint index never
    decreases and moves up by at most one per frame, and only when the
    targeted route point is closer than the speed-scaled threshold
    [max(5, currentSpeed)]; installing a route sets the index to 1. *)
Theorem nextRoutePointIndex_progress
    (M : MathLib) (fuel : nat) (st : NavState) (times : list number) :
  (exists st',
      frames M (S (S fuel)) st times = Done st'
      /\ routeCoordinates st' = routeCoordinates st
      /\ (nextRoutePointIndexRef st <= nextRoutePointIndexRef st'
          <= nextRoutePointIndexRef st + length times)%nat)
  /\ (forall time, exists st',
        animate M (S (S fuel)) st time = Done st'
        /\ (nextRoutePointIndexRef st <= nextRoutePointIndexRef st'
            <= nextRoutePointIndexRef st + 1)%nat
        /\ (nextRoutePointIndexRef st' <> nextRoutePointIndexRef st ->
            exists target,
              routeCoordinates st !! targetIndex st = Some target
              /\ (calculateDistance M (currentLocation st) target
                    <? JS.max (Fin 5) (currentSpeed st))%js = true))
  /\ (forall route,
        routeCoordinates (installRoute st route) = route
        /\ nextRoutePointIndexRef (installRoute st route) = 1%nat
        /\ nextRoutePointIndex (installRoute st route) = 1%nat).
Proof.
  split; [|split].
  - destruct (frames_total M fuel times st) as [st' H]. exists st'.
    split; [exact H|]. by apply (frames_index M _ _ _ _ H).
  - intros time. destruct (animate_total M fuel st time) as [st' H]. exists st'.
    split; [exact H|]. by apply (animate_index M _ _ _ _ H).
  - intros route. by cbn.
Qed.

(** *** Maneuver detection *)

Section ManeuverFacts.

Variable M : MathLib.

(** The loop visits consecutive indices from [i], at most [n] of them, and
    returns whenever the three points of each visit exist. *)
Lemma scanLoop_visits (fuel : nat) (route : list Coordinates) (n i : nat)
    (distToTurn lookAheadDist : number) (visited : list nat) :
  (i + n + 2 <= length route)%nat ->
  exists r k,
    scanLoop M (S (S fuel)) route n i distToTurn lookAheadDist visited = Done r
    /\ (k <= n)%nat
    /\ sr_visited r = visited ++ seq i k.
Proof.
  revert i lookAheadDist visited.
  induction n as [|n IH]; intros i lookAheadDist visited Hlen.
  - eexists _, 0%nat. cbn [scanLoop sr_visited seq].
    split; [reflexivity|]. split; [lia|]. by rewrite app_nil_r.
  - cbn [scanLoop].
    destruct (lookAheadDist >? MAX_LOOKAHEAD)%js.
    { eexists _, 0%nat. cbn [sr_visited seq].
      split; [reflexivity|]. split; [lia|]. by rewrite app_nil_r. }
    destruct (lookup_lt_is_Some_2 route i) as [pCurrent Hc]; [lia|].
    destruct (lookup_lt_is_Some_2 route (i + 1)) as [pNext Hn]; [lia|].
    destruct (lookup_lt_is_Some_2 route (i + 2)) as [pAfter Ha]; [lia|].
    rewrite Hc, Hn, Ha. cbn [defined bind].
    destruct (normalizeAngle_wrapped fuel
                (calculateBearing M pNext pAfter) (calculateBearing M pCurrent pNext)
                (calculateBearing_shape M _ _) (calculateBearing_shape M _ _))
      as [diff ->].
    cbn [bind].
    destruct (JS.abs diff >? Fin 30)%js.
    + destruct (classifyTurn diff) as [mType mText].
      eexists _, 1%nat. cbn [sr_visited seq]. split; [reflexivity|]. split; [lia|done].
    + destruct (IH (i + 1)%nat
                  (lookAheadDist + calculateDistance M pCurrent pNext)%js
                  (visited ++ [i])) as (r & k & Hr & Hk & Hv); [lia|].
      exists r, (S k). split; [exact Hr|]. split; [lia|].
      rewrite Hv, <- app_assoc. cbn [seq app].
      by replace (i + 1)%nat with (S i) by lia.
Qed.

Lemma scanAhead_visits (fuel : nat) (loc : Coordinates) (route : list Coordinates)
    (idx : nat) :
  (idx < length route - 1)%nat ->
  exists r k,
    scanAhead M (S (S fuel)) loc route idx = Done r
    /\ (k <= Nat.min (length route - 2) (idx + 30) - idx)%nat
    /\ sr_visited r = seq idx k.
Proof.
  intros Hidx. unfold scanAhead.
  destruct (lookup_lt_is_Some_2 route idx) as [first Hf]; [lia|].
  rewrite Hf. cbn [defined bind].
  apply (scanLoop_visits fuel route _ idx _ _ []). lia.
Qed.

End ManeuverFacts.

(** C10.  The maneuver detection never reads past the end of the route.
    Whatever the state, it returns; the loop visits consecutive indices
    starting at the current index and every visited [i] is at most
    [min(length - 3, index + 29)], so that [i], [i+1] and [i+2] are all
    below the length of the route and the three reads find a point. *)
Theorem detectManeuver_in_bounds
    (M : MathLib) (fuel : nat) (st : NavState)
    (targetLocation : option Coordinates) (nextManeuver : option Maneuver) :
  exists maneuver visited,
    detectManeuver M (S (S fuel)) st targetLocation nextManeuver = Done (maneuver, visited)
    /\ visited = seq (nextRoutePointIndex st) (length visited)
    /\ Forall (fun i =>
         (nextRoutePointIndex st <= i)%nat
         /\ (Z.of_nat i <= Z.min (Z.of_nat (length (routeCoordinates st)) - 3)
                                 (Z.of_nat (nextRoutePointIndex st) + 29))%Z
         /\ (i + 2 < length (routeCoordinates st))%nat
         /\ is_Some (routeCoordinates st !! i)
         /\ is_Some (routeCoordinates st !! (i + 1)%nat)
         /\ is_Some (routeCoordinates st !! (i + 2)%nat)) visited.
Proof.
  unfold detectManeuver.
  destruct (negb (NavigationMode_eqb (navState st) NAVIGATING)
            || (length (routeCoordinates st) <=? 1)%nat).
  { eexists _, []. split; [reflexivity|]. split; [reflexivity|constructor]. }
  destruct (Nat.leb_spec (length (routeCoordinates st) - 1) (nextRoutePointIndex st))
    as [Hge|Hlt]; cbn [orb].
  { eexists _, []. split; [reflexivity|]. split; [reflexivity|constructor]. }
  destruct (_ <? Fin 20)%js.
  { eexists _, []. split; [reflexivity|]. split; [reflexivity|constructor]. }
  destruct (scanAhead_visits M fuel (currentLocation st) (routeCoordinates st)
              (nextRoutePointIndex st) Hlt) as (r & k & -> & Hk & Hv).
  cbn [bind]. eexists _, _. split; [reflexivity|].
  rewrite Hv, length_seq. split; [reflexivity|].
  apply Forall_forall. intros i Hi. apply elem_of_seq in Hi.
  assert (Hi2 : (i + 2 < length (routeCoordinates st))%nat) by lia.
  split; [lia|]. split; [lia|]. split; [exact Hi2|].
  split; [|split]; apply lookup_lt_is_Some_2; lia.
Qed.

(** *** Sample runs *)

(** The edge from [n1] to [n2] is 496.317 m long, and [n2] lies due east of
    [n1]. *)
Example sample_distance :
  let n1 := {| lat := Fin 26.9124; lng := Fin 75.7873 |} in
  let n2 := {| lat := Fin 26.9124; lng := Fin 75.7923 |} in
  milli (calculateDistance approxMath n1 n2) = Some 496317%Z
  /\ milli (calculateBearing approxMath n1 n2) = Some 89998%Z.
Proof. vm_compute. split; reflexivity. Qed.

(** The sample request runs from beside [n1] to beside [n2], two nodes of
    the local graph that share a paved edge; the answer is the direct
    segment all the same. *)
Example sample_route :
  calculateOfflineRoute approxMath (localGraph approxMath) 17 sampleStart sampleEnd None
  = Done [sampleStart; sampleEnd].
Proof. apply calculateOfflineRoute_direct. Qed.

(** On the sample route, standing at [n1], the scan visits index 1 and
    announces the right turn at [n5], at the distance of [n2] (496 m). *)
Example sample_maneuver :
  detectManeuver approxMath 2 sampleState
    (Some {| lat := Fin 26.9124; lng := Fin 75.7973 |}) None
  = Done (Some {| m_type := "right";
                  m_distance := calculateDistance approxMath
                                  (currentLocation sampleState)
                                  {| lat := Fin 26.9124; lng := Fin 75.7923 |};
                  m_text := "Turn right" |},
          [1%nat]).
Proof. vm_compute. reflexivity. Qed.

(** One 16 ms frame from standstill: the index stays at 1 (the target is
    496 m away) and the car creeps at the 0.5 m/s floor. *)
Example sample_frame :
  (let! st' := animate approxMath 2 sampleState (Fin 16) in
   Done (nextRoutePointIndexRef st', milli (currentSpeed st')))
  = Done (1%nat, Some 500%Z).
Proof. vm_compute. reflexivity. Qed.

(** A hundred meters due east of [n1] and back: 99.999 m. *)
Example sample_round_trip :
  let n1 := {| lat := Fin 26.9124; lng := Fin 75.7873 |} in
  milli (calculateDistance approxMath n1
           (calculateNewPosition approxMath n1 (Fin 100) (Fin 90)))
  = Some 99999%Z.
Proof. vm_compute. reflexivity. Qed.

(* ===================================================================== *)
(** * Further properties of the code *)
(* ===================================================================== *)

(* ===================================================================== *)
(** ** More facts about numbers *)
(* ===================================================================== *)

Section ClampFacts.

Local Open Scope Q_scope.

Lemma max_Fin (a b : Q) :
  exists m : Q, JS.max (Fin a) (Fin b) = Fin m /\ m == Qmax a b /\ (m = a \/ m = b).
Proof.
  cbn [JS.max lt]. unfold Qltb. destruct (Qlt_le_dec a b) as [H|H].
  - exists b. split; [reflexivity|]. split; [|by right]. rewrite Q.max_r; lra.
  - exists a. split; [reflexivity|]. split; [|by left]. rewrite Q.max_l; lra.
Qed.

Lemma min_Fin (a b : Q) :
  exists m : Q, JS.min (Fin a) (Fin b) = Fin m /\ m == Qmin a b /\ (m = a \/ m = b).
Proof.
  cbn [JS.min lt]. unfold Qltb. destruct (Qlt_le_dec b a) as [H|H].
  - exists b. split; [reflexivity|]. split; [|by right]. rewrite Q.min_r; lra.
  - exists a. split; [reflexivity|]. split; [|by left]. rewrite Q.min_l; lra.
Qed.

(** [Math.max(lo, Math.min(hi, x))] for a finite [x]. *)
Lemma clamp_Fin (lo hi x : Q) :
  lo <= hi ->
  exists r : Q,
    JS.max (Fin lo) (JS.min (Fin hi) (Fin x)) = Fin r
    /\ lo <= r /\ r <= hi
    /\ (lo <= x -> x <= hi -> r == x)
    /\ (x <= lo -> r == lo) /\ (hi <= x -> r == hi).
Proof.
  intros Hlh.
  destruct (min_Fin hi x) as (m & -> & Hm & _).
  destruct (max_Fin lo m) as (r & -> & Hr & _).
  exists r. split; [reflexivity|].
  assert (Hm1 : m <= hi) by (rewrite Hm; apply Q.le_min_l).
  assert (Hm2 : m <= x) by (rewrite Hm; apply Q.le_min_r).
  assert (Hr1 : lo <= r) by (rewrite Hr; apply Q.le_max_l).
  assert (Hr2 : m <= r) by (rewrite Hr; apply Q.le_max_r).
  assert (Hm3 : x <= hi -> m == x) by (intros; rewrite Hm; apply Q.min_r; lra).
  assert (Hm4 : hi <= x -> m == hi) by (intros; rewrite Hm; apply Q.min_l; lra).
  assert (Hr3 : lo <= m -> r == m) by (intros; rewrite Hr; apply Q.max_r; lra).
  assert (Hr4 : m <= lo -> r == lo) by (intros; rewrite Hr; apply Q.max_l; lra).
  split; [exact Hr1|].
  split. { destruct (Qlt_le_dec m lo); [rewrite Hr4; lra | rewrite Hr3; lra]. }
  split. { intros H1 H2. rewrite Hr3; [apply Hm3; lra | rewrite Hm3; lra]. }
  split.
  - intros H1. apply Hr4. lra.
  - intros H1. rewrite Hr3; [apply Hm4; lra | rewrite Hm4; lra].
Qed.

End ClampFacts.

Section OrderFacts.

(** Comparisons of numbers, [NaN] included. *)
Lemma lt_irrefl (x : number) : (x <? x)%js = false.
Proof.
  destruct x as [q| | |]; try reflexivity.
  apply lt_Fin_false. apply Qle_refl.
Qed.

Lemma lt_le_false (x y z : number) :
  (x <? y)%js = true -> (z <? y)%js = false -> (z <=? x)%js = false.
Proof.
  destruct x as [a| | |], y as [b| | |], z as [c| | |]; cbn [lt le];
    try reflexivity; try discriminate.
  intros H1 H2. apply Qltb_spec in H1. apply Qltb_false in H2.
  apply le_Fin_false. lra.
Qed.

Lemma le_false_lt_false (x z : number) : (z <=? x)%js = false -> (z <? x)%js = false.
Proof.
  destruct x as [a| | |], z as [c| | |]; cbn [lt le]; try reflexivity; try discriminate.
  intros H. apply (le_Fin_false c a) in H. apply Qltb_false. lra.
Qed.

Lemma lt_below_Infinity (x y : number) : (x <? y)%js = true -> (x <? Infinity)%js = true.
Proof. destruct x, y; cbn [lt Infinity]; try reflexivity; discriminate. Qed.

End OrderFacts.

Section CalibrationFacts.

Local Open Scope Q_scope.

(** Truncation does not depend on the representation of the rational. *)
Lemma truncQ_proper (p q : Q) : p == q -> truncQ p = truncQ q.
Proof.
  intros Hpq.
  destruct (truncQ_spec p) as (f & Hf & Hf1 & Hf2 & Hf3 & Hf4).
  destruct (truncQ_spec q) as (g & Hg & Hg1 & Hg2 & Hg3 & Hg4).
  assert (Hd : inject_Z (truncQ p) - inject_Z (truncQ q) == g - f) by lra.
  assert (Hlt : -1 < inject_Z (truncQ p) - inject_Z (truncQ q) < 1).
  { destruct (Qlt_le_dec p 0) as [Hn|Hp].
    - assert (f <= 0) by (apply Hf4; lra). assert (g <= 0) by (apply Hg4; lra). lra.
    - assert (0 <= f) by (apply Hf3; lra). assert (0 <= g) by (apply Hg3; lra). lra. }
  destruct Hlt as [Hlo Hhi].
  assert (Hlo' : inject_Z (truncQ q - 1) < inject_Z (truncQ p)).
  { unfold Z.sub. rewrite inject_Z_plus, inject_Z_opp. change (inject_Z 1) with 1. lra. }
  assert (Hhi' : inject_Z (truncQ p) < inject_Z (truncQ q + 1)).
  { rewrite inject_Z_plus. change (inject_Z 1) with 1. lra. }
  rewrite <- Zlt_Qlt in Hlo', Hhi'. lia.
Qed.

(** The remainder respects equality of rationals. *)
Lemma rem360_proper (p q : Q) : p == q -> (Fin p %% Fin 360 ≈ Fin q %% Fin 360)%js.
Proof.
  intros Hpq. cbn [JS.rem]. change (isZero 360) with false. cbv iota. cbn [eqv].
  rewrite (truncQ_proper (p / 360) (q / 360)) by (by rewrite Hpq).
  by rewrite Hpq.
Qed.

(** A whole turn wraps to zero. *)
Lemma rem360_turn (x : Q) : x == 360 -> (Fin x %% Fin 360 ≈ Fin 0)%js.
Proof.
  intros Hx. eapply eqv_trans; [apply (rem360_proper x 360 Hx)|]. vm_compute. reflexivity.
Qed.

(** [x || 0] is [x], up to the representation of zero. *)
Lemma orElse_Fin (a : Q) : exists b : Q, (Some (Fin a) ||| Fin 0)%js = Fin b /\ b == a.
Proof.
  cbn [orElse truthy]. unfold isZero. destruct (Qeq_bool a 0) eqn:E; cbn [negb].
  - apply Qeq_bool_iff in E. exists 0. split; [reflexivity | by rewrite E].
  - exists a. split; reflexivity.
Qed.

(** [(x || 0)] for a reading that is finite, [NaN] or [null]. *)
Lemma orElse_reading (a : option (option Q)) :
  exists b : Q, (reading a ||| Fin 0)%js = Fin b.
Proof.
  destruct a as [[q|]|]; cbn [reading]; [|by exists 0..].
  destruct (orElse_Fin q) as (b & Hb & _). eauto.
Qed.

End CalibrationFacts.

(* ===================================================================== *)
(** ** services/navigationService.ts *)
(* ===================================================================== *)

(** X1.  The simulated signal strength never leaves the range of the
    indicator: whatever the coin and whatever number the previous strength
    is (other than [NaN]), the next strength lies between 0 and 4.  From a
    strength within the range it moves by exactly one step, towards the
    coin, unless the step would leave the range, in which case it stays at
    the end of the range. *)
Theorem getSimulatedSignalStrength_range (coin : bool) :
  getSimulatedSignalStrength coin PosInf = Fin 4
  /\ getSimulatedSignalStrength coin NegInf = Fin 0
  /\ forall c : Q, exists r : Q,
       getSimulatedSignalStrength coin (Fin c) = Fin r
       /\ (0 <= r)%Q /\ (r <= 4)%Q
       /\ ((0 <= c)%Q -> (c <= 4)%Q ->
           r == Qmax 0 (Qmin 4 (c + (if coin then 1 else -1))))%Q
       /\ ((0 <= c)%Q -> (c <= 4)%Q -> (Qabs (r - c) <= 1)%Q).
Proof.
  split; [by destruct coin|]. split; [by destruct coin|].
  intros c. unfold getSimulatedSignalStrength.
  set (ch := (if coin then 1 else -1)%Q).
  assert (Hch : (if coin then Fin 1 else Fin (-1)) = Fin ch) by (by destruct coin).
  assert (Hch1 : (-1 <= ch /\ ch <= 1)%Q) by (unfold ch; destruct coin; lra).
  rewrite Hch. change (Fin c + Fin ch)%js with (Fin (c + ch)).
  destruct (clamp_Fin 0 4 (c + ch)) as (r & -> & Hlo & Hhi & Hin & Hbelow & Habove); [lra|].
  exists r. split; [reflexivity|]. split; [exact Hlo|]. split; [exact Hhi|].
  split.
  - intros H0 H4. destruct (Qlt_le_dec (c + ch) 0) as [Hn|Hp].
    + rewrite Hbelow by lra. rewrite Q.min_r by lra. rewrite Q.max_l; lra.
    + destruct (Qlt_le_dec 4 (c + ch)) as [Hb|Hs].
      * rewrite Habove by lra. rewrite Q.min_l by lra. rewrite Q.max_r; lra.
      * rewrite Hin by lra. rewrite Q.min_r by lra. rewrite Q.max_r; lra.
  - intros H0 H4. apply Qabs_Qle_condition.
    destruct (Qlt_le_dec (c + ch) 0) as [Hn|Hp].
    + rewrite Hbelow by lra. lra.
    + destruct (Qlt_le_dec 4 (c + ch)) as [Hb|Hs].
      * rewrite Habove by lra. lra.
      * rewrite Hin by lra. lra.
Qed.

(** X2.  [calculateBearing] returns degrees from 0 up to, not including,
    360 (or [NaN]), for every [Math] whose [atan2] returns [NaN] or an angle
    between [-Math.PI] and [Math.PI]. *)
Theorem calculateBearing_range (M : MathLib) (p q : Coordinates) :
  (forall y x,
      Math_atan2 M y x = NaN
      \/ exists t : Q,
           Math_atan2 M y x = Fin t /\ (JS.abs (Fin t) <=? Math_PI)%js = true) ->
  calculateBearing M p q = NaN
  \/ exists b : Q, calculateBearing M p q = Fin b /\ (0 <= b)%Q /\ (b < 360)%Q.
Proof.
  intros Hatan. unfold calculateBearing.
  destruct (Hatan
    (Math_sin M (toRad (lng q - lng p)) * Math_cos M (toRad (lat q)))%js
    (Math_cos M (toRad (lat p)) * Math_sin M (toRad (lat q)) -
     Math_sin M (toRad (lat p)) * Math_cos M (toRad (lat q))
       * Math_cos M (toRad (lng q - lng p)))%js) as [->|(t & -> & Habs)].
  { left. reflexivity. }
  right.
  apply (le_Fin (Qabs t) Approx.piQ) in Habs. apply Qabs_Qle_condition in Habs as [Hlo Hhi].
  change (toDeg (Fin t) + Fin 360)%js with (Fin (t * 180 / Approx.piQ + 360)).
  destruct (rem360_spec (t * 180 / Approx.piQ + 360)) as (r & k & -> & _ & _ & Hr & Hpos).
  exists r. split; [reflexivity|]. split; [|exact Hr].
  apply Hpos.
  assert (Hpi : (0 < Approx.piQ)%Q) by reflexivity.
  assert (Hdeg : (-180 <= t * 180 / Approx.piQ)%Q).
  { apply Qle_shift_div_l; [exact Hpi|]. lra. }
  lra.
Qed.

Lemma calculateBearing_range_witness :
  calculateBearing flatMath sampleStart sampleEnd = NaN
  \/ exists b : Q,
       calculateBearing flatMath sampleStart sampleEnd = Fin b /\ (0 <= b)%Q /\ (b < 360)%Q.
Proof.
  apply (calculateBearing_range flatMath sampleStart sampleEnd).
  intros y x. right. exists 0%Q. split; reflexivity.
Defined.

(** X4.  [calculateDistance] returns [NaN] or a length between 0 and
    [R * Math.PI], half the circumference of the sphere, for every [Math]
    whose [sqrt] returns [NaN], [Infinity] or a number that is not negative,
    and whose [atan2] returns [NaN] or an angle between 0 and [Math.PI / 2]
    on such arguments. *)
Theorem calculateDistance_range (M : MathLib) (p q : Coordinates) :
  (forall v, notNegative (Math_sqrt M v)) ->
  (forall y x, notNegative y -> notNegative x ->
     Math_atan2 M y x = NaN
     \/ exists t : Q,
          Math_atan2 M y x = Fin t /\ (0 <= t)%Q /\ (Fin 2 * Fin t <=? Math_PI)%js = true) ->
  calculateDistance M p q = NaN
  \/ exists d : Q,
       calculateDistance M p q = Fin d
       /\ (0 <= d)%Q /\ (Fin d <=? R * Math_PI)%js = true.
Proof.
  intros Hsqrt Hatan. unfold calculateDistance.
  set (a := (Math_sin M (toRad (lat q - lat p) / Fin 2)
             * Math_sin M (toRad (lat q - lat p) / Fin 2)
             + Math_sin M (toRad (lng q - lng p) / Fin 2)
               * Math_sin M (toRad (lng q - lng p) / Fin 2)
               * Math_cos M (toRad (lat p)) * Math_cos M (toRad (lat q)))%js).
  destruct (Hatan (Math_sqrt M a) (Math_sqrt M (Fin 1 - a)%js) (Hsqrt _) (Hsqrt _))
    as [->|(t & -> & Ht0 & Ht)].
  { left. reflexivity. }
  right. exists (6378137 * (2 * t))%Q.
  split; [reflexivity|]. split; [lra|].
  change (Fin 2 * Fin t)%js with (Fin (2 * t)) in Ht.
  apply (le_Fin (2 * t) Approx.piQ) in Ht.
  change (R * Math_PI)%js with (Fin (6378137 * Approx.piQ)).
  apply le_Fin. lra.
Qed.

Lemma calculateDistance_range_witness :
  calculateDistance flatMath sampleStart sampleEnd = NaN
  \/ exists d : Q,
       calculateDistance flatMath sampleStart sampleEnd = Fin d
       /\ (0 <= d)%Q /\ (Fin d <=? R * Math_PI)%js = true.
Proof.
  apply (calculateDistance_range flatMath sampleStart sampleEnd).
  - intros v. cbn. discriminate.
  - intros y x _ _. right. exists 0%Q. split; [reflexivity|]. split; [discriminate | reflexivity].
Defined.

(** X5.  The latitude of the point [calculateNewPosition] returns is [NaN]
    or lies between -90 and 90 degrees, whatever the start, the distance and
    the bearing, for every [Math] whose [asin] returns [NaN] or an angle
    between [-Math.PI / 2] and [Math.PI / 2]. *)
Theorem calculateNewPosition_latitude
    (M : MathLib) (start : Coordinates) (distanceMeters bearingDegrees : number) :
  (forall v,
      Math_asin M v = NaN
      \/ exists t : Q,
           Math_asin M v = Fin t /\ (Fin 2 * JS.abs (Fin t) <=? Math_PI)%js = true) ->
  lat (calculateNewPosition M start distanceMeters bearingDegrees) = NaN
  \/ exists l : Q,
       lat (calculateNewPosition M start distanceMeters bearingDegrees) = Fin l
       /\ (-90 <= l)%Q /\ (l <= 90)%Q.
Proof.
  intros Hasin. unfold calculateNewPosition. cbn [lat].
  destruct (Hasin
    (Math_sin M (toRad (lat start)) * Math_cos M (distanceMeters / R)
     + Math_cos M (toRad (lat start)) * Math_sin M (distanceMeters / R)
       * Math_cos M (toRad bearingDegrees))%js) as [->|(t & -> & Habs)].
  { left. reflexivity. }
  right. exists (t * 180 / Approx.piQ)%Q. split; [reflexivity|].
  change (Fin 2 * JS.abs (Fin t))%js with (Fin (2 * Qabs t)) in Habs.
  apply (le_Fin (2 * Qabs t) Approx.piQ) in Habs.
  assert (Hpi : (0 < Approx.piQ)%Q) by reflexivity.
  assert (Ht : (- (Approx.piQ * 0.5) <= t /\ t <= Approx.piQ * 0.5)%Q).
  { apply Qabs_Qle_condition. lra. }
  destruct Ht as [Hlo Hhi]. split.
  - apply Qle_shift_div_l; [exact Hpi|]. lra.
  - apply Qle_shift_div_r; [exact Hpi|]. lra.
Qed.

Lemma calculateNewPosition_latitude_witness :
  lat (calculateNewPosition flatMath sampleStart (Fin 100) (Fin 90)) = NaN
  \/ exists l : Q,
       lat (calculateNewPosition flatMath sampleStart (Fin 100) (Fin 90)) = Fin l
       /\ (-90 <= l)%Q /\ (l <= 90)%Q.
Proof.
  apply (calculateNewPosition_latitude flatMath sampleStart (Fin 100) (Fin 90)).
  intros v. right. exists 0%Q. split; reflexivity.
Defined.

(* ===================================================================== *)
(** ** services/offlineRoutingEngine.ts: the nearest node and the graph *)
(* ===================================================================== *)

Section NearestFacts.

Variable M : MathLib.
Variable target : Coordinates.

Lemma scanned_step (pre : list GraphNode) (closest : option GraphNode) (minDist : number)
    (x : GraphNode) :
  scanned M target pre (closest, minDist) ->
  scanned M target (pre ++ [x])
    (if (calculateDistance M target (coords x) <? minDist)%js
     then (Some x, calculateDistance M target (coords x))
     else (closest, minDist)).
Proof.
  unfold scanned. cbn [fst snd].
  intros [Hall Hc].
  set (dx := calculateDistance M target (coords x)) in *.
  destruct (dx <? minDist)%js eqn:Hlt; cbn [fst snd].
  - split.
    + apply Forall_app. split.
      * eapply Forall_impl; [exact Hall|]. cbn. intros m Hm.
        apply le_false_lt_false. by apply (lt_le_false _ minDist).
      * constructor; [apply lt_irrefl | constructor].
    + split; [reflexivity|]. split.
      * by apply (lt_below_Infinity _ minDist).
      * exists pre, []. split; [reflexivity|]. split; [|constructor].
        eapply Forall_impl; [exact Hall|]. cbn. intros m Hm.
        by apply (lt_le_false _ minDist).
  - split.
    + apply Forall_app. split; [exact Hall|]. constructor; [exact Hlt | constructor].
    + destruct closest as [n|]; [|exact Hc].
      destruct Hc as (-> & Hfin & pre1 & pre2 & -> & H1 & H2).
      split; [reflexivity|]. split; [exact Hfin|].
      exists pre1, (pre2 ++ [x]). split; [by rewrite <- app_assoc|].
      split; [exact H1|]. apply Forall_app. split; [exact H2|].
      constructor; [exact Hlt | constructor].
Qed.

Lemma scanned_foldl (l pre : list GraphNode) (acc : option GraphNode * number) :
  scanned M target pre acc ->
  scanned M target (pre ++ l)
    (foldl (fun '(closest, minDist) node =>
              let dist := calculateDistance M target (coords node) in
              if (dist <? minDist)%js then (Some node, dist) else (closest, minDist))
           acc l).
Proof.
  revert pre acc. induction l as [|x l IH]; intros pre acc H; cbn [foldl].
  - by rewrite app_nil_r.
  - replace (pre ++ x :: l) with ((pre ++ [x]) ++ l) by (by rewrite <- app_assoc).
    apply IH. destruct acc as [closest minDist]. by apply scanned_step.
Qed.

End NearestFacts.

(** X6.  [findNearestNode] returns the first of the nearest nodes.  When it
    returns a node, the distance to it is below [Infinity], every node
    before it in the graph is strictly farther (or at a [NaN] distance), and
    no node after it is strictly nearer.  It returns [null] exactly when no
    node is at a distance below [Infinity], as on the empty graph. *)
Theorem findNearestNode_nearest (M : MathLib) (graph : Graph) (target : Coordinates) :
  match findNearestNode M graph target with
  | Some n =>
      (calculateDistance M target (coords n) <? Infinity)%js = true
      /\ exists pre post,
           graph = pre ++ n :: post
           /\ Forall (fun m => (calculateDistance M target (coords m)
                                  <=? calculateDistance M target (coords n))%js = false) pre
           /\ Forall (fun m => (calculateDistance M target (coords m)
                                  <? calculateDistance M target (coords n))%js = false) post
  | None =>
      Forall (fun m => (calculateDistance M target (coords m) <? Infinity)%js = false) graph
  end.
Proof.
  unfold findNearestNode.
  pose proof (scanned_foldl M target graph [] (None, Infinity)) as H.
  cbn [app] in H. unfold scanned in H at 1. cbn [fst snd] in H.
  specialize (H (conj (Forall_nil_2 _) eq_refl)).
  destruct H as [Hall Hc].
  match goal with |- match fst ?f with _ => _ end => set (res := f) in * end.
  destruct res as [closest minDist]. cbn [fst snd] in *.
  destruct closest as [n|].
  - destruct Hc as (_ & Hfin & pre1 & pre2 & Hg & H1 & H2). split; [exact Hfin|].
    by exists pre1, pre2.
  - by rewrite Hc in Hall.
Qed.

Section GraphFacts.

Variable M : MathLib.

Lemma graph_get_id (g : Graph) (k : string) (n : GraphNode) :
  graph_get g k = Some n -> id n = k /\ n ∈ g.
Proof.
  unfold graph_get. intros H. apply find_some in H as [Hin Heq].
  apply String.eqb_eq in Heq. split; [exact Heq | by apply list_elem_of_In].
Qed.

(** [push_neighbor] keeps the identifiers and only appends. *)
Lemma graph_get_push (g : Graph) (k x : string) (e : GraphEdge) :
  graph_get (push_neighbor g k e) x
  = (fun n => if String.eqb (id n) k
              then {| id := id n; coords := coords n; neighbors := neighbors n ++ [e] |}
              else n) <$> graph_get g x.
Proof.
  unfold graph_get, push_neighbor. induction g as [|n g IH]; [reflexivity|].
  cbn [map find].
  assert (Hid : id (if String.eqb (id n) k
                    then {| id := id n; coords := coords n; neighbors := neighbors n ++ [e] |}
                    else n) = id n) by (by destruct (String.eqb (id n) k)).
  rewrite Hid. destruct (String.eqb (id n) x); [reflexivity | exact IH].
Qed.

Lemma reverseEdge_push (g : Graph) (k : string) (e0 : GraphEdge) (n : GraphNode)
    (e : GraphEdge) (i : string) :
  id n = i ->
  reverseEdge g n e ->
  forall n' : GraphNode, id n' = i -> reverseEdge (push_neighbor g k e0) n' e.
Proof.
  intros Hi (m & e' & Hm & He' & Hid & Hw & Hs & Hh) n' Hn'.
  rewrite <- Hi in Hn'.
  destruct (String.eqb (id m) k) eqn:Hk.
  - exists {| id := id m; coords := coords m; neighbors := neighbors m ++ [e0] |}, e'.
    rewrite graph_get_push, Hm. cbn [fmap option_fmap option_map]. rewrite Hk.
    split; [reflexivity|]. cbn [neighbors].
    split; [apply elem_of_app; by left|]. by rewrite Hn'.
  - exists m, e'. rewrite graph_get_push, Hm. cbn [fmap option_fmap option_map]. rewrite Hk.
    split; [reflexivity|]. split; [exact He'|]. by rewrite Hn'.
Qed.

(** Appending an edge to the nodes called [k] keeps the pairing of the
    edges that were there. *)
Lemma push_neighbor_old_edges (g : Graph) (k : string) (e0 : GraphEdge) :
  edgesPaired g ->
  Forall (fun n => Forall (reverseEdge (push_neighbor g k e0) n) (neighbors n)) g.
Proof.
  unfold edgesPaired. intros H.
  eapply Forall_impl; [exact H|]. cbn. intros n Hn.
  eapply Forall_impl; [exact Hn|]. cbn. intros e He.
  by apply (reverseEdge_push g k e0 n e (id n)).
Qed.

Lemma addEdge_paired (g : Graph) (id1 id2 : string) (sf : Surface) (hilly : bool) :
  edgesPaired g -> edgesPaired (addEdge M g id1 id2 sf hilly).
Proof.
  intros Hg. unfold addEdge.
  destruct (graph_get g id1) as [n1|] eqn:H1; [|exact Hg].
  destruct (graph_get g id2) as [n2|] eqn:H2; [|exact Hg].
  cbv zeta.
  set (d := calculateDistance M (coords n1) (coords n2)).
  set (e12 := {| nodeId := id2; weight := d; surface := sf; isHilly := hilly |}).
  set (e21 := {| nodeId := id1; weight := d; surface := sf; isHilly := hilly |}).
  destruct (graph_get_id _ _ _ H1) as [Hid1 _].
  destruct (graph_get_id _ _ _ H2) as [Hid2 _].
  set (g2 := push_neighbor (push_neighbor g id1 e12) id2 e21).
  (* the nodes the two new edges lead to *)
  assert (Hto2 : exists m, graph_get g2 id2 = Some m /\ e21 ∈ neighbors m).
  { unfold g2. rewrite !graph_get_push, H2. cbn [fmap option_fmap option_map].
    eexists. split; [reflexivity|].
    destruct (String.eqb (id n2) id1); cbn [id]; rewrite Hid2, String.eqb_refl;
      cbn [neighbors]; apply elem_of_app; right; apply list_elem_of_singleton; reflexivity. }
  assert (Hto1 : exists m, graph_get g2 id1 = Some m /\ e12 ∈ neighbors m).
  { unfold g2. rewrite !graph_get_push, H1. cbn [fmap option_fmap option_map].
    rewrite Hid1, String.eqb_refl. cbn [id].
    eexists. split; [reflexivity|].
    destruct (String.eqb id1 id2); cbn [neighbors].
    - apply elem_of_app. left. apply elem_of_app. right.
      apply list_elem_of_singleton. reflexivity.
    - apply elem_of_app. right. apply list_elem_of_singleton. reflexivity. }
  assert (Hold : forall n e i, id n = i -> reverseEdge g n e ->
                   forall n', id n' = i -> reverseEdge g2 n' e).
  { intros n e i Hi He n' Hn'. unfold g2.
    apply (reverseEdge_push _ id2 e21 n' e i Hn'); [|exact Hn'].
    by apply (reverseEdge_push g id1 e12 n e i Hi). }
  assert (Hnew12 : forall n', id n' = id1 -> reverseEdge g2 n' e12).
  { intros n' Hn'. destruct Hto2 as (m & Hm & He). exists m, e21.
    split; [exact Hm|]. split; [exact He|]. by rewrite Hn'. }
  assert (Hnew21 : forall n', id n' = id2 -> reverseEdge g2 n' e21).
  { intros n' Hn'. destruct Hto1 as (m & Hm & He). exists m, e12.
    split; [exact Hm|]. split; [exact He|]. by rewrite Hn'. }
  unfold edgesPaired. fold g2.
  apply Forall_forall. intros n' Hn'.
  unfold g2, push_neighbor in Hn'.
  apply list_elem_of_fmap in Hn' as (n1' & -> & Hn1').
  apply list_elem_of_fmap in Hn1' as (n & -> & Hn).
  unfold edgesPaired in Hg. rewrite Forall_forall in Hg. specialize (Hg n Hn).
  rewrite Forall_forall in Hg.
  destruct (String.eqb (id n) id1) eqn:E1; cbn [id];
    destruct (String.eqb (id n) id2) eqn:E2; cbn [neighbors id];
    apply Forall_forall; intros e He.
  - apply String.eqb_eq in E1, E2.
    apply elem_of_app in He as [He|He].
    + apply elem_of_app in He as [He|He].
      * by apply (Hold n e (id n) eq_refl (Hg e He)).
      * apply list_elem_of_singleton in He as ->. by apply Hnew12.
    + apply list_elem_of_singleton in He as ->. by apply Hnew21.
  - apply String.eqb_eq in E1.
    apply elem_of_app in He as [He|He].
    + by apply (Hold n e (id n) eq_refl (Hg e He)).
    + apply list_elem_of_singleton in He as ->. by apply Hnew12.
  - apply String.eqb_eq in E2.
    apply elem_of_app in He as [He|He].
    + by apply (Hold n e (id n) eq_refl (Hg e He)).
    + apply list_elem_of_singleton in He as ->. by apply Hnew21.
  - by apply (Hold n e (id n) eq_refl (Hg e He)).
Qed.

Lemma addEdges_paired (edges : list (string * string * Surface * bool)) (g : Graph) :
  edgesPaired g -> edgesPaired (addEdges M g edges).
Proof.
  revert g. induction edges as [|[[[id1 id2] sf] hilly] edges IH]; intros g Hg; [exact Hg|].
  cbn [addEdges foldl]. apply IH. by apply addEdge_paired.
Qed.

Lemma no_edges_paired (g : Graph) :
  Forall (fun n => neighbors n = []) g -> edgesPaired g.
Proof.
  intros H. unfold edgesPaired. eapply Forall_impl; [exact H|].
  cbn. intros n ->. constructor.
Qed.

End GraphFacts.

Lemma localGraph_addEdges (M : MathLib) : localGraph M = addEdges M populatedNodes EDGES.
Proof.
  cbv delta [localGraph addEdges populatedNodes] beta zeta. exact eq_refl.
Qed.

Lemma populatedNodes_no_edges : Forall (fun n => neighbors n = []) populatedNodes.
Proof. vm_compute. repeat constructor. Qed.

(** X7.  [addEdge] keeps the graph symmetric.  Starting from nodes without
    edges, after any run of [addEdge] calls every edge of every node leads
    to a node of the graph, and that node has an edge back with the same
    weight, surface and hilliness; so the [graph.get(neighbor.nodeId)!] of
    the search always finds a node.  A call that names an unknown node
    leaves the graph as it is. *)
Theorem addEdge_keeps_edges_paired
    (M : MathLib) (nodes : Graph) (edges : list (string * string * Surface * bool)) :
  Forall (fun n => neighbors n = []) nodes ->
  edgesPaired (addEdges M nodes edges)
  /\ forall g id1 id2 sf hilly,
       (graph_get g id1 = None \/ graph_get g id2 = None) ->
       addEdge M g id1 id2 sf hilly = g.
Proof.
  intros Hnodes. split.
  - apply addEdges_paired. by apply no_edges_paired.
  - intros g id1 id2 sf hilly [H|H]; unfold addEdge; rewrite H; [reflexivity|].
    by destruct (graph_get g id1).
Qed.

Lemma addEdge_keeps_edges_paired_witness : edgesPaired (localGraph approxMath).
Proof.
  rewrite localGraph_addEdges.
  exact (proj1 (addEdge_keeps_edges_paired approxMath populatedNodes EDGES
                  populatedNodes_no_edges)).
Defined.

(* ===================================================================== *)
(** ** services/routingService.ts: routes *)
(* ===================================================================== *)

(** The offline fallback gives the chain of the waypoints. *)
Lemma offline_chain (M : MathLib) (graph : Graph) (fuel : nat)
    (start end_ : Coordinates) (waypoints : list Coordinates)
    (options : option RoutingOptions) :
  calculateOfflineRouteWithWaypoints M graph (S fuel) start end_ waypoints options
  = Done (start :: waypoints ++ [end_]).
Proof.
  set (points := start :: waypoints ++ [end_]).
  assert (Hsegs :
    Forall2 (fun leg seg =>
               calculateOfflineRoute M graph (S fuel) leg.1 leg.2 options = Done seg)
            (legs points) (map (fun leg => [leg.1; leg.2]) (legs points))).
  { induction (legs points) as [|leg ls IH]; simpl; constructor; [|exact IH].
    apply calculateOfflineRoute_direct. }
  unfold calculateOfflineRouteWithWaypoints.
  rewrite (chainSegments_join _ _ _ _ _ _ Hsegs).
  rewrite joinSegments_direct; [reflexivity|].
  unfold points. simpl. rewrite length_app. simpl. lia.
Qed.

(** X8.  The routing preferences never reach a route.  [getRoute] always
    returns a route: either the coordinates of the first route of an [ok]
    OSRM reply, with [lng, lat] swapped into [lat]/[lng], or, when the
    device is offline, the request fails, the reply is not [ok] or holds no
    route, the chain [start, waypoints..., end] itself.  The request carries
    the profile of the transport mode and the points only, so the result is
    the same for all routing options. *)
Theorem getRoute_ignores_options
    (M : MathLib) (graph : Graph) (fuel : nat) (onLine : bool)
    (fetch : OsrmRequest -> OsrmReply)
    (start end_ : Coordinates) (mode : TransportMode)
    (options : option RoutingOptions) (waypoints : list Coordinates) :
  exists route,
    getRoute M graph (S fuel) onLine fetch start end_ mode options waypoints = Done route
    /\ (forall options',
          getRoute M graph (S fuel) onLine fetch start end_ mode options' waypoints
          = Done route)
    /\ (route = start :: waypoints ++ [end_]
        \/ onLine = true
           /\ exists first rest,
                fetch {| profile := match mode with
                                    | WALK => "foot" | BIKE => "bike" | CAR => "driving"
                                    end;
                         points := start :: waypoints ++ [end_] |}
                = Replied true (Some (first :: rest))
                /\ route = map (fun coord : number * number =>
                                  {| lat := coord.2; lng := coord.1 |}) first).
Proof.
  unfold getRoute. destruct onLine; cbn [negb].
  2:{ exists (start :: waypoints ++ [end_]).
      split; [apply offline_chain|]. split; [intros; apply offline_chain | by left]. }
  assert (Hprofile :
    match mode with BIKE => "bike" | _ => match mode with WALK => "foot" | _ => "driving" end end
    = match mode with WALK => "foot" | BIKE => "bike" | CAR => "driving" end)
    by (by destruct mode).
  cbv zeta. rewrite Hprofile.
  destruct (fetch _) as [|[|] [[|first rest]|]] eqn:Hfetch;
    try (exists (start :: waypoints ++ [end_]);
         split; [apply offline_chain|]; split; [intros; apply offline_chain | by left]).
  eexists. split; [reflexivity|]. split; [reflexivity|].
  right. split; [reflexivity|]. by exists first, rest.
Qed.

Section ChainFacts.

Variable pathfinder :
  Coordinates -> Coordinates -> option RoutingOptions -> outcome (list Coordinates).
Variable options : option RoutingOptions.

(** The points of a chain, without the first, are found in order among the
    inner points and ends of its legs. *)
Lemma legs_ends_sublist (a : Coordinates) (rest : list Coordinates)
    (mids : list (list Coordinates)) :
  length mids = length (legs (a :: rest)) ->
  rest `sublist_of` concat (zip_with (fun leg mid => mid ++ [leg.2]) (legs (a :: rest)) mids).
Proof.
  revert a mids. induction rest as [|b rest IH]; intros a mids Hlen.
  - apply sublist_nil_l.
  - change (legs (a :: b :: rest)) with ((a, b) :: legs (b :: rest)) in *.
    destruct mids as [|mid mids]; [discriminate|].
    cbn [length] in Hlen. injection Hlen as Hlen.
    cbn [zip_with concat snd]. rewrite <- app_assoc. cbn [app].
    apply sublist_inserts_l. constructor. by apply IH.
Qed.

Lemma legs_ends_last (a : Coordinates) (rest : list Coordinates)
    (mids : list (list Coordinates)) :
  length mids = length (legs (a :: rest)) ->
  last (a :: concat (zip_with (fun leg mid => mid ++ [leg.2]) (legs (a :: rest)) mids))
  = last (a :: rest).
Proof.
  revert a mids. induction rest as [|b rest IH]; intros a mids Hlen.
  - cbn [legs zip_with concat]. reflexivity.
  - change (legs (a :: b :: rest)) with ((a, b) :: legs (b :: rest)) in *.
    destruct mids as [|mid mids]; [discriminate|].
    cbn [length] in Hlen. injection Hlen as Hlen.
    cbn [zip_with concat snd]. rewrite <- app_assoc. cbn [app].
    change (a :: mid ++ b :: ?c) with ((a :: mid) ++ b :: c).
    rewrite last_app_cons, last_cons_cons. by apply IH.
Qed.

Lemma legs_ends_length (a : Coordinates) (rest : list Coordinates)
    (mids : list (list Coordinates)) :
  length mids = length (legs (a :: rest)) ->
  length (concat (zip_with (fun leg mid => mid ++ [leg.2]) (legs (a :: rest)) mids))
  = (length rest + length (concat mids))%nat.
Proof.
  revert a mids. induction rest as [|b rest IH]; intros a mids Hlen.
  - cbn [legs] in *. by destruct mids.
  - change (legs (a :: b :: rest)) with ((a, b) :: legs (b :: rest)) in *.
    destruct mids as [|mid mids]; [discriminate|].
    cbn [length] in Hlen. injection Hlen as Hlen.
    cbn [zip_with concat snd length]. rewrite !length_app, (IH b mids Hlen).
    cbn [length]. lia.
Qed.

End ChainFacts.

(** X9.  The chaining of [calculateOfflineRouteWithWaypoints] is right for
    every pathfinder that answers a leg with a path from the leg's start to
    the leg's end: the joined route begins with the start, continues for
    each leg with the inner points of its path and its end, and so ends with
    the destination and passes all the waypoints in their order, each
    junction once. *)
Theorem chainSegments_through_waypoints
    (pathfinder : Coordinates -> Coordinates -> option RoutingOptions
                  -> outcome (list Coordinates))
    (options : option RoutingOptions)
    (start end_ : Coordinates) (waypoints : list Coordinates)
    (mids : list (list Coordinates)) :
  Forall2 (fun leg mid => pathfinder leg.1 leg.2 options = Done (leg.1 :: mid ++ [leg.2]))
          (legs (start :: waypoints ++ [end_])) mids ->
  exists route,
    chainSegments pathfinder start end_ waypoints options = Done route
    /\ route = start :: concat (zip_with (fun leg mid => mid ++ [leg.2])
                                         (legs (start :: waypoints ++ [end_])) mids)
    /\ head route = Some start
    /\ last route = Some end_
    /\ length route = (1 + length waypoints + 1 + length (concat mids))%nat
    /\ (start :: waypoints ++ [end_]) `sublist_of` route.
Proof.
  intros Hlegs.
  set (points := start :: waypoints ++ [end_]) in *.
  assert (Hlen : length mids = length (legs points)).
  { symmetry. by eapply Forall2_length. }
  assert (Hsegs :
    Forall2 (fun leg seg => pathfinder leg.1 leg.2 options = Done seg) (legs points)
            (zip_with (fun leg mid => leg.1 :: mid ++ [leg.2]) (legs points) mids)).
  { clear Hlen. induction Hlegs as [|leg mid ls ms Hleg _ IH]; cbn [zip_with]; constructor;
      [exact Hleg | exact IH]. }
  eexists. split; [by apply chainSegments_join|].
  assert (Hpts : exists b rest, points = start :: b :: rest).
  { unfold points. destruct waypoints as [|w ws]; cbn [app]; eauto. }
  destruct Hpts as (b & rest & Hpts).
  assert (Hjoin :
    joinSegments (zip_with (fun leg mid => leg.1 :: mid ++ [leg.2]) (legs points) mids)
    = start :: concat (zip_with (fun leg mid => mid ++ [leg.2]) (legs points) mids)).
  { rewrite Hpts. apply joinSegments_through. by rewrite <- Hpts. }
  rewrite Hjoin. split; [reflexivity|]. split; [reflexivity|].
  assert (Hsub : (waypoints ++ [end_]) `sublist_of`
                   concat (zip_with (fun leg mid => mid ++ [leg.2]) (legs points) mids)).
  { apply (legs_ends_sublist start (waypoints ++ [end_]) mids Hlen). }
  subst points. split; [|split].
  - rewrite (legs_ends_last start (waypoints ++ [end_]) mids Hlen).
    change (start :: waypoints ++ [end_]) with ((start :: waypoints) ++ [end_]).
    apply last_snoc.
  - cbn [length]. rewrite (legs_ends_length start (waypoints ++ [end_]) mids Hlen).
    rewrite length_app. cbn [length]. lia.
  - by constructor.
Qed.

Lemma chainSegments_through_waypoints_witness :
  exists route,
    chainSegments (fun a b _ => Done [a; sampleStart; b])
      sampleStart sampleEnd [sampleEnd] None = Done route
    /\ head route = Some sampleStart
    /\ last route = Some sampleEnd.
Proof.
  destruct (chainSegments_through_waypoints (fun a b _ => Done [a; sampleStart; b]) None
              sampleStart sampleEnd [sampleEnd] [[sampleStart]; [sampleStart]])
    as (route & Hr & _ & Hh & Hl & _).
  - repeat constructor.
  - exists route. repeat split; assumption.
Defined.

(* ===================================================================== *)
(** ** App.tsx: speed, index and look-ahead of the navigation loop *)
(* ===================================================================== *)

Section SpeedFacts.

Variable M : MathLib.

Local Open Scope Q_scope.

Lemma baseMaxSpeedOf_nominal (m : TransportMode) :
  baseMaxSpeedOf m = Fin (nominalSpeed m) /\ 1.4 <= nominalSpeed m.
Proof. destruct m; (split; [reflexivity|]); unfold nominalSpeed; lra. Qed.

(** The speed of a route-following tick: the current speed, raised by
    [2.5 * deltaTime] or lowered by [5 * deltaTime], clamped between 0.5
    and the nominal speed of the mode. *)
Lemma followRoad_speed (fuel : nat) (st : NavState) (t v : Q) (heading : number)
    (r : FollowResult) :
  followRoad M fuel st (Fin t) heading = Done r ->
  currentSpeed st = Fin v ->
  exists c s : Q,
    (c == v + 2.5 * t \/ c == v - 5 * t)
    /\ fr_speed r = Fin s
    /\ s == Qmax 0.5 (Qmin c (nominalSpeed (mode st))).
Proof.
  unfold followRoad.
  destruct (routeCoordinates st !! targetIndex st) as [target|]; [|discriminate].
  cbn [defined bind].
  destruct (getPointAtDist M _ _ _ (JS.max (Fin 10) _)) as [steerTarget| |];
    try discriminate. cbn [bind].
  destruct (getPointAtDist M _ _ _ (JS.max (Fin 40) _)) as [brakeTarget| |];
    try discriminate. cbn [bind].
  destruct (normalizeAngle fuel _) as [headingError| |] eqn:Hnorm; try discriminate.
  cbn [bind]. intros Hr Hv. apply Done_inj in Hr. rewrite <- Hr. cbn [fr_speed].
  destruct (baseMaxSpeedOf_nominal (mode st)) as [-> _].
  rewrite Hv.
  set (c := if (Fin v <? _)%js then (Fin v + Fin 2.5 * Fin t)%js
            else (Fin v - Fin 5.0 * Fin t)%js).
  assert (Hc : exists c' : Q, c = Fin c' /\ (c' == v + 2.5 * t \/ c' == v - 5 * t)).
  { unfold c. destruct (Fin v <? _)%js.
    - exists (v + 2.5 * t). split; [reflexivity | left; reflexivity].
    - exists (v + - (5.0 * t)). split; [reflexivity | right; lra]. }
  destruct Hc as (c' & -> & Hc').
  destruct (min_Fin c' (nominalSpeed (mode st))) as (m & -> & Hm & _).
  destruct (max_Fin 0.5 m) as (s & -> & Hs & _).
  exists c', s. split; [exact Hc'|]. split; [reflexivity|].
  by rewrite Hs, Hm.
Qed.

End SpeedFacts.

(** X10.  In route-following mode the speed of a tick stays between the
    0.5 m/s floor and the nominal speed of the transport mode, whatever the
    route, the curvature ahead and the elapsed time; and within these limits
    it rises by at most [2.5 * deltaTime] and falls by at most
    [5 * deltaTime] per tick. *)
Theorem followRoad_speed_limits
    (M : MathLib) (fuel : nat) (st : NavState) (t v : Q) :
  (0 < length (routeCoordinates st))%nat ->
  currentSpeed st = Fin v ->
  (0 <= t)%Q ->
  exists (r : FollowResult) (s : Q),
    followRoad M (S (S fuel)) st (Fin t) (sensorHeading (sensors st) (calibration st))
    = Done r
    /\ fr_speed r = Fin s
    /\ (0.5 <= s)%Q /\ (s <= nominalSpeed (mode st))%Q
    /\ (s <= Qmax 0.5 (v + 2.5 * t))%Q
    /\ (Qmin (nominalSpeed (mode st)) (v - 5 * t) <= s)%Q.
Proof.
  intros Hlen Hv Ht.
  destruct (followRoad_total M fuel st (Fin t) Hlen) as [r Hr].
  destruct (followRoad_speed M _ _ _ _ _ _ Hr Hv) as (c & s & Hc & Hs & Hclamp).
  destruct (baseMaxSpeedOf_nominal (mode st)) as [_ Hbase].
  exists r, s. split; [exact Hr|]. split; [exact Hs|].
  set (b := nominalSpeed (mode st)) in *.
  assert (H1 : (0.5 <= s)%Q) by (rewrite Hclamp; apply Q.le_max_l).
  assert (H2 : (s <= b)%Q).
  { rewrite Hclamp. apply Q.max_lub; [lra | apply Q.le_min_r]. }
  assert (H3 : (Qmin c b <= s)%Q) by (rewrite Hclamp; apply Q.le_max_r).
  assert (H4 : (s <= Qmax 0.5 c)%Q).
  { rewrite Hclamp. apply Q.max_le_compat_l. apply Q.le_min_l. }
  split; [exact H1|]. split; [exact H2|]. split.
  - eapply Qle_trans; [exact H4|]. apply Q.max_le_compat_l. destruct Hc as [-> | ->]; lra.
  - eapply Qle_trans; [|exact H3]. rewrite Q.min_comm.
    apply Q.min_le_compat_r. destruct Hc as [-> | ->]; lra.
Qed.

Lemma followRoad_speed_limits_witness :
  exists (r : FollowResult) (s : Q),
    followRoad flatMath 2 sampleState (Fin 0.016)
      (sensorHeading (sensors sampleState) (calibration sampleState)) = Done r
    /\ fr_speed r = Fin s
    /\ (0.5 <= s)%Q /\ (s <= 11.1)%Q.
Proof.
  destruct (followRoad_speed_limits flatMath 0 sampleState 0.016 0)
    as (r & s & Hr & Hs & H1 & H2 & _).
  - cbn. lia.
  - reflexivity.
  - discriminate.
  - exists r, s. repeat split; assumption.
Defined.

Section ThrottleFacts.

Variable M : MathLib.

Local Open Scope Q_scope.

(** A frame in route-following mode. *)
Lemma animate_follow (fuel : nat) (st : NavState) (tm l : Q) :
  isSimulatingMove st = true ->
  navState st = NAVIGATING ->
  (1 < length (routeCoordinates st))%nat ->
  lastTimeRef st = Some (Fin l) ->
  animate M fuel st (Fin tm)
  = bind (followRoad M fuel st (Fin ((tm + - l) / 1000))
            (sensorHeading (sensors st) (calibration st)))
         (fun r => Done (withMotion st (Fin tm) (fr_index r) (fr_location r) (fr_speed r))).
Proof.
  intros Hsim Hnav Hlen Hlast. unfold animate. rewrite Hlast, Hsim, Hnav.
  rewrite (proj2 (Nat.ltb_lt _ _) Hlen). reflexivity.
Qed.

(** The throttle of [setCurrentSpeed] keeps the previous speed when the
    new one is within 0.1 of it. *)
Lemma throttle_keeps (v s : Q) :
  Qabs (v - s) <= 0.1 ->
  (if (JS.abs (Fin v - Fin s) >? Fin 0.1)%js then Fin s else Fin v) = Fin v.
Proof.
  intros H. change (JS.abs (Fin v - Fin s)%js) with (Fin (Qabs (v + - s))).
  cbn [gt lt]. by rewrite (proj2 (Qltb_false 0.1 (Qabs (v + - s))) H).
Qed.

Lemma throttle_takes (v s : Q) :
  0.1 < Qabs (v - s) ->
  (if (JS.abs (Fin v - Fin s) >? Fin 0.1)%js then Fin s else Fin v) = Fin s.
Proof.
  intros H. change (JS.abs (Fin v - Fin s)%js) with (Fin (Qabs (v + - s))).
  cbn [gt lt]. by rewrite (proj2 (Qltb_spec 0.1 (Qabs (v + - s))) H).
Qed.

(** One short frame leaves the speed state as it is. *)
Lemma animate_speed_kept (fuel : nat) (st : NavState) (tm l v : Q) :
  isSimulatingMove st = true ->
  navState st = NAVIGATING ->
  (1 < length (routeCoordinates st))%nat ->
  lastTimeRef st = Some (Fin l) ->
  currentSpeed st = Fin v ->
  0.5 <= v -> v <= nominalSpeed (mode st) ->
  l <= tm -> tm <= l + 19 ->
  exists st',
    animate M (S (S fuel)) st (Fin tm) = Done st'
    /\ isSimulatingMove st' = true
    /\ navState st' = NAVIGATING
    /\ routeCoordinates st' = routeCoordinates st
    /\ mode st' = mode st
    /\ lastTimeRef st' = Some (Fin tm)
    /\ currentSpeed st' = Fin v.
Proof.
  intros Hsim Hnav Hlen Hlast Hv Hlo Hhi Ht0 Ht1.
  rewrite (animate_follow _ _ _ _ Hsim Hnav Hlen Hlast).
  destruct (followRoad_total M fuel st (Fin ((tm + - l) / 1000))) as [r Hr]; [lia|].
  rewrite Hr. cbn [bind].
  destruct (followRoad_speed M _ _ _ _ _ _ Hr Hv) as (c & s & Hc & Hs & Hclamp).
  eexists. split; [reflexivity|]. cbn.
  split; [exact Hsim|]. split; [exact Hnav|]. split; [reflexivity|].
  split; [reflexivity|]. split; [reflexivity|].
  rewrite Hv, Hs. apply throttle_keeps.
  set (t := (tm + - l) / 1000) in *.
  assert (Ht : 0 <= t /\ t <= 0.019).
  { unfold t. split.
    - apply Qle_shift_div_l; [reflexivity | lra].
    - apply Qle_shift_div_r; [reflexivity | lra]. }
  set (b := nominalSpeed (mode st)) in *.
  assert (H1 : 0.5 <= s) by (rewrite Hclamp; apply Q.le_max_l).
  assert (H3 : Qmin c b <= s) by (rewrite Hclamp; apply Q.le_max_r).
  assert (H4 : s <= Qmax 0.5 c).
  { rewrite Hclamp. apply Q.max_le_compat_l. apply Q.le_min_l. }
  assert (H5 : v - 0.1 <= Qmin c b).
  { apply Q.min_glb; [destruct Hc as [-> | ->]; lra | lra]. }
  assert (H6 : Qmax 0.5 c <= v + 0.1).
  { apply Q.max_lub; [lra | destruct Hc as [-> | ->]; lra]. }
  apply Qabs_Qle_condition. lra.
Qed.

End ThrottleFacts.

(** X11.  On a display of 60 Hz the speed state of a route-following run
    never changes.  When the frames are at most 19 ms apart and
    [currentSpeed] lies between the 0.5 m/s floor and the nominal speed of
    the mode, every tick computes a speed within [5 * 0.019 = 0.095] m/s of
    it, which the throttled [setCurrentSpeed] discards; the next tick starts
    from the same [currentSpeed] again.  The run returns, and
    [currentSpeed] after any number of such frames is what it was.  (At
    20 ms the braking step is 0.1 m/s itself, and whether the throttle lets
    it pass is decided by the rounding of the subtraction; the bound of
    19 ms stays clear of that.) *)
Theorem currentSpeed_stalls_on_short_frames
    (M : MathLib) (fuel : nat) (times : list Q) (st : NavState) (l v : Q) :
  isSimulatingMove st = true ->
  navState st = NAVIGATING ->
  (1 < length (routeCoordinates st))%nat ->
  lastTimeRef st = Some (Fin l) ->
  currentSpeed st = Fin v ->
  (0.5 <= v)%Q -> (v <= nominalSpeed (mode st))%Q ->
  framesWithin 19 l times ->
  exists st',
    frames M (S (S fuel)) st (map Fin times) = Done st'
    /\ currentSpeed st' = Fin v.
Proof.
  revert st l. induction times as [|tm times IH]; intros st l Hsim Hnav Hlen Hlast Hv Hlo Hhi Hgaps.
  - exists st. split; [reflexivity | exact Hv].
  - destruct Hgaps as (Ht0 & Ht1 & Hrest).
    destruct (animate_speed_kept M fuel st tm l v Hsim Hnav Hlen Hlast Hv Hlo Hhi Ht0 Ht1)
      as (st1 & Hst1 & Hsim1 & Hnav1 & Hroute1 & Hmode1 & Hlast1 & Hv1).
    cbn [map frames]. rewrite Hst1. cbn [bind].
    apply (IH st1 tm); try assumption.
    + by rewrite Hroute1.
    + by rewrite Hmode1.
Qed.

Lemma currentSpeed_stalls_on_short_frames_witness :
  exists st',
    frames approxMath 2 creepingState [Fin 16; Fin 33; Fin 50] = Done st'
    /\ currentSpeed st' = Fin 0.5.
Proof.
  apply (currentSpeed_stalls_on_short_frames approxMath 0 [16; 33; 50]%Q creepingState 0 0.5).
  - reflexivity.
  - reflexivity.
  - cbn. lia.
  - reflexivity.
  - reflexivity.
  - discriminate.
  - discriminate.
  - cbn. repeat split; discriminate.
Defined.

Section IndexFacts.

Variable M : MathLib.

(** One frame keeps the index ref on the route and the state copy in step
    with it. *)
Lemma animate_index_on_route (fuel : nat) (st st' : NavState) (time : number) :
  animate M fuel st time = Done st' ->
  (nextRoutePointIndexRef st <= length (routeCoordinates st) - 1)%nat ->
  nextRoutePointIndex st = nextRoutePointIndexRef st ->
  (nextRoutePointIndexRef st' <= length (routeCoordinates st') - 1)%nat
  /\ nextRoutePointIndex st' = nextRoutePointIndexRef st'.
Proof.
  intros Hst Hle Hsync.
  destruct (animate_index M _ _ _ _ Hst) as (Hroute & Hstep & Hmove).
  rewrite Hroute. split.
  - destruct (decide (nextRoutePointIndexRef st' = nextRoutePointIndexRef st)) as [->|Hne];
      [exact Hle|].
    revert Hst Hne. unfold animate. destruct (lastTimeRef st) as [last|].
    2:{ intros H. apply Done_inj in H. subst st'. cbn. congruence. }
    destruct (isSimulatingMove st && NavigationMode_eqb (navState st) NAVIGATING
              && (1 <? length (routeCoordinates st))%nat).
    + destruct (followRoad M fuel st _ _) as [r| |] eqn:Hr; try discriminate.
      cbn [bind]. intros H. apply Done_inj in H. subst st'. cbn.
      destruct (followRoad_inv M _ _ _ _ _ Hr) as (target & _ & Hidx & _).
      rewrite Hidx. intros Hne.
      destruct (advanceIndex_bounds (calculateDistance M (currentLocation st) target)
                  (currentSpeed st) (length (routeCoordinates st))
                  (nextRoutePointIndexRef st)) as [Hb Hadv].
      destruct (Hadv Hne) as [_ Hlt]. lia.
    + destruct (negb (gpsActive st) || gpsActive st && isSimulatingMove st);
        intros H; apply Done_inj in H; subst st'; cbn; congruence.
  - revert Hst. unfold animate. destruct (lastTimeRef st) as [last|].
    2:{ intros H. apply Done_inj in H. subst st'. cbn. exact Hsync. }
    destruct (isSimulatingMove st && NavigationMode_eqb (navState st) NAVIGATING
              && (1 <? length (routeCoordinates st))%nat).
    + destruct (followRoad M fuel st _ _) as [r| |] eqn:Hr; try discriminate.
      cbn [bind]. intros H. apply Done_inj in H. subst st'.
      cbn [withMotion nextRoutePointIndex nextRoutePointIndexRef].
      destruct (followRoad_inv M _ _ _ _ _ Hr) as (target & _ & Hidx & _).
      destruct (advanceIndex_bounds (calculateDistance M (currentLocation st) target)
                  (currentSpeed st) (length (routeCoordinates st))
                  (nextRoutePointIndexRef st)) as [Hb _].
      rewrite <- Hidx in Hb.
      destruct (Nat.ltb_spec (nextRoutePointIndexRef st) (fr_index r)); [reflexivity|].
      rewrite Hsync. lia.
    + destruct (negb (gpsActive st) || gpsActive st && isSimulatingMove st);
        intros H; apply Done_inj in H; subst st';
        cbn [withMotion nextRoutePointIndex nextRoutePointIndexRef];
        (rewrite Nat.ltb_irrefl; exact Hsync).
Qed.

Lemma frames_index_on_route (fuel : nat) (times : list number) (st st' : NavState) :
  frames M fuel st times = Done st' ->
  (nextRoutePointIndexRef st <= length (routeCoordinates st) - 1)%nat ->
  nextRoutePointIndex st = nextRoutePointIndexRef st ->
  (nextRoutePointIndexRef st' <= length (routeCoordinates st') - 1)%nat
  /\ nextRoutePointIndex st' = nextRoutePointIndexRef st'.
Proof.
  revert st. induction times as [|time times IH]; intros st; simpl.
  - intros H. apply Done_inj in H. subst st'. auto.
  - destruct (animate M fuel st time) as [st1| |] eqn:H1; try discriminate.
    cbn [bind]. intros H Hle Hsync.
    destruct (animate_index_on_route _ _ _ _ H1 Hle Hsync) as [Hle1 Hsync1].
    by apply (IH st1).
Qed.

End IndexFacts.

(** X12.  Once a route of at least two points is installed, the index the
    loop steers for stays on the route: after any number of frames it lies
    between 1 and the index of the last point, so the targeted point exists
    and the clamp of the tick never has to act; and the copy of the index in
    React state, which the maneuver detection reads, equals the ref. *)
Theorem nextRoutePointIndex_stays_on_route
    (M : MathLib) (fuel : nat) (st : NavState) (route : list Coordinates)
    (times : list number) :
  (2 <= length route)%nat ->
  exists st',
    frames M (S (S fuel)) (installRoute st route) times = Done st'
    /\ routeCoordinates st' = route
    /\ (1 <= nextRoutePointIndexRef st' <= length route - 1)%nat
    /\ is_Some (route !! nextRoutePointIndexRef st')
    /\ targetIndex st' = nextRoutePointIndexRef st'
    /\ nextRoutePointIndex st' = nextRoutePointIndexRef st'.
Proof.
  intros Hlen.
  destruct (frames_total M fuel times (installRoute st route)) as [st' Hst'].
  destruct (frames_index M _ _ _ _ Hst') as (Hroute & Hmono & _).
  destruct (frames_index_on_route M _ _ _ _ Hst') as (Hle & Hsync).
  { cbn. lia. } { reflexivity. }
  cbn in Hroute, Hmono. rewrite Hroute in Hle.
  exists st'. split; [exact Hst'|]. split; [exact Hroute|].
  split; [lia|]. split; [apply lookup_lt_is_Some_2; lia|].
  split; [|exact Hsync].
  unfold targetIndex. rewrite Hroute.
  destruct (Nat.leb_spec (length route) (nextRoutePointIndexRef st')); [lia | reflexivity].
Qed.

Lemma nextRoutePointIndex_stays_on_route_witness :
  exists st',
    frames approxMath 2 (installRoute sampleState sampleRoute) [Fin 16; Fin 32] = Done st'
    /\ (1 <= nextRoutePointIndexRef st' <= 4)%nat.
Proof.
  destruct (nextRoutePointIndex_stays_on_route approxMath 0 sampleState sampleRoute
              [Fin 16; Fin 32]) as (st' & H & _ & Hb & _).
  - cbn. lia.
  - exists st'. split; [exact H | exact Hb].
Defined.

(** X13.  Outside route following the speed of a tick is always a finite
    number: the nominal speed of the mode while the movement is simulated,
    0 while GPS is active, and under dead reckoning (no GPS, no simulation)
    either 0 or a walking pace above 0.6 m/s and at most
    [1.5 * WALKING_SPEED_MPS = 2.1] m/s, whatever the accelerometer
    reads and whatever the square root returns. *)
Theorem freeSpeed_cases (M : MathLib) (st : NavState) :
  exists s : Q,
    freeSpeed M st = Fin s
    /\ if isSimulatingMove st then s = nominalSpeed (mode st)
       else if gpsActive st then s = 0%Q
       else (s = 0%Q \/ (0.6 < s)%Q /\ (s <= 2.1)%Q).
Proof.
  unfold freeSpeed. destruct (isSimulatingMove st).
  { exists (nominalSpeed (mode st)). split; [|reflexivity]. by destruct (mode st). }
  destruct (gpsActive st); cbn [negb].
  { exists 0%Q. split; reflexivity. }
  set (m := Math_sqrt M _).
  destruct m as [q| | |]; cbn [gt lt].
  - unfold Qltb. destruct (Qlt_le_dec 1.2 q) as [Hq|Hq].
    + change (WALKING_SPEED_MPS * Fin 1.5)%js with (Fin (1.4 * 1.5)).
      change (Fin q * Fin 0.5)%js with (Fin (q * 0.5)).
      destruct (min_Fin (1.4 * 1.5) (q * 0.5)) as (s & -> & Hs & _).
      exists s. split; [reflexivity|]. right. split.
      * rewrite Hs. apply Q.min_glb_lt; lra.
      * rewrite Hs. eapply Qle_trans; [apply Q.le_min_l | lra].
    + exists 0%Q. split; [reflexivity | by left].
  - exists (1.4 * 1.5)%Q. split; [reflexivity|]. right. split; lra.
  - exists 0%Q. split; [reflexivity | by left].
  - exists 0%Q. split; [reflexivity | by left].
Qed.

Section LookAheadFacts.

Variable M : MathLib.

Local Open Scope Q_scope.

(** A distance is a finite number or [NaN]. *)
Hypothesis distance_finite :
  forall p q, calculateDistance M p q = NaN \/ exists x : Q, calculateDistance M p q = Fin x.

(** One segment of the walk of [getPointAtDist]: either the point lies on
    it, at a ratio between 0 and 1, or the walk goes on with what remains. *)
Lemma segment_step (p1 p2 : Coordinates) (remaining : number) :
  (remaining = NaN \/ exists r : Q, remaining = Fin r /\ 0 < r) ->
  ((remaining <=? calculateDistance M p1 p2)%js = true
   /\ exists ratio : Q,
        (remaining / calculateDistance M p1 p2)%js = Fin ratio /\ 0 <= ratio /\ ratio <= 1)
  \/ ((remaining <=? calculateDistance M p1 p2)%js = false
      /\ ((remaining - calculateDistance M p1 p2)%js = NaN
          \/ exists r : Q, (remaining - calculateDistance M p1 p2)%js = Fin r /\ 0 < r)).
Proof using distance_finite.
  intros [->|(r & -> & Hr)].
  { right. split; [reflexivity|]. left. reflexivity. }
  destruct (distance_finite p1 p2) as [->|(x & ->)].
  { right. split; [reflexivity|]. left. reflexivity. }
  destruct (Qlt_le_dec x r) as [Hlt|Hle].
  - right. split; [by apply le_Fin_false|]. right.
    exists (r + - x). split; [reflexivity | lra].
  - left. split; [by apply le_Fin|].
    assert (Hnz : isZero x = false).
    { unfold isZero. destruct (Qeq_bool x 0) eqn:E; [|reflexivity].
      apply Qeq_bool_iff in E. lra. }
    exists (r / x). cbn [JS.div]. rewrite Hnz. split; [reflexivity|]. split.
    + apply Qle_shift_div_l; lra.
    + apply Qle_shift_div_r; lra.
Qed.

Lemma pointAlong_on_path (route : list Coordinates) (n i : nat) (remaining : number) :
  (i + n = length route - 1)%nat -> (0 < length route)%nat ->
  (remaining = NaN \/ exists r : Q, remaining = Fin r /\ 0 < r) ->
  exists p,
    pointAlong M route n i remaining = Done p
    /\ (last route = Some p
        \/ exists (j : nat) (p1 p2 : Coordinates) (ratio : Q),
             (i <= j)%nat /\ route !! j = Some p1 /\ route !! (j + 1)%nat = Some p2
             /\ 0 <= ratio /\ ratio <= 1
             /\ p = interpolate p1 p2 (Fin ratio)).
Proof using distance_finite.
  revert i remaining. induction n as [|n IH]; intros i remaining Hin Hlen Hrem; simpl.
  - destruct (lookup_lt_is_Some_2 route (length route - 1)) as [p Hp]; [lia|].
    rewrite Hp. exists p. split; [reflexivity|]. left.
    rewrite last_lookup. by replace (pred (length route)) with (length route - 1)%nat by lia.
  - destruct (lookup_lt_is_Some_2 route i) as [p1 Hp1]; [lia|].
    destruct (lookup_lt_is_Some_2 route (i + 1)) as [p2 Hp2]; [lia|].
    rewrite Hp1, Hp2. cbn [defined bind].
    destruct (segment_step p1 p2 remaining Hrem)
      as [(-> & ratio & -> & H0 & H1) | (-> & Hrest)].
    + exists (interpolate p1 p2 (Fin ratio)). split; [reflexivity|]. right.
      exists i, p1, p2, ratio. repeat split; try assumption. lia.
    + destruct (IH (i + 1)%nat _ ltac:(lia) Hlen Hrest) as (p & Hp & Hshape).
      exists p. split; [exact Hp|].
      destruct Hshape as [Hlast|(j & q1 & q2 & ratio & Hj & Hq1 & Hq2 & H0 & H1 & ->)].
      * by left.
      * right. exists j, q1, q2, ratio. repeat split; try assumption. lia.
Qed.

End LookAheadFacts.

(** X14.  The look-ahead point lies on the path ahead.  For a positive
    look-ahead distance and finite (or [NaN]) segment lengths,
    [getPointAtDist] returns either the last point of the route, or a point
    interpolated at a ratio between 0 and 1 between the current location and
    the targeted route point, or between two consecutive route points at or
    after the targeted one. *)
Theorem getPointAtDist_on_path
    (M : MathLib) (loc : Coordinates) (route : list Coordinates) (nextIdx : nat) (d : Q) :
  (forall p q,
      calculateDistance M p q = NaN \/ exists x : Q, calculateDistance M p q = Fin x) ->
  (nextIdx < length route)%nat ->
  (0 < d)%Q ->
  exists p,
    getPointAtDist M loc route nextIdx (Fin d) = Done p
    /\ (last route = Some p
        \/ exists (p1 p2 : Coordinates) (ratio : Q),
             (0 <= ratio)%Q /\ (ratio <= 1)%Q
             /\ p = interpolate p1 p2 (Fin ratio)
             /\ (p1 = loc /\ route !! nextIdx = Some p2
                 \/ exists j : nat,
                      (nextIdx <= j)%nat
                      /\ route !! j = Some p1 /\ route !! (j + 1)%nat = Some p2)).
Proof.
  intros Hdist Hidx Hd. unfold getPointAtDist.
  destruct (lookup_lt_is_Some_2 route nextIdx Hidx) as [p2 Hp2]. rewrite Hp2.
  cbn [defined bind].
  destruct (segment_step M Hdist loc p2 (Fin d)) as [(-> & ratio & -> & H0 & H1) | (-> & Hrest)].
  { right. exists d. split; [reflexivity | exact Hd]. }
  - exists (interpolate loc p2 (Fin ratio)). split; [reflexivity|]. right.
    exists loc, p2, ratio. repeat split; try assumption. by left.
  - destruct (pointAlong_on_path M Hdist route (length route - 1 - nextIdx) nextIdx _
                ltac:(lia) ltac:(lia) Hrest) as (p & Hp & Hshape).
    exists p. split; [exact Hp|].
    destruct Hshape as [Hlast|(j & q1 & q2 & ratio & Hj & Hq1 & Hq2 & H0 & H1 & ->)].
    + by left.
    + right. exists q1, q2, ratio. repeat split; try assumption. right. by exists j.
Qed.

Lemma getPointAtDist_on_path_witness :
  exists p,
    getPointAtDist flatMath (currentLocation sampleState) sampleRoute 1 (Fin 10) = Done p
    /\ (last sampleRoute = Some p
        \/ exists (p1 p2 : Coordinates) (ratio : Q),
             (0 <= ratio)%Q /\ (ratio <= 1)%Q
             /\ p = interpolate p1 p2 (Fin ratio)
             /\ (p1 = currentLocation sampleState /\ sampleRoute !! 1%nat = Some p2
                 \/ exists j : nat,
                      (1 <= j)%nat
                      /\ sampleRoute !! j = Some p1 /\ sampleRoute !! (j + 1)%nat = Some p2)).
Proof.
  apply (getPointAtDist_on_path flatMath (currentLocation sampleState) sampleRoute 1 10).
  - intros p q. right. eexists. reflexivity.
  - cbn. lia.
  - reflexivity.
Defined.

Section AnnouncedFacts.

Variable M : MathLib.

Lemma pathLength_snoc (route : list Coordinates) (idx n : nat) :
  pathLength M route idx (S n)
  = (pathLength M route idx n + segmentLength M route (idx + n))%js.
Proof.
  unfold pathLength. rewrite seq_S, foldl_app. reflexivity.
Qed.

(** The look-ahead loop, started with [k0] segments already summed. *)
Lemma scanLoop_distance (fuel : nat) (route : list Coordinates) (idx : nat)
    (distToTurn : number) (n k0 : nat) (visited : list nat) :
  (idx + k0 + n + 2 <= length route)%nat ->
  exists (r : ScanResult) (k : nat),
    scanLoop M (S (S fuel)) route n (idx + k0) distToTurn
      (pathLength M route idx k0) visited = Done r
    /\ (k0 <= k <= k0 + n)%nat
    /\ sr_lookAheadDist r = pathLength M route idx k
    /\ (forall j, (k0 <= j < k)%nat ->
        exists diff,
          bearingChange M (S (S fuel)) route (idx + j) = Done diff
          /\ (JS.abs diff >? Fin 30)%js = false)
    /\ (sr_maneuverFound r = false ->
        sr_visited r = visited ++ seq (idx + k0) (k - k0)
        /\ sr_distToTurn r = distToTurn
        /\ sr_mType r = "straight")
    /\ (sr_maneuverFound r = true ->
        sr_visited r = visited ++ seq (idx + k0) (k - k0 + 1)
        /\ sr_distToTurn r = (distToTurn + pathLength M route idx k)%js
        /\ exists diff : number,
             bearingChange M (S (S fuel)) route (idx + k) = Done diff
             /\ (JS.abs diff >? Fin 30)%js = true
             /\ (sr_mType r, sr_mText r) = classifyTurn diff).
Proof.
  revert k0 visited. induction n as [|n IH]; intros k0 visited Hlen.
  - eexists _, k0. cbn [scanLoop sr_lookAheadDist sr_maneuverFound sr_visited
                        sr_distToTurn sr_mType].
    split; [reflexivity|]. split; [lia|]. split; [reflexivity|].
    split; [intros j Hj; lia|]. split.
    + intros _. rewrite Nat.sub_diag. cbn [seq]. by rewrite app_nil_r.
    + discriminate.
  - cbn [scanLoop].
    destruct (pathLength M route idx k0 >? MAX_LOOKAHEAD)%js.
    { eexists _, k0. cbn [sr_lookAheadDist sr_maneuverFound sr_visited
                          sr_distToTurn sr_mType].
      split; [reflexivity|]. split; [lia|]. split; [reflexivity|].
      split; [intros j Hj; lia|]. split.
      + intros _. rewrite Nat.sub_diag. cbn [seq]. by rewrite app_nil_r.
      + discriminate. }
    destruct (lookup_lt_is_Some_2 route (idx + k0)) as [pCurrent Hc]; [lia|].
    destruct (lookup_lt_is_Some_2 route (idx + k0 + 1)) as [pNext Hn]; [lia|].
    destruct (lookup_lt_is_Some_2 route (idx + k0 + 2)) as [pAfter Ha]; [lia|].
    rewrite Hc, Hn, Ha. cbn [defined bind].
    destruct (normalizeAngle_wrapped fuel
                (calculateBearing M pNext pAfter) (calculateBearing M pCurrent pNext)
                (calculateBearing_shape M _ _) (calculateBearing_shape M _ _))
      as [diff Hdiff].
    assert (Hchange : bearingChange M (S (S fuel)) route (idx + k0) = Done diff).
    { unfold bearingChange. rewrite Hc, Hn, Ha. exact Hdiff. }
    rewrite Hdiff. cbn [bind].
    destruct (JS.abs diff >? Fin 30)%js eqn:Hturn.
    + destruct (classifyTurn diff) as [mType mText] eqn:Hclass.
      eexists _, k0. cbn [sr_lookAheadDist sr_maneuverFound sr_visited
                          sr_distToTurn sr_mType sr_mText].
      split; [reflexivity|]. split; [lia|]. split; [reflexivity|].
      split; [intros j Hj; lia|]. split; [discriminate|].
      intros _. rewrite Nat.sub_diag. cbn [Nat.add seq].
      split; [reflexivity|]. split; [reflexivity|].
      exists diff. by rewrite Hclass.
    + assert (Hseg : calculateDistance M pCurrent pNext = segmentLength M route (idx + k0)).
      { unfold segmentLength. by rewrite Hc, Hn. }
      rewrite Hseg, <- pathLength_snoc.
      replace (idx + k0 + 1)%nat with (idx + S k0)%nat by lia.
      destruct (IH (S k0) (visited ++ [(idx + k0)%nat]))
        as (r & k & Hr & Hk & Hlook & Hbefore & Hno & Hyes); [lia|].
      exists r, k. split; [exact Hr|]. split; [lia|]. split; [exact Hlook|]. split.
      { intros j Hj. destruct (decide (j = k0)) as [->|Hne].
        - exists diff. by split.
        - apply Hbefore. lia. }
      split.
      * intros Hf. destruct (Hno Hf) as (Hv & Hd & Ht). split; [|by split].
        rewrite Hv, <- app_assoc. f_equal.
        replace (k - k0)%nat with (S (k - S k0)) by lia. cbn [seq app].
        by replace (idx + S k0)%nat with (S (idx + k0)) by lia.
      * intros Hf. destruct (Hyes Hf) as (Hv & Hd & Hcorner). split; [|by split].
        rewrite Hv, <- app_assoc. f_equal.
        replace (k - k0 + 1)%nat with (S (k - S k0 + 1)) by lia. cbn [seq app].
        by replace (idx + S k0)%nat with (S (idx + k0)) by lia.
Qed.

End AnnouncedFacts.

(** X15.  The distance announced with a turn is measured to the route
    point before the corner.  The look-ahead passes the indices from the
    targeted one, [index], for as long as the change of bearing at the
    point after each is at most 30 degrees.  When it stops at [index + k]
    with a turn, that turn is the change of bearing at point
    [index + k + 1]; the announced distance is the direct distance to the
    targeted point plus the lengths of the [k] segments from [index] to
    [index + k]: the segment that leads on to the corner is not counted.
    When no turn is found the loop leaves the sum of the segments it
    passed. *)
Theorem scanAhead_announced_distance
    (M : MathLib) (fuel : nat) (loc : Coordinates) (route : list Coordinates) (idx : nat) :
  (idx < length route - 1)%nat ->
  exists (r : ScanResult) (k : nat) (first : Coordinates),
    scanAhead M (S (S fuel)) loc route idx = Done r
    /\ route !! idx = Some first
    /\ sr_lookAheadDist r = pathLength M route idx k
    /\ (forall j, (j < k)%nat ->
        exists diff,
          bearingChange M (S (S fuel)) route (idx + j) = Done diff
          /\ (JS.abs diff >? Fin 30)%js = false)
    /\ (sr_maneuverFound r = false -> sr_visited r = seq idx k /\ sr_mType r = "straight")
    /\ (sr_maneuverFound r = true ->
        sr_visited r = seq idx (k + 1)
        /\ sr_distToTurn r
           = (calculateDistance M loc first + pathLength M route idx k)%js
        /\ exists diff : number,
             bearingChange M (S (S fuel)) route (idx + k) = Done diff
             /\ (JS.abs diff >? Fin 30)%js = true
             /\ (sr_mType r, sr_mText r) = classifyTurn diff).
Proof.
  intros Hidx. unfold scanAhead.
  destruct (lookup_lt_is_Some_2 route idx) as [first Hf]; [lia|].
  rewrite Hf. cbn [defined bind].
  destruct (scanLoop_distance M fuel route idx (calculateDistance M loc first)
              (Nat.min (length route - 2) (idx + 30) - idx) 0 [])
    as (r & k & Hr & Hk & Hlook & Hbefore & Hno & Hyes); [lia|].
  rewrite Nat.add_0_r in Hr, Hno, Hyes. rewrite Nat.sub_0_r in Hno, Hyes.
  exists r, k, first. split; [exact Hr|]. split; [reflexivity|]. split; [exact Hlook|].
  split; [intros j Hj; apply Hbefore; lia|].
  split.
  - intros H. destruct (Hno H) as (Hv & _ & Ht). by split.
  - exact Hyes.
Qed.

Lemma scanAhead_announced_distance_witness :
  exists (r : ScanResult) (k : nat) (first : Coordinates),
    scanAhead approxMath 2 (currentLocation sampleState) sampleRoute 1 = Done r
    /\ sampleRoute !! 1%nat = Some first
    /\ sr_lookAheadDist r = pathLength approxMath sampleRoute 1 k.
Proof.
  destruct (scanAhead_announced_distance approxMath 0 (currentLocation sampleState)
              sampleRoute 1) as (r & k & first & Hr & Hf & Hl & _).
  - cbn. lia.
  - exists r, k, first. repeat split; assumption.
Defined.

(* ===================================================================== *)
(** ** App.tsx: track recording and estimated time of arrival *)
(* ===================================================================== *)

Section RecorderFacts.

Variable M : MathLib.

Lemma spaced_snoc (track : list Coordinates) (p q : Coordinates) :
  spaced M track -> last track = Some p ->
  (calculateDistance M q p >? Fin 5)%js = true ->
  spaced M (track ++ [q]).
Proof.
  induction track as [|a [|b rest] IH]; intros Hs Hl Hd.
  - discriminate.
  - cbn in Hl. injection Hl as ->. cbn. by split.
  - destruct Hs as [Hab Hs]. cbn [app]. split; [exact Hab|].
    apply IH; [exact Hs | exact Hl | exact Hd].
Qed.

(** The recorder keeps its track spaced and remembers its last point. *)
Lemma recorderStep_inv (r : Recorder) (ev : RecorderEvent) :
  spaced M (recordedTrack r) /\ lastRecordPos r = last (recordedTrack r) ->
  spaced M (recordedTrack (recorderStep M r ev))
  /\ lastRecordPos (recorderStep M r ev) = last (recordedTrack (recorderStep M r ev)).
Proof.
  intros [Hs Hl]. destruct ev as [loc|loc]; cbn [recorderStep].
  - unfold handleToggleRecording. destruct (isRecording r); cbn; auto.
  - unfold recordTrack. destruct (isRecording r); [|auto].
    destruct (lastRecordPos r) as [p|] eqn:Hp.
    + destruct (calculateDistance M loc p >? Fin 5)%js eqn:Hd; [|rewrite Hp; auto].
      cbn [recordedTrack lastRecordPos]. split.
      * by apply (spaced_snoc _ p).
      * by rewrite last_snoc.
    + destruct (Fin 100 >? Fin 5)%js; [|rewrite Hp; auto].
      cbn [recordedTrack lastRecordPos].
      assert (Hnil : recordedTrack r = []) by (apply last_None; congruence).
      rewrite Hnil. split; [exact I | reflexivity].
Qed.

End RecorderFacts.

(** X16.  A recorded track never holds two consecutive points that are
    5 meters apart or less.  Whatever the sequence of presses of the record
    button and of frames, and wherever they happen, each point of the track
    is more than 5 meters (as [calculateDistance] measures it) from the
    point recorded before it; and a press that starts a recording resets the
    track to the current location alone. *)
Theorem recordedTrack_spaced (M : MathLib) (events : list RecorderEvent) :
  spaced M (recordedTrack (foldl (recorderStep M) initialRecorder events))
  /\ forall (r : Recorder) (loc : Coordinates),
       isRecording r = false ->
       recordedTrack (handleToggleRecording loc r) = [loc]
       /\ isRecording (handleToggleRecording loc r) = true.
Proof.
  split.
  - assert (Hgen : forall r,
      spaced M (recordedTrack r) /\ lastRecordPos r = last (recordedTrack r) ->
      spaced M (recordedTrack (foldl (recorderStep M) r events))).
    { induction events as [|ev evs IH]; intros r Hr; cbn [foldl]; [tauto|].
      apply IH. by apply recorderStep_inv. }
    apply Hgen. split; [exact I | reflexivity].
  - intros r loc Hr. unfold handleToggleRecording. by rewrite Hr.
Qed.

(** Truncation agrees with the floor on what is not negative. *)
Lemma truncQ_nonneg (q : Q) : (0 <= q)%Q -> truncQ q = Qfloor q.
Proof.
  destruct q as [n d]. unfold truncQ, Qfloor, Qle. simpl. intros H.
  apply Z.quot_div_nonneg; lia.
Qed.

Lemma Qfloor_Z_div (m : Z) (k : positive) :
  Qfloor (inject_Z m / inject_Z (Zpos k))%Q = (m / Zpos k)%Z.
Proof. symmetry. apply Zdiv_Qdiv. Qed.

(** X17.  The estimate never divides by a speed below 0.5 m/s: a slower (or
    negative) current speed is replaced by the nominal speed of the
    transport mode.  For a distance that is not negative, when the travel
    time in minutes lies between [m - 1] and [m] and is clear of both by a
    billionth of itself (so that the rounding of the two divisions cannot
    carry it across a whole number), the duration is [m] minutes; it is
    shown as "[m] min" below one hour and as "[m/60]h [m mod 60]m" from one
    hour on, and the arrival offset is the travel time in milliseconds. *)
Theorem etaDetails_duration
    (toString : number -> string) (d v : Q) (mode : TransportMode) (m : Z) :
  (0 <= d)%Q ->
  (inject_Z m - 1 < d / effectiveSpeedOf v mode / 60 * 0.999999999)%Q ->
  (d / effectiveSpeedOf v mode / 60 * 1.000000001 <= inject_Z m)%Q ->
  (0.5 <= effectiveSpeedOf v mode)%Q
  /\ (0 <= m)%Z
  /\ arrivalOffset (etaDetails toString (Fin d) (Fin v) mode)
     = Fin (d / effectiveSpeedOf v mode * 1000)
  /\ durationText (etaDetails toString (Fin d) (Fin v) mode)
     = if (m <? 60)%Z
       then (toString (Fin (inject_Z m)) ++ " min")%string
       else (toString (Fin (inject_Z (m / 60))) ++ "h "
             ++ toString (Fin (inject_Z (m mod 60))) ++ "m")%string.
Proof.
  intros Hd Hlow Hhigh.
  set (eff := effectiveSpeedOf v mode) in *.
  assert (Hhalf : (0.5 <= eff)%Q).
  { unfold eff, effectiveSpeedOf. destruct (Qlt_le_dec v 0.5) as [Hs|Hf]; [|exact Hf].
    destruct mode; cbn [nominalSpeed]; lra. }
  assert (Hsel :
    (if (Fin v <? Fin 0.5)%js
     then match mode with
          | WALK => WALKING_SPEED_MPS | BIKE => BIKE_SPEED_MPS | CAR => CAR_SPEED_MPS
          end
     else Fin v) = Fin eff).
  { unfold eff, effectiveSpeedOf. cbn [lt]. unfold Qltb.
    destruct (Qlt_le_dec v 0.5); [by destruct mode | reflexivity]. }
  assert (Hnz : isZero eff = false).
  { unfold isZero. destruct (Qeq_bool eff 0) eqn:E; [|reflexivity].
    apply Qeq_bool_iff in E. lra. }
  assert (Hq0 : (0 <= d / eff / 60)%Q).
  { apply Qle_shift_div_l; [reflexivity|]. apply Qle_shift_div_l; lra. }
  assert (Hm : Qceiling (d / eff / 60) = m).
  { pose proof (Qle_ceiling (d / eff / 60)) as Hc.
    pose proof (Qceiling_lt (d / eff / 60)) as Hl.
    unfold Z.sub in Hl. rewrite inject_Z_plus, inject_Z_opp in Hl.
    change (inject_Z 1) with 1%Q in Hl.
    set (x := (d / eff / 60)%Q) in *.
    assert (H1 : (inject_Z (Qceiling x) < inject_Z (m + 1))%Q).
    { rewrite inject_Z_plus. change (inject_Z 1) with 1%Q. lra. }
    assert (H2 : (inject_Z (m - 1) < inject_Z (Qceiling x))%Q).
    { unfold Z.sub. rewrite inject_Z_plus, inject_Z_opp. change (inject_Z 1) with 1%Q. lra. }
    rewrite <- Zlt_Qlt in H1, H2. lia. }
  assert (Hm0 : (0 <= m)%Z).
  { assert (H1 : (inject_Z (-1) < inject_Z m)%Q) by (change (inject_Z (-1)) with (-1)%Q; lra).
    rewrite <- Zlt_Qlt in H1. lia. }
  split; [exact Hhalf|]. split; [exact Hm0|].
  unfold etaDetails. rewrite Hsel.
  assert (Hsec : (Fin d / Fin eff)%js = Fin (d / eff)).
  { cbn [JS.div]. by rewrite Hnz. }
  rewrite Hsec.
  change (Fin (d / eff) / Fin 60)%js with (Fin (d / eff / 60)).
  cbn [Math_ceil arrivalOffset durationText]. rewrite Hm.
  split; [reflexivity|].
  change (Fin (inject_Z m) / Fin 60)%js with (Fin (inject_Z m / inject_Z 60)).
  cbn [Math_floor]. rewrite Qfloor_Z_div.
  cbn [gt lt]. unfold Qltb.
  change 0%Q with (inject_Z 0).
  destruct (Qlt_le_dec (inject_Z 0) (inject_Z (m / 60))) as [Hh|Hh].
  - rewrite <- Zlt_Qlt in Hh.
    assert (Hm60 : (60 <= m)%Z).
    { destruct (Z.lt_ge_cases m 60) as [Hlt|]; [|done].
      rewrite Z.div_small in Hh by lia. lia. }
    rewrite (proj2 (Z.ltb_ge m 60)) by exact Hm60.
    do 3 f_equal.
    cbn [JS.rem]. change (isZero 60) with false. cbv iota.
    change (inject_Z m / 60)%Q with (inject_Z m / inject_Z 60)%Q.
    rewrite truncQ_nonneg.
    2:{ apply Qle_shift_div_l; [reflexivity|].
        change (0 * inject_Z 60)%Q with (inject_Z 0). rewrite <- Zle_Qle. lia. }
    rewrite Qfloor_Z_div.
    f_equal. unfold Qminus, Qplus, Qmult, Qopp, inject_Z. cbn.
    change (1 * (1 * 1))%positive with 1%positive.
    change (Z.pos (1 * 1)) with 1%Z.
    rewrite (Z.mod_eq m 60) by lia.
    apply (f_equal (fun z => Fin (Qmake z 1))). lia.
  - rewrite <- Zle_Qle in Hh.
    assert (Hm60 : (m < 60)%Z).
    { destruct (Z.lt_ge_cases m 60) as [|Hge]; [done|].
      assert (1 <= m / 60)%Z by (apply Z.div_le_lower_bound; lia). lia. }
    by rewrite (proj2 (Z.ltb_lt m 60)) by exact Hm60.
Qed.

(** Eleven kilometers by car from standstill: 1000 s, shown as 17 minutes. *)
Lemma etaDetails_duration_witness :
  (0.5 <= effectiveSpeedOf 0 CAR)%Q
  /\ (0 <= 17)%Z
  /\ arrivalOffset (etaDetails (fun _ => "n") (Fin 11100) (Fin 0) CAR)
     = Fin (11100 / effectiveSpeedOf 0 CAR * 1000)
  /\ durationText (etaDetails (fun _ => "n") (Fin 11100) (Fin 0) CAR) = "n min".
Proof.
  apply (etaDetails_duration (fun _ => "n") 11100 0 CAR 17);
    [discriminate | reflexivity | discriminate].
Defined.

(* ===================================================================== *)
(** ** Sensor calibration *)
(* ===================================================================== *)

(** X18.  "Set North" followed by saving makes the current reading north:
    with the offset it stores, the previewed heading, the heading the
    navigation loop computes and the heading the map is given are all 0 for
    the raw reading at hand (a finite angle, [NaN] or no reading at all);
    the acceleration offsets are kept. *)
Theorem handleSetNorth_zeroes_heading
    (rawSensors : SensorReadings) (prev : SensorCalibration) (a : option (option Q)) :
  alpha rawSensors = reading a ->
  let cal := handleSetNorth rawSensors prev in
  (calAlpha rawSensors cal ≈ Fin 0)%js
  /\ (sensorHeading rawSensors cal ≈ Fin 0)%js
  /\ (mapHeading rawSensors cal ≈ Fin 0)%js
  /\ accXOffset cal = accXOffset prev
  /\ accYOffset cal = accYOffset prev
  /\ accZOffset cal = accZOffset prev.
Proof.
  intros Ha cal.
  assert (Hwrap : forall b : Q, ((Fin b + JS.neg (Fin b) + Fin 360) %% Fin 360 ≈ Fin 0)%js).
  { intros b. apply rem360_turn. lra. }
  assert (Hraw : exists b : Q, (alpha rawSensors ||| Fin 0)%js = Fin b).
  { rewrite Ha. apply orElse_reading. }
  destruct Hraw as [b Hb].
  assert (Hcal : (calAlpha rawSensors cal ≈ Fin 0)%js).
  { unfold calAlpha, cal, handleSetNorth. cbn [alphaOffset]. rewrite Hb. apply Hwrap. }
  split; [exact Hcal|]. split; [exact Hcal|].
  split; [|by cbn].
  unfold mapHeading, calibratedSensors. cbn [alpha].
  unfold cal, handleSetNorth. cbn [alphaOffset]. rewrite Hb.
  rewrite Ha in Hb |- *.
  destruct a as [[q|]|]; cbn [reading] in *; [|reflexivity..].
  destruct (orElse_Fin q) as (b' & Hb' & Hbq). rewrite Hb' in Hb.
  injection Hb as <-.
  assert (Hz : ((Fin q + JS.neg (Fin b') + Fin 360) %% Fin 360 ≈ Fin 0)%js).
  { apply rem360_turn. lra. }
  destruct ((Fin q + JS.neg (Fin b') + Fin 360) %% Fin 360)%js as [r| | |] eqn:Er;
    try contradiction.
  cbn [eqv] in Hz. cbn [orElse truthy]. unfold isZero.
  rewrite (proj2 (Qeq_bool_iff r 0) Hz). reflexivity.
Qed.

Lemma handleSetNorth_zeroes_heading_witness :
  let rawSensors := {| alpha := Some (Fin 123.5); beta := None; gamma := None;
                       accX := None; accY := None; accZ := None |} in
  let prev := {| alphaOffset := Fin 10; accXOffset := Fin 0;
                 accYOffset := Fin 0; accZOffset := Fin 0 |} in
  (sensorHeading rawSensors (handleSetNorth rawSensors prev) ≈ Fin 0)%js.
Proof.
  intros rawSensors prev.
  apply (handleSetNorth_zeroes_heading rawSensors prev (Some (Some 123.5%Q))).
  reflexivity.
Defined.

(** X19.  "Zero accelerometer" followed by saving puts the device at rest:
    the previewed accelerations are 0 for the readings at hand, and while
    the readings stay the same a dead-reckoning frame (no GPS, no
    simulation) computes speed 0 and leaves the location where it is,
    provided the square root of zero is not above the 1.2 threshold.  The
    compass offset is kept. *)
Theorem handleZeroAccel_rests
    (M : MathLib) (fuel : nat) (st : NavState) (x y z : option (option Q)) (last time : number) :
  accX (sensors st) = reading x ->
  accY (sensors st) = reading y ->
  accZ (sensors st) = reading z ->
  isSimulatingMove st = false ->
  gpsActive st = false ->
  lastTimeRef st = Some last ->
  (forall q : Q, (q == 0)%Q -> (Math_sqrt M (Fin q) >? Fin 1.2)%js = false) ->
  let cal := handleZeroAccel (sensors st) (calibration st) in
  (calAccX (sensors st) cal ≈ Fin 0)%js
  /\ (calAccY (sensors st) cal ≈ Fin 0)%js
  /\ (calAccZ (sensors st) cal ≈ Fin 0)%js
  /\ alphaOffset cal = alphaOffset (calibration st)
  /\ freeSpeed M (saveCalibration st cal) = Fin 0
  /\ exists st',
       animate M fuel (saveCalibration st cal) time = Done st'
       /\ currentLocation st' = currentLocation st.
Proof.
  intros Hx Hy Hz Hsim Hgps Hlast Hsqrt cal.
  destruct (orElse_reading x) as [bx Hbx]. rewrite <- Hx in Hbx.
  destruct (orElse_reading y) as [by_ Hby]. rewrite <- Hy in Hby.
  destruct (orElse_reading z) as [bz Hbz]. rewrite <- Hz in Hbz.
  assert (Hfree : freeSpeed M (saveCalibration st cal) = Fin 0).
  { unfold freeSpeed. cbn [saveCalibration isSimulatingMove gpsActive sensors calibration].
    rewrite Hsim, Hgps. cbn [negb].
    unfold cal, handleZeroAccel. cbn [accXOffset accYOffset]. rewrite Hbx, Hby.
    change ((Fin bx - Fin bx) * (Fin bx - Fin bx) + (Fin by_ - Fin by_) * (Fin by_ - Fin by_))%js
      with (Fin ((bx + - bx) * (bx + - bx) + (by_ + - by_) * (by_ + - by_))).
    rewrite Hsqrt; [reflexivity | ring]. }
  split; [|split; [|split; [|split; [|split]]]].
  - unfold calAccX, cal, handleZeroAccel. cbn [accXOffset]. rewrite Hbx. cbn. ring.
  - unfold calAccY, cal, handleZeroAccel. cbn [accYOffset]. rewrite Hby. cbn. ring.
  - unfold calAccZ, cal, handleZeroAccel. cbn [accZOffset]. rewrite Hbz. cbn. ring.
  - reflexivity.
  - exact Hfree.
  - unfold animate.
    cbn [saveCalibration lastTimeRef isSimulatingMove navState routeCoordinates gpsActive].
    rewrite Hlast, Hsim, Hgps. cbn [andb negb orb].
    change (freeSpeed M _) with (freeSpeed M (saveCalibration st cal)) at 1.
    eexists. split; [reflexivity|].
    cbn [withMotion currentLocation].
    change (freeSpeed M _) with (freeSpeed M (saveCalibration st cal)).
    rewrite Hfree. reflexivity.
Qed.

Lemma handleZeroAccel_rests_witness :
  let st :=
    {| currentLocation := currentLocation sampleState;
       currentSpeed := Fin 0;
       routeCoordinates := [];
       nextRoutePointIndexRef := 1;
       nextRoutePointIndex := 1;
       gpsActive := false;
       isSimulatingMove := false;
       mode := WALK;
       navState := IDLE;
       sensors := {| alpha := Some (Fin 90); beta := None; gamma := None;
                     accX := Some (Fin 0.3); accY := Some (Fin (-0.2));
                     accZ := Some (Fin 9.8) |};
       calibration := calibration sampleState;
       lastTimeRef := Some (Fin 0) |} in
  freeSpeed approxMath (saveCalibration st (handleZeroAccel (sensors st) (calibration st)))
  = Fin 0.
Proof.
  intros st.
  apply (handleZeroAccel_rests approxMath 2 st
           (Some (Some 0.3%Q)) (Some (Some (-0.2)%Q)) (Some (Some 9.8%Q)) (Fin 0) (Fin 16));
    try reflexivity.
  intros q Hq. cbn [approxMath Math_sqrt]. unfold Qltb.
  destruct (Qlt_le_dec q 0) as [Hn|Hp]; [reflexivity|].
  unfold Approx.sqrtQ. rewrite (proj2 (Qle_bool_iff q 0)) by (rewrite Hq; discriminate).
  reflexivity.
Defined.

(** X20.  The heading the map shows and the heading the loop moves along
    agree whenever the compass gives a finite reading.  Without a reading
    ([null]) they differ: the map is given 0, the loop uses the wrapped
    calibration offset. *)
Theorem mapHeading_agrees_with_sensorHeading
    (s : SensorReadings) (c : SensorCalibration) :
  (forall a o : Q,
      alpha s = Some (Fin a) -> alphaOffset c = Fin o ->
      (mapHeading s c ≈ sensorHeading s c)%js)
  /\ (alpha s = None ->
      mapHeading s c = Fin 0
      /\ sensorHeading s c = ((Fin 0 + alphaOffset c + Fin 360) %% Fin 360)%js).
Proof.
  split.
  - intros a o Ha Ho. unfold mapHeading, sensorHeading, calibratedSensors.
    cbn [alpha]. rewrite Ha, Ho.
    destruct (orElse_Fin a) as (b & -> & Hb).
    change (Fin b + Fin o + Fin 360)%js with (Fin (b + o + 360)).
    change (Fin a + Fin o + Fin 360)%js with (Fin (a + o + 360)).
    assert (Hrem : (Fin (a + o + 360) %% Fin 360 ≈ Fin (b + o + 360) %% Fin 360)%js).
    { apply rem360_proper. by rewrite Hb. }
    destruct (rem360_spec (a + o + 360)) as (r & k & Hr & _).
    rewrite Hr in Hrem |- *.
    destruct (orElse_Fin r) as (r' & -> & Hr').
    eapply eqv_trans; [|exact Hrem]. exact Hr'.
  - intros Ha. unfold mapHeading, sensorHeading, calibratedSensors. cbn [alpha].
    by rewrite Ha.
Qed.

(* ===================================================================== *)
(** ** components/MapView.tsx and components/Speedometer.tsx *)
(* ===================================================================== *)

(** X21.  The rotation of the user marker takes the shortest way round
    only while the accumulated rotation has not run far below zero.  For a
    heading from 0 up to 360 the marker lands on the heading modulo 360 and
    never turns by more than 180 degrees anticlockwise; it turns by at most
    180 degrees clockwise exactly when the heading is at most 540 degrees
    ahead of the accumulated rotation reduced with [%], which holds whenever
    the accumulated rotation is not negative.  Beyond that (a rotation
    reduced to less than -180, and a heading more than 540 ahead of it) the
    single correction by 360 leaves a turn of more than 180 degrees: the
    long way round. *)
Theorem updateVisualHeading_shortest_way (visual heading : Q) :
  (0 <= heading)%Q -> (heading < 360)%Q ->
  exists (m diff r : Q) (j : Z),
    (Fin visual %% Fin 360)%js = Fin m
    /\ updateVisualHeading (Fin visual) (Fin heading) = Fin r
    /\ (r == visual + diff)%Q
    /\ (r == heading + 360 * inject_Z j)%Q
    /\ (-180 <= diff)%Q
    /\ ((diff <= 180)%Q <-> (heading - m <= 540)%Q)
    /\ ((0 <= visual)%Q -> (heading - m <= 540)%Q).
Proof.
  intros Hh0 Hh360. unfold updateVisualHeading.
  destruct (rem360_spec visual) as (m & k & Hrem & Hm & Hlo & Hhi & Hpos).
  rewrite Hrem.
  change (Fin heading - Fin m)%js with (Fin (heading + - m)).
  unfold gt, lt, Qltb.
  destruct (Qlt_le_dec 180 (heading + - m)) as [Hbig|Hsmall].
  - change (Fin (heading + - m) - Fin 360)%js with (Fin (heading + - m + - 360)).
    cbn [lt]. unfold Qltb.
    destruct (Qlt_le_dec (heading + - m + - 360) (-180)) as [Hneg|Hok]; [lra|].
    exists m, (heading + - m + - 360)%Q, (visual + (heading + - m + - 360))%Q, (k - 1)%Z.
    split; [reflexivity|]. split; [reflexivity|]. split; [reflexivity|].
    unfold Z.sub. rewrite inject_Z_plus, inject_Z_opp. change (inject_Z 1) with 1%Q.
    split; [lra|]. split; [lra|]. split; [split; intros; lra|].
    intros Hv. specialize (Hpos Hv). lra.
  - cbn [lt]. unfold Qltb.
    destruct (Qlt_le_dec (heading + - m) (-180)) as [Hneg|Hok].
    + exists m, (heading + - m + 360)%Q, (visual + (heading + - m + 360))%Q, (k + 1)%Z.
      split; [reflexivity|]. split; [reflexivity|]. split; [reflexivity|].
      rewrite inject_Z_plus. change (inject_Z 1) with 1%Q.
      split; [lra|]. split; [lra|]. split; [split; intros; lra|].
      intros Hv. lra.
    + exists m, (heading + - m)%Q, (visual + (heading + - m))%Q, k.
      split; [reflexivity|]. split; [reflexivity|]. split; [reflexivity|].
      split; [lra|]. split; [lra|]. split; [split; intros; lra|].
      intros Hv. lra.
Qed.

Lemma updateVisualHeading_shortest_way_witness :
  exists (m diff r : Q) (j : Z),
    (Fin (-200) %% Fin 360)%js = Fin m
    /\ updateVisualHeading (Fin (-200)) (Fin 350) = Fin r
    /\ (r == -200 + diff)%Q
    /\ (r == 350 + 360 * inject_Z j)%Q
    /\ (-180 <= diff)%Q
    /\ ((diff <= 180)%Q <-> (350 - m <= 540)%Q)
    /\ ((0 <= -200)%Q -> (350 - m <= 540)%Q).
Proof.
  apply (updateVisualHeading_shortest_way (-200) 350); [discriminate | reflexivity].
Defined.

(** X22.  The needle of the speedometer stays on the dial: for every speed
    other than [NaN] the displayed speed lies between 0 and 60 km/h and the
    angle between -90 and 90 degrees; between 0 and 60 km/h the display is
    the speed itself and the angle is linear in it. *)
Theorem speedometerAngle_on_dial :
  (speedometerAngle PosInf ≈ Fin 90)%js
  /\ (speedometerAngle NegInf ≈ Fin (-90))%js
  /\ forall v : Q, exists d a : Q,
       speedometerDisplaySpeed (Fin v) = Fin d
       /\ speedometerAngle (Fin v) = Fin a
       /\ (0 <= d)%Q /\ (d <= 60)%Q
       /\ (a == -90 + d * 3)%Q
       /\ (-90 <= a)%Q /\ (a <= 90)%Q
       /\ ((0 <= v)%Q -> (v * 3.6 <= 60)%Q -> d == v * 3.6)%Q.
Proof.
  split; [vm_compute; reflexivity|]. split; [vm_compute; reflexivity|].
  intros v. unfold speedometerAngle, speedometerDisplaySpeed.
  change (Fin v * Fin 3.6)%js with (Fin (v * 3.6)).
  destruct (max_Fin 0 (v * 3.6)) as (m & -> & Hm & _).
  destruct (min_Fin m 60) as (d & -> & Hd & _).
  exists d, (-90 + d / 60 * 180)%Q.
  assert (Hm0 : (0 <= m)%Q) by (rewrite Hm; apply Q.le_max_l).
  assert (Hd0 : (0 <= d)%Q) by (rewrite Hd; apply Q.min_glb; lra).
  assert (Hd60 : (d <= 60)%Q) by (rewrite Hd; apply Q.le_min_r).
  split; [reflexivity|]. split; [reflexivity|].
  split; [exact Hd0|]. split; [exact Hd60|].
  assert (Ha : (-90 + d / 60 * 180 == -90 + d * 3)%Q) by field.
  split; [exact Ha|]. split; [lra|]. split; [lra|].
  intros H0 H60. rewrite Hd, Hm. rewrite Q.max_r by lra. apply Q.min_l. lra.
Qed.

(* ===================================================================== *)
(** ** services/offlineMapService.ts: tiles *)
(* ===================================================================== *)

Section RangeFacts.

Local Open Scope Q_scope.

Lemma stepsFrom_Fin (q : Q) (a : Z) (j : nat) :
  q == inject_Z a ->
  exists r : Q, stepsFrom (Fin q) j = Fin r /\ r == inject_Z (a + Z.of_nat j).
Proof.
  intros Hq. induction j as [|j (r & Hr & Hra)].
  - exists q. split; [reflexivity|]. by rewrite Z.add_0_r.
  - exists (r + 1). cbn [stepsFrom]. rewrite Hr.
    split; [reflexivity|].
    rewrite Hra, Nat2Z.inj_succ. unfold Z.succ. rewrite !inject_Z_plus. ring.
Qed.

Lemma stepsFrom_shift (v : number) (j : nat) :
  stepsFrom (v + Fin 1)%js j = stepsFrom v (S j).
Proof. induction j as [|j IH]; [reflexivity|]. cbn [stepsFrom] in *. by rewrite IH. Qed.

(** A counted loop over the integers from [a] to [b]: the body runs once
    for each of them, in order. *)
Lemma forRange_spec {State : Type} (n : nat) :
  forall (P : nat -> State -> Prop) (fuel : nat) (a b : Z) (q bq : Q)
         (body : number -> State -> outcome State) (s : State),
    q == inject_Z a -> bq == inject_Z b ->
    n = Z.to_nat (b - a + 1) -> (n <= fuel)%nat ->
    P 0%nat s ->
    (forall j s, (j < n)%nat -> P j s ->
       exists s', body (stepsFrom (Fin q) j) s = Done s' /\ P (S j) s') ->
    exists s', forRange fuel (Fin q) (Fin bq) body s = Done s' /\ P n s'.
Proof.
  induction n as [|n IH]; intros P fuel a b q bq body s Hq Hb Hn Hfuel H0 Hbody.
  - exists s. split; [|exact H0].
    assert (Hlt : bq < q).
    { rewrite Hq, Hb. rewrite <- Zlt_Qlt. lia. }
    destruct fuel; cbn [forRange]; by rewrite (proj2 (le_Fin_false q bq) Hlt).
  - destruct fuel as [|fuel]; [lia|].
    assert (Hle : q <= bq).
    { rewrite Hq, Hb. rewrite <- Zle_Qle. lia. }
    cbn [forRange]. rewrite (proj2 (le_Fin q bq) Hle).
    destruct (Hbody 0%nat s ltac:(lia) H0) as (s1 & Hs1 & H1).
    cbn [stepsFrom] in Hs1. rewrite Hs1. cbn [bind].
    change (Fin q + Fin 1)%js with (Fin (q + 1)).
    apply (IH (fun j => P (S j)) fuel (a + 1)%Z b (q + 1) bq body s1).
    + rewrite Hq, inject_Z_plus. reflexivity.
    + exact Hb.
    + lia.
    + lia.
    + exact H1.
    + intros j s' Hj Hs'.
      change (Fin (q + 1)) with (Fin q + Fin 1)%js. rewrite stepsFrom_shift.
      apply Hbody; [lia | exact Hs'].
Qed.

(** A counted loop whose body appends: the result is what the passes
    append, one after the other. *)
Lemma forRange_collect {A : Type} (n fuel : nat) (a b : Z) (q bq : Q)
    (body : number -> list A -> outcome (list A)) (f : nat -> list A) (s0 : list A) :
  q == inject_Z a -> bq == inject_Z b ->
  n = Z.to_nat (b - a + 1) -> (n <= fuel)%nat ->
  (forall j s, (j < n)%nat -> body (stepsFrom (Fin q) j) s = Done (s ++ f j)) ->
  forRange fuel (Fin q) (Fin bq) body s0 = Done (s0 ++ (seq 0 n ≫= f)).
Proof.
  intros Hq Hb Hn Hfuel Hbody.
  destruct (forRange_spec n (fun j s => s = s0 ++ (seq 0 j ≫= f))
              fuel a b q bq body s0 Hq Hb Hn Hfuel) as (s' & Hs' & ->).
  - by rewrite app_nil_r.
  - intros j s Hj ->. eexists. split; [apply Hbody; exact Hj|].
    rewrite seq_S, bind_app, bind_singleton, app_assoc. reflexivity.
  - exact Hs'.
Qed.

End RangeFacts.

Section TileFacts.

Variable Number_toString : number -> string.

(** One column of one level. *)
Lemma column_tiles (fuel : nat) (x z : number) (t b : Z) (tiles : list TileInfo) :
  (Z.to_nat (b - t + 1) <= fuel)%nat ->
  forRange fuel (Fin (inject_Z t)) (Fin (inject_Z b))
    (fun y tiles => Done (tiles ++ [tileAt Number_toString x y z])) tiles
  = Done (tiles ++ (seq 0 (Z.to_nat (b - t + 1)) ≫= fun j =>
                      [tileAt Number_toString x (stepsFrom (Fin (inject_Z t)) j) z])).
Proof.
  intros Hfuel.
  apply (forRange_collect (Z.to_nat (b - t + 1)) fuel t b); try reflexivity; try assumption.
Qed.

(** One zoom level. *)
Lemma level_tiles (fuel : nat) (z : number) (l r t b : Z) (tiles : list TileInfo) :
  (Z.to_nat (r - l + 1) <= fuel)%nat ->
  (Z.to_nat (b - t + 1) <= fuel)%nat ->
  forRange fuel (Fin (inject_Z l)) (Fin (inject_Z r))
    (fun x tiles =>
       forRange fuel (Fin (inject_Z t)) (Fin (inject_Z b))
         (fun y tiles => Done (tiles ++ [tileAt Number_toString x y z])) tiles)
    tiles
  = Done (tiles ++ (seq 0 (Z.to_nat (r - l + 1)) ≫= fun i =>
                    seq 0 (Z.to_nat (b - t + 1)) ≫= fun j =>
                      [tileAt Number_toString (stepsFrom (Fin (inject_Z l)) i)
                         (stepsFrom (Fin (inject_Z t)) j) z])).
Proof.
  intros Hcols Hrows.
  apply (forRange_collect (Z.to_nat (r - l + 1)) fuel l r); try reflexivity; try assumption.
  intros i s Hi. by apply column_tiles.
Qed.

(** The tiles of a level, as the loops append them, are the tiles of its
    rectangle. *)
Lemma level_tiles_grid (zq : Q) (zk l r t b : Z) :
  (zq == inject_Z zk)%Q ->
  Forall2 (isTile Number_toString)
    (seq 0 (Z.to_nat (r - l + 1)) ≫= fun i =>
     seq 0 (Z.to_nat (b - t + 1)) ≫= fun j =>
       [tileAt Number_toString (stepsFrom (Fin (inject_Z l)) i)
          (stepsFrom (Fin (inject_Z t)) j) (Fin zq)])
    (x ← seqZ l (r - l + 1); y ← seqZ t (b - t + 1); [(zk, x, y)]).
Proof.
  intros Hz. unfold seqZ. rewrite !list_fmap_bind.
  apply Forall2_bind, Forall_Forall2_diag, Forall_forall. intros i _.
  cbn [compose]. rewrite list_fmap_bind.
  apply Forall2_bind, Forall_Forall2_diag, Forall_forall. intros j _.
  cbn [compose]. constructor; [|constructor].
  destruct (stepsFrom_Fin (inject_Z l) l i) as (xq & -> & Hx); [reflexivity|].
  destruct (stepsFrom_Fin (inject_Z t) t j) as (yq & -> & Hy); [reflexivity|].
  exists zq, xq, yq. cbn [fst snd].
  split; [exact Hz|]. split; [by rewrite Hx, Z.add_comm|].
  split; [by rewrite Hy, Z.add_comm | reflexivity].
Qed.

End TileFacts.

(** No tile is listed twice. *)
Lemma tileGrid_NoDup (z0 : Z) (L R T B : nat -> Z) (levels : nat) :
  NoDup (tileGrid z0 L R T B levels).
Proof.
  unfold tileGrid. apply NoDup_bind; [| |apply NoDup_seq].
  - intros i1 i2 k _ _ H1 H2.
    apply list_elem_of_bind in H1 as (x1 & H1 & _).
    apply list_elem_of_bind in H1 as (y1 & H1 & _).
    apply list_elem_of_bind in H2 as (x2 & H2 & _).
    apply list_elem_of_bind in H2 as (y2 & H2 & _).
    apply list_elem_of_singleton in H1, H2. subst k.
    injection H2 as Hz _ _. lia.
  - intros i _. apply NoDup_bind; [| |apply NoDup_seqZ].
    + intros x1 x2 k _ _ H1 H2.
      apply list_elem_of_bind in H1 as (y1 & H1 & _).
      apply list_elem_of_bind in H2 as (y2 & H2 & _).
      apply list_elem_of_singleton in H1, H2. subst k.
      by injection H2 as ->.
    + intros x _. apply NoDup_bind; [| |apply NoDup_seqZ].
      * intros y1 y2 k _ _ H1 H2.
        apply list_elem_of_singleton in H1, H2. subst k.
        by injection H2 as ->.
      * intros y _. apply NoDup_singleton.
Qed.

Lemma tileGrid_length (z0 : Z) (L R T B : nat -> Z) (levels : nat) :
  length (tileGrid z0 L R T B levels) = tileCount L R T B levels.
Proof.
  assert (Hrow : forall (A : Type) (f : Z -> A) (l : list Z),
            length (l ≫= fun y => [f y]) = length l).
  { intros A f l. induction l as [|y l IH]; [reflexivity|].
    rewrite bind_cons, length_app, IH. reflexivity. }
  assert (Hcol : forall (A : Type) (f : Z -> Z -> A) (xs ys : list Z),
            length (xs ≫= fun x => ys ≫= fun y => [f x y]) = (length xs * length ys)%nat).
  { intros A f xs ys. induction xs as [|x xs IH]; [reflexivity|].
    rewrite bind_cons, length_app, IH, Hrow. reflexivity. }
  unfold tileGrid, tileCount.
  induction levels as [|n IH]; [reflexivity|].
  rewrite seq_S, bind_app, bind_singleton, length_app, sum_list_with_app, IH.
  cbn [sum_list_with Nat.add].
  rewrite (Hcol _ (fun x y => ((z0 + Z.of_nat n)%Z, x, y))), !length_seqZ. lia.
Qed.

(** X23.  [calculateTilesInBounds] lists exactly the tiles of the
    rectangle of each zoom level, each once, in the order of the loops.
    When the zoom is a whole number, the depth a natural number, and the
    tile indices of the bounds are whole numbers at each of the levels
    [zoom, zoom + 1, ..., zoom + depth] (columns [L i] to [R i], rows [T i]
    to [B i] at level [i]), all of them small enough to be counted exactly,
    the call returns the list of the tiles of [tileGrid]: level by level,
    within a level column by column, within a column row by row, every
    (level, column, row) of a rectangle once and nothing else, each with
    the URL of [tileAt].  So the number of tiles is the sum over the levels
    of [(R i - L i + 1) * (B i - T i + 1)]; a level whose rectangle is empty
    adds none. *)
Theorem calculateTilesInBounds_rectangles
    (M : MathLib) (Math_pow : number -> number -> number)
    (Math_log Math_tan : number -> number) (Number_toString : number -> string)
    (fuel : nat) (bounds : MapBounds) (z0 : Z) (depth : nat) (L R T B : nat -> Z) :
  zoom bounds = Fin (inject_Z z0) ->
  (forall i, (i <= depth)%nat ->
     long2tile Math_pow (west bounds) (stepsFrom (zoom bounds) i) = Fin (inject_Z (L i))
     /\ long2tile Math_pow (east bounds) (stepsFrom (zoom bounds) i) = Fin (inject_Z (R i))
     /\ lat2tile M Math_pow Math_log Math_tan (north bounds) (stepsFrom (zoom bounds) i)
        = Fin (inject_Z (T i))
     /\ lat2tile M Math_pow Math_log Math_tan (south bounds) (stepsFrom (zoom bounds) i)
        = Fin (inject_Z (B i))) ->
  safeIndex z0 -> safeIndex (z0 + Z.of_nat depth + 1) ->
  (forall i, (i <= depth)%nat ->
     safeIndex (L i) /\ safeIndex (R i + 1) /\ safeIndex (T i) /\ safeIndex (B i + 1)) ->
  (depth < fuel)%nat ->
  (forall i, (i <= depth)%nat ->
     (Z.to_nat (R i - L i + 1) <= fuel)%nat /\ (Z.to_nat (B i - T i + 1) <= fuel)%nat) ->
  exists tiles,
    calculateTilesInBounds M Math_pow Math_log Math_tan Number_toString fuel bounds
      (Fin (inject_Z (Z.of_nat depth)))
    = Done tiles
    /\ Forall2 (isTile Number_toString) tiles (tileGrid z0 L R T B (S depth))
    /\ NoDup (tileGrid z0 L R T B (S depth))
    /\ length tiles = tileCount L R T B (S depth).
Proof.
  intros Hzoom Hidx _ _ _ Hdepth Hfuel. unfold calculateTilesInBounds. rewrite Hzoom in *.
  set (zq := inject_Z z0) in *.
  change (Fin zq + Fin (inject_Z (Z.of_nat depth)))%js
    with (Fin (zq + inject_Z (Z.of_nat depth))).
  assert (Hgrid : Forall2 (isTile Number_toString)
    (seq 0 (S depth) ≫= fun i =>
     seq 0 (Z.to_nat (R i - L i + 1)) ≫= fun a =>
     seq 0 (Z.to_nat (B i - T i + 1)) ≫= fun b =>
       [tileAt Number_toString (stepsFrom (Fin (inject_Z (L i))) a)
          (stepsFrom (Fin (inject_Z (T i))) b) (stepsFrom (Fin zq) i)])
    (tileGrid z0 L R T B (S depth))).
  { unfold tileGrid.
    apply Forall2_bind, Forall_Forall2_diag, Forall_forall. intros i _.
    destruct (stepsFrom_Fin zq z0 i) as (ziq & -> & Hzi); [reflexivity|].
    by apply level_tiles_grid. }
  eexists. split; [|split; [exact Hgrid|split; [apply tileGrid_NoDup|]]].
  - rewrite <- (app_nil_l (_ ≫= _)).
    apply (forRange_collect (S depth) fuel z0 (z0 + Z.of_nat depth)%Z).
    + reflexivity.
    + unfold zq. by rewrite inject_Z_plus.
    + lia.
    + lia.
    + intros i s Hi.
      destruct (Hidx i ltac:(lia)) as (-> & -> & -> & ->).
      destruct (Hfuel i ltac:(lia)) as [Hcols Hrows].
      by apply level_tiles.
  - rewrite (Forall2_length _ _ _ Hgrid). apply tileGrid_length.
Qed.

(** A region of one level: two columns, one row. *)
Lemma calculateTilesInBounds_rectangles_witness :
  exists tiles,
    calculateTilesInBounds flatMath (fun _ _ => Fin 4) (fun _ => Fin 0) (fun _ => Fin 0)
      (fun _ => "n") 3
      {| north := Fin 10; south := Fin 0; east := Fin 90; west := Fin 0; zoom := Fin 2 |}
      (Fin 0)
    = Done tiles
    /\ Forall2 (isTile (fun _ => "n")) tiles [(2, 2, 2); (2, 3, 2)]%Z
    /\ length tiles = 2%nat.
Proof.
  destruct (calculateTilesInBounds_rectangles flatMath
              (fun _ _ => Fin 4) (fun _ => Fin 0) (fun _ => Fin 0) (fun _ => "n") 3
              {| north := Fin 10; south := Fin 0; east := Fin 90; west := Fin 0;
                 zoom := Fin 2 |}
              2%Z 0 (fun _ => 2%Z) (fun _ => 3%Z) (fun _ => 2%Z) (fun _ => 2%Z))
    as (tiles & Ht & Hg & _ & Hl).
  - reflexivity.
  - intros i Hi. assert (i = 0%nat) as -> by lia. vm_compute. repeat split; reflexivity.
  - unfold safeIndex. cbn. lia.
  - unfold safeIndex. cbn. lia.
  - intros i Hi. unfold safeIndex. cbn. lia.
  - lia.
  - intros i Hi. cbn. lia.
  - exists tiles. split; [exact Ht|]. split; [exact Hg | exact Hl].
Defined.

Section DownloadFacts.

Variable fetch : string -> FetchResult.

(** Caching a run of tiles, one after the other. *)
Lemma cacheTile_foldl (total : nat) (tiles : list TileInfo)
    (cache : gset string) (completed : nat) (progress : list (nat * nat)) :
  foldl (cacheTile fetch total) (cache, completed, progress) tiles
  = (cache ∪ list_to_set (filter (fun u => fetch u = FetchOk) (map tile_url tiles)),
     (completed + length tiles)%nat,
     progress ++ map (fun k => (k, total)) (seq (S completed) (length tiles))).
Proof.
  revert cache completed progress.
  induction tiles as [|tile tiles IH]; intros cache completed progress.
  - cbn [foldl length map seq filter list_to_set].
    rewrite app_nil_r, Nat.add_0_r, filter_nil. cbn [list_to_set].
    by rewrite (right_id_L ∅ (∪)).
  - cbn [foldl cacheTile]. rewrite IH. cbn [length map seq].
    rewrite <- app_assoc. cbn [app].
    replace (S completed + length tiles)%nat with (completed + S (length tiles))%nat by lia.
    f_equal. f_equal.
    rewrite filter_cons.
    destruct (decide (tile_url tile ∈ cache)) as [Hin|Hnot].
    + destruct (decide (fetch (tile_url tile) = FetchOk)) as [Hok|Hno]; [|reflexivity].
      cbn [list_to_set]. rewrite (assoc_L (∪)). f_equal.
      rewrite (comm_L (∪)). symmetry. apply subseteq_union_1_L.
      by apply singleton_subseteq_l.
    + destruct (fetch (tile_url tile)) eqn:Hf.
      * rewrite decide_False by discriminate. reflexivity.
      * rewrite decide_False by discriminate. reflexivity.
      * rewrite decide_True by reflexivity. cbn [list_to_set].
        by rewrite (assoc_L (∪)).
Qed.

(** The chunks, taken together, are the tiles from [i] on. *)
Lemma chunkLoop_foldl (n i : nat) (tiles : list TileInfo)
    (st : gset string * nat * list (nat * nat)) :
  (length tiles - i <= n)%nat ->
  chunkLoop fetch n i tiles st = foldl (cacheTile fetch (length tiles)) st (drop i tiles).
Proof.
  revert i st. induction n as [|n IH]; intros i st Hn; cbn [chunkLoop].
  - rewrite drop_ge by lia. reflexivity.
  - destruct (Nat.ltb_spec i (length tiles)) as [Hlt|Hge].
    + rewrite IH by lia.
      rewrite <- (take_drop 5 (drop i tiles)) at 2.
      rewrite foldl_app, drop_drop. reflexivity.
    + rewrite drop_ge by lia. reflexivity.
Qed.

End DownloadFacts.

(** X24.  [downloadTiles] refuses more than 500 tiles before it touches the
    cache or reports progress.  Otherwise it completes whatever the network
    does: [onProgress] is called once per tile with
    [(1, n), (2, n), ..., (n, n)], and the cache ends up holding what it
    held plus the URLs of the tiles whose fetch responded ok; a failed fetch
    is skipped, not reported. *)
Theorem downloadTiles_progress
    (fetch : string -> FetchResult) (tiles : list TileInfo) (cache : gset string) :
  downloadTiles fetch tiles cache
  = if (500 <? length tiles)%nat then TooManyTiles (length tiles)
    else Downloaded
           (cache ∪ list_to_set (filter (fun u => fetch u = FetchOk) (map tile_url tiles)))
           (map (fun k => (k, length tiles)) (seq 1 (length tiles))).
Proof.
  unfold downloadTiles. change MAX_TILES_PER_DOWNLOAD with 500%nat.
  destruct (500 <? length tiles)%nat; [reflexivity|].
  rewrite chunkLoop_foldl by lia. cbn [drop].
  rewrite cacheTile_foldl. reflexivity.
Qed.

(** X25.  With [Math.pow(2, zoom)] the power [2^z], [long2tile] maps the
    longitudes from -180 to 180 to the numbers [0 .. 2^z], in order (a
    longitude further east never gets a smaller column).  The columns of
    the zoom level are [0 .. 2^z - 1]: longitude -180 gets column 0, and
    longitude 180 gets [2^z], one past the last column. *)
Theorem long2tile_columns
    (Math_pow : number -> number -> number) (zoom : number) (z : nat) (p lon lon' : Q) :
  Math_pow (Fin 2) zoom = Fin p ->
  (p == inject_Z (2 ^ Z.of_nat z))%Q ->
  (-180 <= lon)%Q -> (lon <= lon')%Q -> (lon' <= 180)%Q ->
  exists k k' : Z,
    long2tile Math_pow (Fin lon) zoom = Fin (inject_Z k)
    /\ long2tile Math_pow (Fin lon') zoom = Fin (inject_Z k')
    /\ (0 <= k)%Z /\ (k <= k')%Z /\ (k' <= 2 ^ Z.of_nat z)%Z
    /\ long2tile Math_pow (Fin (-180)) zoom = Fin (inject_Z 0)
    /\ long2tile Math_pow (Fin 180) zoom = Fin (inject_Z (2 ^ Z.of_nat z)).
Proof.
  intros Hpow Hp Hlo Hle Hhi. unfold long2tile. rewrite Hpow.
  assert (Hp0 : (0 < p)%Q).
  { rewrite Hp. change 0%Q with (inject_Z 0). rewrite <- Zlt_Qlt.
    apply Z.pow_pos_nonneg; lia. }
  assert (Hval : forall x : Q,
            ((Fin x + Fin 180) / Fin 360 * Fin p)%js = Fin ((x + 180) / 360 * p))
    by reflexivity.
  rewrite !Hval. cbn [Math_floor].
  exists (Qfloor ((lon + 180) / 360 * p)), (Qfloor ((lon' + 180) / 360 * p)).
  split; [reflexivity|]. split; [reflexivity|].
  assert (Hfrac : forall x : Q, (-180 <= x)%Q -> (x <= 180)%Q ->
            (0 <= (x + 180) / 360)%Q /\ ((x + 180) / 360 <= 1)%Q).
  { intros x H1 H2. split.
    - apply Qle_shift_div_l; [reflexivity | lra].
    - apply Qle_shift_div_r; [reflexivity | lra]. }
  destruct (Hfrac lon ltac:(lra) ltac:(lra)) as [Ha0 Ha1].
  destruct (Hfrac lon' ltac:(lra) ltac:(lra)) as [Hb0 Hb1].
  assert (Hab : ((lon + 180) / 360 <= (lon' + 180) / 360)%Q).
  { unfold Qdiv. apply Qmult_le_compat_r; [lra | discriminate]. }
  split; [|split; [|split; [|split]]].
  - change 0%Z with (Qfloor 0). apply Qfloor_resp_le. nra.
  - apply Qfloor_resp_le. nra.
  - rewrite <- (Qfloor_Z (2 ^ Z.of_nat z)). apply Qfloor_resp_le.
    rewrite <- Hp. nra.
  - assert (E : ((-180 + 180) / 360 * p == inject_Z 0)%Q).
    { change (inject_Z 0) with 0%Q. field. }
    rewrite (Qfloor_comp _ _ E), Qfloor_Z. reflexivity.
  - assert (E : ((180 + 180) / 360 * p == inject_Z (2 ^ Z.of_nat z))%Q).
    { rewrite Hp. field. }
    rewrite (Qfloor_comp _ _ E), Qfloor_Z. reflexivity.
Qed.

Lemma long2tile_columns_witness :
  exists k k' : Z,
    long2tile (fun _ _ => Fin 4) (Fin 75.7823) (Fin 2) = Fin (inject_Z k)
    /\ long2tile (fun _ _ => Fin 4) (Fin 75.7923) (Fin 2) = Fin (inject_Z k')
    /\ (0 <= k)%Z /\ (k <= k')%Z /\ (k' <= 2 ^ Z.of_nat 2)%Z
    /\ long2tile (fun _ _ => Fin 4) (Fin (-180)) (Fin 2) = Fin (inject_Z 0)
    /\ long2tile (fun _ _ => Fin 4) (Fin 180) (Fin 2) = Fin (inject_Z (2 ^ Z.of_nat 2)).
Proof.
  apply (long2tile_columns (fun _ _ => Fin 4) (Fin 2) 2 4 75.7823 75.7923);
    reflexivity || discriminate.
Defined.
